(** * Real-time translator client: capture, PCM encoding, streaming
      transcript channel, transcript aggregation and waveform playback

    A shallow embedding of the React front end
    ([frontend/src/App.js], its streaming variants, and the [Waveform]
    component) together with the properties of its natural-language
    design that can be stated over it, and further properties of the
    code: of the encoder, of the session, of the controller, and of the
    transcription by upload, the translation and the speech.

    The front end is JavaScript running in a browser.  The parts of the
    platform the code relies on are modelled as the standards define them:
    - numbers are IEEE 754 binary64 values ([spec_float] of the standard
      library, with the operations of [SpecFloat] at precision 53);
    - typed arrays convert on store ([ToInt16] of ECMA-262);
    - [JSON.parse] follows the JSON grammar of ECMA-404;
    - a WebSocket has the four [readyState]s of the WebSocket API;
    - React effects run their cleanups, then their bodies, whenever one
      of their dependencies changed identity. *)

From Stdlib Require Import ZArith QArith Qround Qminmax Lia.
From Stdlib Require Import SpecFloat Ascii String.
From stdpp Require Import base list strings gmap pretty.

Local Open Scope string_scope.
Local Open Scope list_scope.
Local Open Scope Z_scope.

(** * Numbers *)

Module Number.

(** A JavaScript Number is a binary64 floating-point value. *)
Abbreviation number := spec_float (only parsing).

Definition prec : Z := 53.
Definition emax : Z := 1024.

(** The Number with the mathematical value of an integer literal. *)
Definition of_Z (z : Z) : number := binary_normalize prec emax z 0 false.

(** Reading an element of a [Float32Array]: the binary32 value is
    widened to binary64, which is exact. *)
Definition of_float32 (x : spec_float) : number :=
  match x with
  | S754_finite s m e => binary_round prec emax s m e
  | _ => x
  end.

(** [x * y] *)
Definition mul (x y : number) : number := SFmul prec emax x y.

(** [Math.min(x, y)]: NaN if either argument is NaN, and -0 is
    smaller than +0. *)
Definition Math_min (x y : number) : number :=
  match SFcompare x y with
  | None => S754_nan
  | Some Lt => x
  | Some Gt => y
  | Some Eq =>
      match x, y with
      | S754_zero sx, S754_zero sy => S754_zero (sx || sy)
      | _, _ => x
      end
  end.

(** The mathematical value of a finite Number truncated toward zero. *)
Definition truncate (x : number) : Z :=
  match x with
  | S754_finite s m e => cond_Zopp s (Z.shiftl (Z.pos m) e)
  | _ => 0
  end.

(** [ToInt16] (ECMA-262 7.1.8): NaN, the infinities and the zeros
    convert to 0; any other value is truncated, reduced modulo 2^16 and
    read as a two's complement 16-bit integer. *)
Definition ToInt16 (x : number) : Z :=
  match x with
  | S754_nan | S754_infinity _ | S754_zero _ => 0
  | S754_finite _ _ _ =>
      let int := truncate x in
      let int16bit := int mod 2 ^ 16 in
      if 2 ^ 15 <=? int16bit then int16bit - 2 ^ 16 else int16bit
  end.

(** The Number nearest to the decimal [digits * 10^exp10] (ties to
    even), as a numeric literal or [JSON.parse] yields it.  Beyond 310
    decimal orders of magnitude the result is an infinity, below -330 a
    zero, whatever the digits. *)
Definition of_decimal (neg : bool) (digits : Z) (exp10 : Z) : number :=
  if digits =? 0 then S754_zero neg
  else
    let D := Z.of_nat (String.length (pretty (Z.to_N digits))) in
    if 310 <? D + exp10 then S754_infinity neg
    else if D + exp10 <? -330 then S754_zero neg
    else if 0 <=? exp10 then
      binary_normalize prec emax (cond_Zopp neg (digits * 10 ^ exp10)) 0 false
    else
      let '(q, e, l) := SFdiv_core_binary prec emax digits 0 (10 ^ (- exp10)) 0 in
      binary_round_aux prec emax neg q e l.

Fixpoint zeros (n : nat) : string :=
  match n with
  | O => ""
  | S n' => "0" +:+ zeros n'
  end.

(** [decade fuel n num den]: the largest [n' <= n] with
    [10^(n'-1) <= num/den], searched downward for [fuel] steps. *)
Fixpoint decade (fuel : nat) (n : Z) (num den : Z) : Z :=
  match fuel with
  | O => n
  | S fuel' =>
      if (if 1 <=? n then 10 ^ (n - 1) * den <=? num
          else den <=? num * 10 ^ (1 - n))
      then n
      else decade fuel' (n - 1) num den
  end.

(** The decimal [s * 10^(n-k)] with the fewest digits [k] that converts
    back to the positive Number [x = num/den], and among those the one
    nearest to [x]; [k] is tried upward. *)
Fixpoint shortest (fuel : nat) (k : Z) (x : number) (n num den : Z) : Z * Z :=
  match fuel with
  | O => (0, n)
  | S fuel' =>
      let (ynum, yden) :=
        if n <=? k then (num * 10 ^ (k - n), den) else (num, den * 10 ^ (n - k)) in
      let lo := ynum / yden in
      let hi := lo + 1 in
      let ok s :=
        match SFcompare (of_decimal false s (n - k)) x with
        | Some Eq => true
        | _ => false
        end in
      let pick :=
        match ok lo, ok hi with
        | true, false => Some lo
        | false, true => Some hi
        | true, true =>
            match 2 * ynum ?= (2 * lo + 1) * yden with
            | Lt => Some lo
            | Gt => Some hi
            | Eq => Some (if Z.even lo then lo else hi)
            end
        | false, false => None
        end in
      match pick with
      | Some s => if s =? 10 ^ k then (1, n + 1) else (s, n)
      | None => shortest fuel' (k + 1) x n num den
      end
  end.

(** [Number::toString] of the positive Number [m * 2^e]: plain decimal
    notation when the decimal point falls within 21 digits, exponent
    notation otherwise. *)
Definition toString_pos (m : positive) (e : Z) : string :=
  let (num, den) := if 0 <=? e then (Z.pos m * 2 ^ e, 1) else (Z.pos m, 2 ^ (- e)) in
  let n0 := decade 640 310 num den in
  let (s, n) := shortest 20 1 (S754_finite false m e) n0 num den in
  let digits := pretty (Z.to_N s) in
  let k := Z.of_nat (String.length digits) in
  if (-6 <? n) && (n <=? 21) then
    if k <=? n then digits +:+ zeros (Z.to_nat (n - k))
    else if 0 <? n then
      String.substring 0 (Z.to_nat n) digits +:+ "." +:+
      String.substring (Z.to_nat n) (Z.to_nat (k - n)) digits
    else "0." +:+ zeros (Z.to_nat (- n)) +:+ digits
  else
    let ex := n - 1 in
    let sign := if 0 <? ex then "+" else "-" in
    (if k =? 1 then digits
     else String.substring 0 1 digits +:+ "." +:+
          String.substring 1 (Z.to_nat (k - 1)) digits)
    +:+ "e" +:+ sign +:+ pretty (Z.to_N (Z.abs ex)).

(** [Number::toString(x)] (ECMA-262 6.1.6.1.20, radix 10). *)
Definition toString (x : number) : string :=
  match x with
  | S754_nan => "NaN"
  | S754_zero _ => "0"
  | S754_infinity s => if s then "-Infinity" else "Infinity"
  | S754_finite s m e =>
      match binary_round prec emax s m e with
      | S754_finite _ m' e' => (if s then "-" else "") +:+ toString_pos m' e'
      | _ => "Infinity"
      end
  end.

(** The exact value of a finite Number as a rational. *)
Definition to_Q (x : number) : Q :=
  match x with
  | S754_finite s m e =>
      match e with
      | Z.neg p => cond_Zopp s (Z.pos m) # (2 ^ p)
      | _ => inject_Z (cond_Zopp s (Z.pos m) * 2 ^ e)
      end
  | _ => 0%Q
  end.

End Number.

Import Number.

(** * The PCM encoder *)

(** A [Float32Array] is a sequence of binary32 values; an [Int16Array] a
    sequence of integers in [-2^15, 2^15); an [ArrayBuffer] a sequence of
    bytes. *)
Abbreviation Float32Array := (list spec_float) (only parsing).
Abbreviation Int16Array := (list Z) (only parsing).
Abbreviation ArrayBuffer := (list Z) (only parsing).

(** [buffer[i]] on a [Float32Array]: the element as a Number, or
    [undefined] (which [Math.min] converts to NaN) out of range. *)
Definition Float32Array_get (buffer : Float32Array) (i : nat) : number :=
  match buffer !! i with
  | Some x => of_float32 x
  | None => S754_nan
  end.

(** [buf[i] = v] on an [Int16Array]: the value is converted with
    [ToInt16]; a store out of range is ignored. *)
Definition Int16Array_set (buf : Int16Array) (i : nat) (v : number) : Int16Array :=
  <[i := ToInt16 v]> buf.

(** [new Int16Array(l)]: [l] zeros. *)
Definition Int16Array_new (l : nat) : Int16Array := replicate l 0.

(** The bytes of one 16-bit element, least significant first (typed
    arrays use the byte order of the platform, little-endian on every
    platform a browser runs on). *)
Definition Int16_bytes (v : Z) : list Z :=
  let u := v mod 2 ^ 16 in [u mod 2 ^ 8; u / 2 ^ 8].

(** [new Int16Array(buf).buffer]: the bytes of a copy of [buf]. *)
Definition Int16Array_buffer (buf : Int16Array) : ArrayBuffer :=
  flat_map Int16_bytes buf.

(** The 16-bit signed samples a receiver reads from a little-endian
    frame. *)
Fixpoint Int16_samples (frame : ArrayBuffer) : list Z :=
  match frame with
  | lo :: hi :: rest =>
      let u := lo + 2 ^ 8 * hi in
      (if 2 ^ 15 <=? u then u - 2 ^ 16 else u) :: Int16_samples rest
  | _ => []
  end.

(** [0x7FFF] *)
Definition x7FFF : number := of_Z 32767.
Definition one : number := of_Z 1.

(** The body of the [for] loop of [convertFloat32ToInt16], run for the
    [n] remaining iterations starting at index [i]:
    [buf[i] = Math.min(1, buffer[i]) * 0x7FFF]. *)
Fixpoint convert_loop (n : nat) (i : nat) (buffer : Float32Array)
    (buf : Int16Array) : Int16Array :=
  match n with
  | O => buf
  | S n' =>
      convert_loop n' (S i) buffer
        (Int16Array_set buf i (mul (Math_min one (Float32Array_get buffer i)) x7FFF))
  end.

(** [convertFloat32ToInt16] (App.js, both streaming variants). *)
Definition convertFloat32ToInt16 (buffer : Float32Array) : ArrayBuffer :=
  let l := length buffer in
  let buf := Int16Array_new l in
  let buf := convert_loop l 0 buffer buf in
  Int16Array_buffer buf.

(** * JavaScript values *)

(** The values the front end handles: the JSON values, [undefined], and
    the built-in functions a property lookup can reach through
    [Object.prototype].  A string is kept as the bytes of its UTF-8
    encoding. *)
Inductive value : Type :=
  | VUndefined
  | VNull
  | VBool (b : bool)
  | VNumber (x : spec_float)
  | VString (s : string)
  | VArray (elements : list value)
  | VObject (properties : list (string * value))
  | VFunction (name : string).

(** The result of running a piece of code: it returns, or it throws. *)
Inductive completion (A : Type) : Type :=
  | Normal (a : A)
  | Throw (error : string).
Arguments Normal {A} a.
Arguments Throw {A} error.

(** [ToBoolean] (truthiness). *)
Definition ToBoolean (v : value) : bool :=
  match v with
  | VUndefined | VNull => false
  | VBool b => b
  | VNumber (S754_zero _) | VNumber S754_nan => false
  | VNumber _ => true
  | VString s => negb (String.eqb s "")
  | VArray _ | VObject _ | VFunction _ => true
  end.

Fixpoint join (sep : string) (l : list string) : string :=
  match l with
  | [] => ""
  | [s] => s
  | s :: rest => s +:+ sep +:+ join sep rest
  end.

(** The own property [P] of an object; of two members with the same
    name the later one counts. *)
Fixpoint own_property (properties : list (string * value)) (P : string) : option value :=
  match properties with
  | [] => None
  | (k, v) :: rest =>
      match own_property rest P with
      | Some x => Some x
      | None => if String.eqb k P then Some v else None
      end
  end.

(** The properties every object inherits from [Object.prototype]. *)
Definition Object_prototype : list (string * value) :=
  map (fun name => (name, VFunction name))
    ["__defineGetter__"; "__defineSetter__"; "hasOwnProperty";
     "__lookupGetter__"; "__lookupSetter__"; "isPrototypeOf";
     "propertyIsEnumerable"; "toString"; "valueOf"; "toLocaleString"]
  ++ [("constructor", VFunction "Object")].

(** [v[P]] for a value [v] other than [null] and [undefined]: an own
    property of an object, else what [Object.prototype] provides
    ([__proto__] reads the prototype itself).  For arrays, strings,
    numbers and booleans this is exact on the names that their own
    prototypes and instances do not define, which includes every name the
    front end reads from a message. *)
Definition Get (v : value) (P : string) : value :=
  let inherited :=
    if String.eqb P "__proto__" then VObject Object_prototype
    else default VUndefined (own_property Object_prototype P) in
  match v with
  | VObject properties => default inherited (own_property properties P)
  | _ => inherited
  end.

(** [v[P]]: reading a property of [null] or [undefined] throws. *)
Definition GetV (v : value) (P : string) : completion value :=
  match v with
  | VUndefined | VNull => Throw "TypeError"
  | _ => Normal (Get v P)
  end.

(** The results of steps taken in turn: the first that throws ends
    them. *)
Fixpoint in_turn {A : Type} (steps : list (completion A)) : completion (list A) :=
  match steps with
  | [] => Normal []
  | Throw error :: _ => Throw error
  | Normal a :: rest =>
      match in_turn rest with
      | Throw error => Throw error
      | Normal results => Normal (a :: results)
      end
  end.

(** [ToString], as string concatenation, template literals and
    [FormData] apply it.  An object is converted by the method
    [toString] it has (ECMA-262 7.1.1.1): the inherited one gives
    ["[object Object]"]; a member [toString] of its own that is no
    function, as every member of a parsed object, leaves [valueOf], which
    gives no primitive, and the conversion throws.  An array joins the
    conversions of its elements, and throws when one of them does. *)
Fixpoint ToString (v : value) : completion string :=
  match v with
  | VUndefined => Normal "undefined"
  | VNull => Normal "null"
  | VBool b => Normal (if b then "true" else "false")
  | VNumber x => Normal (Number.toString x)
  | VString s => Normal s
  | VArray elements =>
      match in_turn (map (fun e => match e with
                                   | VUndefined | VNull => Normal ""
                                   | _ => ToString e
                                   end) elements) with
      | Throw error => Throw error
      | Normal strings => Normal (join "," strings)
      end
  | VObject properties =>
      match own_property properties "toString" with
      | None | Some (VFunction _) => Normal "[object Object]"
      | Some _ => Throw "TypeError"
      end
  | VFunction name => Normal ("function " +:+ name +:+ "() { [native code] }")
  end.

(** * [JSON.parse] *)

Module JSON.

Definition is_ws (c : ascii) : bool :=
  Ascii.eqb c " " || Ascii.eqb c "009" || Ascii.eqb c "010" || Ascii.eqb c "013".

Fixpoint skip_ws (s : string) : string :=
  match s with
  | String c rest => if is_ws c then skip_ws rest else s
  | EmptyString => s
  end.

Definition digit (c : ascii) : option Z :=
  let n := Z.of_N (N_of_ascii c) in
  if (48 <=? n) && (n <=? 57) then Some (n - 48) else None.

Definition hex (c : ascii) : option Z :=
  let n := Z.of_N (N_of_ascii c) in
  if (48 <=? n) && (n <=? 57) then Some (n - 48)
  else if (65 <=? n) && (n <=? 70) then Some (n - 55)
  else if (97 <=? n) && (n <=? 102) then Some (n - 87)
  else None.

Definition hex4 (a b c d : ascii) : option Z :=
  match hex a, hex b, hex c, hex d with
  | Some x, Some y, Some z, Some w => Some (((x * 16 + y) * 16 + z) * 16 + w)
  | _, _, _, _ => None
  end.

Definition byte (n : Z) : ascii := ascii_of_N (Z.to_N n).

(** The UTF-8 bytes of a code point. *)
Definition utf8 (cp : Z) : string :=
  if cp <? 128 then String (byte cp) ""
  else if cp <? 2048 then
    String (byte (192 + cp / 64)) (String (byte (128 + cp mod 64)) "")
  else if cp <? 65536 then
    String (byte (224 + cp / 4096))
      (String (byte (128 + cp / 64 mod 64)) (String (byte (128 + cp mod 64)) ""))
  else
    String (byte (240 + cp / 262144))
      (String (byte (128 + cp / 4096 mod 64))
         (String (byte (128 + cp / 64 mod 64)) (String (byte (128 + cp mod 64)) ""))).

(** The character an escape letter stands for. *)
Definition escape (e : ascii) : option ascii :=
  if Ascii.eqb e "034" then Some "034"%char
  else if Ascii.eqb e "\" then Some "\"%char
  else if Ascii.eqb e "/" then Some "/"%char
  else if Ascii.eqb e "b" then Some "008"%char
  else if Ascii.eqb e "f" then Some "012"%char
  else if Ascii.eqb e "n" then Some "010"%char
  else if Ascii.eqb e "r" then Some "013"%char
  else if Ascii.eqb e "t" then Some "009"%char
  else None.

(** The low half of a surrogate pair, written as an escape at the head
    of [s]. *)
Definition low_surrogate (s : string) : option Z :=
  match s with
  | String bs (String u (String a (String b (String c (String d _))))) =>
      if Ascii.eqb bs "\" && Ascii.eqb u "u" then
        match hex4 a b c d with
        | Some lo => if (56320 <=? lo) && (lo <? 57344) then Some lo else None
        | None => None
        end
      else None
  | _ => None
  end.

(** The characters of a string literal after its opening quote, up to
    the closing quote.  A high surrogate followed by a low one makes one
    code point. *)
Fixpoint parse_string (s : string) : option (string * string) :=
  match s with
  | EmptyString => None
  | String c rest =>
      if Ascii.eqb c "034" then Some ("", rest)
      else if Ascii.eqb c "\" then
        match rest with
        | String e rest1 =>
            if Ascii.eqb e "u" then
              match rest1 with
              | String a (String b (String c (String d rest2))) =>
                  match hex4 a b c d with
                  | Some hi =>
                      let low :=
                        if (55296 <=? hi) && (hi <? 56320) then low_surrogate rest2
                        else None in
                      let cp :=
                        match low with
                        | Some lo => 65536 + (hi - 55296) * 1024 + (lo - 56320)
                        | None => hi
                        end in
                      let rest3 :=
                        match low, rest2 with
                        | Some _, String _ (String _ (String _ (String _
                                    (String _ (String _ r))))) => r
                        | _, _ => rest2
                        end in
                      match parse_string rest3 with
                      | Some (t, rest') => Some (utf8 cp +:+ t, rest')
                      | None => None
                      end
                  | None => None
                  end
              | _ => None
              end
            else
              match escape e, parse_string rest1 with
              | Some c', Some (t, rest') => Some (String c' t, rest')
              | _, _ => None
              end
        | EmptyString => None
        end
      else if (N_of_ascii c <? 32)%N then None
      else
        match parse_string rest with
        | Some (t, rest') => Some (String c t, rest')
        | None => None
        end
  end.

(** A run of decimal digits: their value, their count, and the rest. *)
Fixpoint parse_digits (s : string) (acc : Z) (count : Z) : Z * Z * string :=
  match s with
  | String c rest =>
      match digit c with
      | Some d => parse_digits rest (acc * 10 + d) (count + 1)
      | None => (acc, count, s)
      end
  | EmptyString => (acc, count, s)
  end.

(** [s] without its first character when that is one of [c1], [c2]. *)
Definition skip_char (c1 c2 : ascii) (s : string) : option string :=
  match s with
  | String c rest => if Ascii.eqb c c1 || Ascii.eqb c c2 then Some rest else None
  | EmptyString => None
  end.

(** A number literal: [-? int frac? exp?]; the integer part has no
    leading zero, and a fraction and an exponent have digits. *)
Definition parse_number (s : string) : option (value * string) :=
  let '(neg, s) :=
    match skip_char "-" "-" s with
    | Some r => (true, r)
    | None => (false, s)
    end in
  let '(int, icount, s1) := parse_digits s 0 0 in
  let leading_zero := if skip_char "0" "0" s then true else false in
  if (icount =? 0) || (leading_zero && (1 <? icount)) then None
  else
    let frac :=
      match skip_char "." "." s1 with
      | Some r =>
          let '(m, fcount, r') := parse_digits r int 0 in
          if fcount =? 0 then None else Some (m, fcount, r')
      | None => Some (int, 0, s1)
      end in
    match frac with
    | None => None
    | Some (m, fcount, s2) =>
        let exp :=
          match skip_char "e" "E" s2 with
          | Some r =>
              let '(eneg, r) :=
                match skip_char "-" "-" r, skip_char "+" "+" r with
                | Some r', _ => (true, r')
                | None, Some r' => (false, r')
                | None, None => (false, r)
                end in
              let '(e, ecount, r') := parse_digits r 0 0 in
              if ecount =? 0 then None else Some (if eneg then - e else e, r')
          | None => Some (0, s2)
          end in
        match exp with
        | None => None
        | Some (e, s3) => Some (VNumber (Number.of_decimal neg m (e - fcount)), s3)
        end
    end.

(** [s] without its prefix [lit]. *)
Fixpoint strip (lit s : string) : option string :=
  match lit, s with
  | EmptyString, _ => Some s
  | String a lit', String b s' => if Ascii.eqb a b then strip lit' s' else None
  | String _ _, EmptyString => None
  end.

Definition literal (lit : string) (v : value) (s : string) : option (value * string) :=
  match strip lit s with
  | Some rest => Some (v, rest)
  | None => None
  end.

(** A JSON value at the head of [s], after white space, and what
    follows it; [fuel] bounds the depth of the calls. *)
Fixpoint parse_value (fuel : nat) (s : string) : option (value * string) :=
  match fuel with
  | O => None
  | S fuel' =>
      match skip_ws s with
      | EmptyString => None
      | String c rest as s' =>
          if Ascii.eqb c "{" then
            match skip_char "}" "}" (skip_ws rest) with
            | Some rest' => Some (VObject [], rest')
            | None => parse_members fuel' rest []
            end
          else if Ascii.eqb c "[" then
            match skip_char "]" "]" (skip_ws rest) with
            | Some rest' => Some (VArray [], rest')
            | None => parse_elements fuel' rest []
            end
          else if Ascii.eqb c "034" then
            match parse_string rest with
            | Some (t, rest') => Some (VString t, rest')
            | None => None
            end
          else if Ascii.eqb c "t" then literal "true" (VBool true) s'
          else if Ascii.eqb c "f" then literal "false" (VBool false) s'
          else if Ascii.eqb c "n" then literal "null" VNull s'
          else parse_number s'
      end
  end
with parse_elements (fuel : nat) (s : string) (acc : list value)
    : option (value * string) :=
  match fuel with
  | O => None
  | S fuel' =>
      match parse_value fuel' s with
      | Some (v, rest) =>
          match skip_char "," "," (skip_ws rest), skip_char "]" "]" (skip_ws rest) with
          | Some rest', _ => parse_elements fuel' rest' (acc ++ [v])
          | None, Some rest' => Some (VArray (acc ++ [v]), rest')
          | None, None => None
          end
      | None => None
      end
  end
with parse_members (fuel : nat) (s : string) (acc : list (string * value))
    : option (value * string) :=
  match fuel with
  | O => None
  | S fuel' =>
      match skip_char "034" "034" (skip_ws s) with
      | Some rest =>
          match parse_string rest with
          | Some (key, rest1) =>
              match skip_char ":" ":" (skip_ws rest1) with
              | Some rest2 =>
                  match parse_value fuel' rest2 with
                  | Some (v, rest3) =>
                      match skip_char "," "," (skip_ws rest3),
                            skip_char "}" "}" (skip_ws rest3) with
                      | Some rest4, _ => parse_members fuel' rest4 (acc ++ [(key, v)])
                      | None, Some rest4 => Some (VObject (acc ++ [(key, v)]), rest4)
                      | None, None => None
                      end
                  | None => None
                  end
              | None => None
              end
          | None => None
          end
      | None => None
      end
  end.

(** [JSON.parse(text)]: [None] stands for the [SyntaxError] thrown on a
    text that is not JSON.  The fuel covers every text: a call consumes
    at least one character of every two levels of calls. *)
Definition parse (text : string) : option value :=
  match parse_value (2 * String.length text + 2) text with
  | Some (v, rest) =>
      match skip_ws rest with
      | EmptyString => Some v
      | _ => None
      end
  | None => None
  end.

End JSON.

(** * Voice selection *)

(** The object literal [voiceMap] of [playTTS]. *)
Definition voiceMap : value :=
  VObject [("en", VString "en-US-JennyNeural");
           ("hi", VString "hi-IN-SwaraNeural");
           ("zh", VString "zh-CN-XiaoxiaoNeural")].

(** [voiceMap[targetLang] || 'en-US-JennyNeural'] *)
Definition voice (targetLang : string) : completion value :=
  match GetV voiceMap targetLang with
  | Normal v => Normal (if ToBoolean v then v else VString "en-US-JennyNeural")
  | Throw e => Throw e
  end.

(** * The capture session and the streaming transcript channel *)

(** The two streaming variants of [App]: the one that appends each
    [text] to the transcript ([frontend/src/App.js]) and the one that
    replaces the transcript by each [transcript] (the variant with the
    style sheet). *)
Inductive variant := Append | Replace.

Module Streaming.

(** [WebSocket.readyState]: 0, 1, 2, 3. *)
Inductive ReadyState := CONNECTING | OPEN | CLOSING | CLOSED.

(** [AudioContext.state] *)
Inductive AudioContextState := running | closed.

(** [MediaRecorder.state] *)
Inductive RecordingState := inactive | recording_ | paused.

(** A [Blob]: its bytes. *)
Abbreviation Blob := (list Z) (only parsing).

(** A WebSocket: its state, the frames handed to the transport in
    order, and the two properties [startRecording] attaches to it (the
    audio context, and whether the script processor is connected). *)
Record WebSocket := {
  readyState : ReadyState;
  sent : list ArrayBuffer;
  audioContext : option AudioContextState;
  processor : option bool;
}.

(** A [MediaRecorder]: its state, and whether its [stop] event is
    queued. *)
Record MediaRecorder := {
  state : RecordingState;
  stopping : bool;
}.

(** The component [App]: its React state, its refs, the platform
    objects it created (a ref holds the index of its object), the alerts
    shown, and the history of frames the encoder produced. *)
Record App := {
  recording : bool;
  transcribedText : value;
  status : string;
  audioBlob : option Blob;
  socketRef : option nat;
  mediaStreamRef : option nat;
  mediaRecorderRef : option nat;
  audioChunksRef : list Blob;
  sockets : list WebSocket;
  streams : list bool;
  recorders : list MediaRecorder;
  alerts : list string;
  encoded : list ArrayBuffer;
}.

(** The component as first rendered. *)
Definition initial : App := {|
  recording := false;
  transcribedText := VString "";
  status := "";
  audioBlob := None;
  socketRef := None;
  mediaStreamRef := None;
  mediaRecorderRef := None;
  audioChunksRef := [];
  sockets := [];
  streams := [];
  recorders := [];
  alerts := [];
  encoded := [];
|}.

(** ** State updates *)

Definition setRecording (b : bool) (st : App) : App :=
  {| recording := b; transcribedText := transcribedText st; status := status st;
     audioBlob := audioBlob st; socketRef := socketRef st;
     mediaStreamRef := mediaStreamRef st; mediaRecorderRef := mediaRecorderRef st;
     audioChunksRef := audioChunksRef st; sockets := sockets st;
     streams := streams st; recorders := recorders st; alerts := alerts st;
     encoded := encoded st |}.

(** [setTranscribedText(prev => f(prev))] *)
Definition setTranscribedText (f : value -> value) (st : App) : App :=
  {| recording := recording st; transcribedText := f (transcribedText st);
     status := status st;
     audioBlob := audioBlob st; socketRef := socketRef st;
     mediaStreamRef := mediaStreamRef st; mediaRecorderRef := mediaRecorderRef st;
     audioChunksRef := audioChunksRef st; sockets := sockets st;
     streams := streams st; recorders := recorders st; alerts := alerts st;
     encoded := encoded st |}.

Definition setStatus (s : string) (st : App) : App :=
  {| recording := recording st; transcribedText := transcribedText st; status := s;
     audioBlob := audioBlob st; socketRef := socketRef st;
     mediaStreamRef := mediaStreamRef st; mediaRecorderRef := mediaRecorderRef st;
     audioChunksRef := audioChunksRef st; sockets := sockets st;
     streams := streams st; recorders := recorders st; alerts := alerts st;
     encoded := encoded st |}.

Definition setAudioBlob (blob : Blob) (st : App) : App :=
  {| recording := recording st; transcribedText := transcribedText st;
     status := status st;
     audioBlob := Some blob; socketRef := socketRef st;
     mediaStreamRef := mediaStreamRef st; mediaRecorderRef := mediaRecorderRef st;
     audioChunksRef := audioChunksRef st; sockets := sockets st;
     streams := streams st; recorders := recorders st; alerts := alerts st;
     encoded := encoded st |}.

Definition set_refs (socket stream recorder : option nat) (chunks : list Blob)
    (st : App) : App :=
  {| recording := recording st; transcribedText := transcribedText st;
     status := status st;
     audioBlob := audioBlob st; socketRef := socket;
     mediaStreamRef := stream; mediaRecorderRef := recorder;
     audioChunksRef := chunks; sockets := sockets st;
     streams := streams st; recorders := recorders st; alerts := alerts st;
     encoded := encoded st |}.

Definition set_sockets (l : list WebSocket) (st : App) : App :=
  {| recording := recording st; transcribedText := transcribedText st;
     status := status st;
     audioBlob := audioBlob st; socketRef := socketRef st;
     mediaStreamRef := mediaStreamRef st; mediaRecorderRef := mediaRecorderRef st;
     audioChunksRef := audioChunksRef st; sockets := l;
     streams := streams st; recorders := recorders st; alerts := alerts st;
     encoded := encoded st |}.

Definition set_streams (l : list bool) (st : App) : App :=
  {| recording := recording st; transcribedText := transcribedText st;
     status := status st;
     audioBlob := audioBlob st; socketRef := socketRef st;
     mediaStreamRef := mediaStreamRef st; mediaRecorderRef := mediaRecorderRef st;
     audioChunksRef := audioChunksRef st; sockets := sockets st;
     streams := l; recorders := recorders st; alerts := alerts st;
     encoded := encoded st |}.

Definition set_recorders (l : list MediaRecorder) (st : App) : App :=
  {| recording := recording st; transcribedText := transcribedText st;
     status := status st;
     audioBlob := audioBlob st; socketRef := socketRef st;
     mediaStreamRef := mediaStreamRef st; mediaRecorderRef := mediaRecorderRef st;
     audioChunksRef := audioChunksRef st; sockets := sockets st;
     streams := streams st; recorders := l; alerts := alerts st;
     encoded := encoded st |}.

(** [alert(message)] *)
Definition alert (message : string) (st : App) : App :=
  {| recording := recording st; transcribedText := transcribedText st;
     status := status st;
     audioBlob := audioBlob st; socketRef := socketRef st;
     mediaStreamRef := mediaStreamRef st; mediaRecorderRef := mediaRecorderRef st;
     audioChunksRef := audioChunksRef st; sockets := sockets st;
     streams := streams st; recorders := recorders st;
     alerts := alerts st ++ [message];
     encoded := encoded st |}.

(** A call of [convertFloat32ToInt16] in an audio callback: the frame,
    and the state with the frame added to the history of encoded
    frames. *)
Definition encode (inputData : Float32Array) (st : App) : ArrayBuffer * App :=
  let frame := convertFloat32ToInt16 inputData in
  (frame,
   {| recording := recording st; transcribedText := transcribedText st;
      status := status st;
      audioBlob := audioBlob st; socketRef := socketRef st;
      mediaStreamRef := mediaStreamRef st; mediaRecorderRef := mediaRecorderRef st;
      audioChunksRef := audioChunksRef st; sockets := sockets st;
      streams := streams st; recorders := recorders st; alerts := alerts st;
      encoded := encoded st ++ [frame] |}).

(** The object a ref holds. *)
Definition current {A} (ref : option nat) (heap : list A) : option A :=
  match ref with
  | Some i => heap !! i
  | None => None
  end.

(** ** The platform objects *)

(** [ws.close()]: a socket that is connecting or open starts closing;
    one that is closing or closed is left as it is. *)
Definition WebSocket_close (ws : WebSocket) : WebSocket :=
  match readyState ws with
  | CONNECTING | OPEN =>
      {| readyState := CLOSING; sent := sent ws;
         audioContext := audioContext ws; processor := processor ws |}
  | CLOSING | CLOSED => ws
  end.

(** [ws.send(data)]: throws while connecting, transmits when open, and
    discards the data once the socket is closing or closed. *)
Definition WebSocket_send (data : ArrayBuffer) (ws : WebSocket)
    : completion unit * WebSocket :=
  match readyState ws with
  | CONNECTING => (Throw "InvalidStateError", ws)
  | OPEN =>
      (Normal (),
       {| readyState := OPEN; sent := sent ws ++ [data];
          audioContext := audioContext ws; processor := processor ws |})
  | CLOSING | CLOSED => (Normal (), ws)
  end.

Definition set_readyState (s : ReadyState) (ws : WebSocket) : WebSocket :=
  {| readyState := s; sent := sent ws;
     audioContext := audioContext ws; processor := processor ws |}.

(** [ws.processor.disconnect()] *)
Definition processor_disconnect (ws : WebSocket) : WebSocket :=
  {| readyState := readyState ws; sent := sent ws;
     audioContext := audioContext ws; processor := Some false |}.

(** [ws.audioContext.close()]; the promise it returns is dropped. *)
Definition audioContext_close (ws : WebSocket) : WebSocket :=
  {| readyState := readyState ws; sent := sent ws;
     audioContext := Some closed; processor := processor ws |}.

(** [recorder.stop()]: an active recorder becomes inactive and queues
    its [stop] event; on an inactive one the call does nothing. *)
Definition MediaRecorder_stop (r : MediaRecorder) : MediaRecorder :=
  match state r with
  | inactive => r
  | _ => {| state := inactive; stopping := true |}
  end.

(** [recorder.stop()] as [stopRecording] calls it.  User agents differ
    on an inactive recorder: older ones throw [InvalidStateError]
    ([strict]), current ones do nothing. *)
Definition MediaRecorder_stop_call (strict : bool) (r : MediaRecorder)
    : completion unit * MediaRecorder :=
  match state r with
  | inactive => (if strict then Throw "InvalidStateError" else Normal (), r)
  | _ => (Normal (), MediaRecorder_stop r)
  end.

(** ** The handlers of [App] *)

(** What [getUserMedia] makes of a click on Start: the browser has no
    [mediaDevices], the promise rejects with a message, or it resolves
    with a stream. *)
Inductive media := Unsupported | Rejected (message : string) | Granted.

(** [startRecording].  On a stream it creates, in this order, the
    recorder (started), the audio context with its processor, and the
    socket, and attaches context and processor to the socket; the
    constructors are taken to succeed.  Every failure ends in an alert. *)
Definition startRecording (m : media) (st : App) : App :=
  match m with
  | Unsupported => alert "Your browser does not support audio recording." st
  | Rejected message => alert ("Error starting recording: " +:+ message) st
  | Granted =>
      (* const stream = await getUserMedia(...) *)
      let stream := length (streams st) in
      let st := set_streams (streams st ++ [true]) st in
      (* new MediaRecorder(stream); ...; mediaRecorderRef.current.start() *)
      let recorder := length (recorders st) in
      let st :=
        set_recorders
          (recorders st ++ [{| state := recording_; stopping := false |}]) st in
      (* new WebSocket(...); source.connect(processor); ...;
         socketRef.current.audioContext = audioContext;
         socketRef.current.processor = processor *)
      let socket := length (sockets st) in
      let st :=
        set_sockets
          (sockets st ++ [{| readyState := CONNECTING; sent := [];
                             audioContext := Some running;
                             processor := Some true |}]) st in
      (* mediaStreamRef.current = stream; mediaRecorderRef.current = ...;
         audioChunksRef.current = []; socketRef.current = ... *)
      set_refs (Some socket) (Some stream) (Some recorder) [] st
  end.

(** [socketRef.current.onopen] *)
Definition onopen (v : variant) (st : App) : App :=
  let st :=
    setStatus
      match v with
      | Append => "Streaming to server..."
      | Replace => "Recording and streaming..."
      end st in
  setRecording true st.

(** [prev => prev ? prev + ' ' + data.text : data.text]; [+] converts
    [prev], then [data.text]. *)
Definition append_text (text : value) (prev : value) : completion value :=
  if ToBoolean prev then
    match ToString prev with
    | Throw error => Throw error
    | Normal before =>
        match ToString text with
        | Throw error => Throw error
        | Normal after => Normal (VString (before +:+ " " +:+ after))
        end
    end
  else Normal text.

(** [socketRef.current.onmessage]; [data] is [event.data].  In the
    appending variant the function given to [setTranscribedText] runs
    when React works off the update: when it throws, the render fails and
    nothing of the event is committed, which is shown as the event
    throwing from the state as it was.  The template literal of the
    status line is evaluated after [setTranscribedText] was called: when a
    substitution cannot be converted the handler throws there, with the
    transcript updated and the status line as it was. *)
Definition onmessage (v : variant) (data : string) (st : App)
    : completion unit * App :=
  match JSON.parse data with
  | None => (Throw "SyntaxError", st)
  | Some data =>
      match v with
      | Append =>
          match GetV data "text" with
          | Throw e => (Throw e, st)
          | Normal text =>
              if ToBoolean text then
                match append_text text (transcribedText st) with
                | Throw e => (Throw e, st)
                | Normal appended =>
                    let st := setTranscribedText (fun _ => appended) st in
                    match ToString (Get data "detected_lang") with
                    | Throw e => (Throw e, st)
                    | Normal detected_lang =>
                        match ToString (Get data "confidence") with
                        | Throw e => (Throw e, st)
                        | Normal confidence =>
                            let st :=
                              setStatus
                                ("Detected language: " +:+ detected_lang
                                 +:+ " (confidence: " +:+ confidence +:+ ")") st in
                            (Normal (), st)
                        end
                    end
                end
              else (Normal (), st)
          end
      | Replace =>
          match GetV data "transcript" with
          | Throw e => (Throw e, st)
          | Normal transcript =>
              if ToBoolean transcript then
                (Normal (), setTranscribedText (fun _ => transcript) st)
              else (Normal (), st)
          end
      end
  end.

(** [socketRef.current.onerror]; the event it receives has no
    [message]. *)
Definition onerror (v : variant) (st : App) : App :=
  match v with
  | Append => setStatus ("WebSocket error: " +:+ "undefined") st
  | Replace => setStatus "WebSocket error" st
  end.

(** [socketRef.current.send(frame)] on the socket at index [i]. *)
Definition send (i : nat) (ws : WebSocket) (frame : ArrayBuffer) (st : App)
    : completion unit * App :=
  let (c, ws') := WebSocket_send frame ws in
  (c, set_sockets (<[i := ws']> (sockets st)) st).

(** [processor.onaudioprocess]; [inputData] is
    [e.inputBuffer.getChannelData(0)].  The first variant encodes the
    block and then looks at the socket; the second looks at the socket
    first, without a test that there is one. *)
Definition onaudioprocess (v : variant) (inputData : Float32Array) (st : App)
    : completion unit * App :=
  match v with
  | Append =>
      let (pcmData, st) := encode inputData st in
      match socketRef st, current (socketRef st) (sockets st) with
      | Some i, Some ws =>
          match readyState ws with
          | OPEN => send i ws pcmData st
          | _ => (Normal (), st)
          end
      | _, _ => (Normal (), st)
      end
  | Replace =>
      match socketRef st, current (socketRef st) (sockets st) with
      | Some i, Some ws =>
          match readyState ws with
          | OPEN =>
              let (int16Data, st) := encode inputData st in
              send i ws int16Data st
          | _ => (Normal (), st)
          end
      | _, _ => (Throw "TypeError", st)
      end
  end.

(** The object a ref holds, updated in place. *)
Definition update {A} (ref : option nat) (f : A -> A) (heap : list A) : list A :=
  match ref with
  | Some i => alter f i heap
  | None => heap
  end.

(** [stopRecording], the same in both streaming variants. *)
Definition stopRecording (strict : bool) (st : App) : completion unit * App :=
  (* if (socketRef.current) socketRef.current.close() *)
  let st := set_sockets (update (socketRef st) WebSocket_close (sockets st)) st in
  (* if (mediaStreamRef.current) ...getTracks().forEach(track => track.stop()) *)
  let st := set_streams (update (mediaStreamRef st) (fun _ => false) (streams st)) st in
  (* if (socketRef.current?.processor) socketRef.current.processor.disconnect() *)
  let st :=
    set_sockets
      (update (socketRef st)
         (fun ws => if processor ws then processor_disconnect ws else ws)
         (sockets st)) st in
  (* if (socketRef.current?.audioContext) socketRef.current.audioContext.close() *)
  let st :=
    set_sockets
      (update (socketRef st)
         (fun ws => if audioContext ws then audioContext_close ws else ws)
         (sockets st)) st in
  (* if (mediaRecorderRef.current && ...state !== "inactive") ...stop() *)
  let stopped :=
    match mediaRecorderRef st, current (mediaRecorderRef st) (recorders st) with
    | Some i, Some r =>
        match state r with
        | inactive => (Normal (), st)
        | _ =>
            let (c, r') := MediaRecorder_stop_call strict r in
            (c, set_recorders (<[i := r']> (recorders st)) st)
        end
    | _, _ => (Normal (), st)
    end in
  match stopped with
  | (Normal _, st) =>
      let st := setRecording false st in
      (Normal (), setStatus "Stopped streaming." st)
  | (Throw e, st) => (Throw e, st)
  end.

(** [mediaRecorderRef.current.ondataavailable] *)
Definition ondataavailable (data : Blob) (st : App) : App :=
  if 0 <? Z.of_nat (length data) then
    set_refs (socketRef st) (mediaStreamRef st) (mediaRecorderRef st)
      (audioChunksRef st ++ [data]) st
  else st.

(** [mediaRecorderRef.current.onstop]: [new Blob(chunks)] holds the
    bytes of the chunks in order. *)
Definition onstop (st : App) : App :=
  let blob := concat (audioChunksRef st) in
  setAudioBlob blob st.

(** ** The events of a session *)

Inductive event :=
  | ClickStart (m : media)
  | ClickStop
  | Open (ws : nat)
  | Message (ws : nat) (data : string)
  | Error (ws : nat)
  | Close (ws : nat)
  | AudioProcess (ws : nat) (inputData : Float32Array)
  | DataAvailable (recorder : nat) (data : Blob)
  | Stop (recorder : nat)
  | EditTranscript (text : string).

(** One task of the event loop.  The platform delivers [open] to a
    connecting socket only, messages to an open socket only, audio blocks
    from a connected processor of a running context only, and the [stop]
    of a recorder once it was queued; an event it would not deliver
    leaves the state as it is. *)
Definition handle (v : variant) (strict : bool) (ev : event) (st : App)
    : completion unit * App :=
  match ev with
  | ClickStart m => (Normal (), startRecording m st)
  | ClickStop => stopRecording strict st
  | Open i =>
      match sockets st !! i with
      | Some ws =>
          match readyState ws with
          | CONNECTING =>
              let st := set_sockets (<[i := set_readyState OPEN ws]> (sockets st)) st in
              (Normal (), onopen v st)
          | _ => (Normal (), st)
          end
      | None => (Normal (), st)
      end
  | Message i data =>
      match sockets st !! i with
      | Some ws =>
          match readyState ws with
          | OPEN => onmessage v data st
          | _ => (Normal (), st)
          end
      | None => (Normal (), st)
      end
  | Error i =>
      match sockets st !! i with
      | Some ws =>
          match readyState ws with
          | CLOSED => (Normal (), st)
          | _ =>
              let st := set_sockets (<[i := set_readyState CLOSED ws]> (sockets st)) st in
              (Normal (), onerror v st)
          end
      | None => (Normal (), st)
      end
  | Close i =>
      match sockets st !! i with
      | Some ws =>
          (Normal (), set_sockets (<[i := set_readyState CLOSED ws]> (sockets st)) st)
      | None => (Normal (), st)
      end
  | AudioProcess i inputData =>
      match sockets st !! i with
      | Some ws =>
          match processor ws, audioContext ws with
          | Some true, Some running => onaudioprocess v inputData st
          | _, _ => (Normal (), st)
          end
      | None => (Normal (), st)
      end
  | DataAvailable i data =>
      match recorders st !! i with
      | Some r =>
          match state r, stopping r with
          | inactive, false => (Normal (), st)
          | _, _ => (Normal (), ondataavailable data st)
          end
      | None => (Normal (), st)
      end
  | Stop i =>
      match recorders st !! i with
      | Some r =>
          if stopping r then
            let st :=
              set_recorders
                (<[i := {| state := state r; stopping := false |}]> (recorders st)) st in
            (Normal (), onstop st)
          else (Normal (), st)
      | None => (Normal (), st)
      end
  | EditTranscript text =>
      (Normal (), setTranscribedText (fun _ => VString text) st)
  end.

(** The state after a sequence of events: an exception thrown by a
    handler ends that handler and the event loop goes on. *)
Definition run (v : variant) (strict : bool) (evs : list event) (st : App) : App :=
  fold_left (fun st ev => snd (handle v strict ev st)) evs st.

End Streaming.

(** * The variant that records and then uploads *)

Module Upload.
Import Streaming.

(** [startRecording] of the first [App]: the recorder is the only
    object it keeps, and the flag [recording] goes up at once. *)
Definition startRecording (m : media) (st : App) : App :=
  match m with
  | Unsupported => alert "Your browser does not support audio recording." st
  | Rejected message => alert ("Could not start recording: " +:+ message) st
  | Granted =>
      let recorder := length (recorders st) in
      let st :=
        set_recorders
          (recorders st ++ [{| state := recording_; stopping := false |}]) st in
      let st :=
        set_refs (socketRef st) (mediaStreamRef st) (Some recorder) [] st in
      let st := setRecording true st in
      setStatus "Recording..." st
  end.

(** [stopRecording] of the first [App] of [frontend/src/App.js]; the
    call of [stop] is not guarded by the recorder's state. *)
Definition stopRecording (strict : bool) (st : App) : completion unit * App :=
  match mediaRecorderRef st, current (mediaRecorderRef st) (recorders st) with
  | Some i, Some r =>
      match MediaRecorder_stop_call strict r with
      | (Normal _, r') =>
          let st := set_recorders (<[i := r']> (recorders st)) st in
          let st := setRecording false st in
          (Normal (), setStatus "Processing audio..." st)
      | (Throw e, _) => (Throw e, st)
      end
  | _, _ => (Normal (), st)
  end.

End Upload.

(** * The waveform playback controller *)

Module Playback.

(** A WaveSurfer instance: whether [destroy] was called, the object URL
    last given to [load], whether it is playing, and the handlers
    subscribed to [finish], each named by the [onFinish] closure it
    calls. *)
Record WaveSurfer := {
  destroyed : bool;
  loaded : option nat;
  isPlaying : bool;
  finish : list nat;
}.

(** [App] as far as playback goes, with its child [Waveform]: the
    state [audioBlob] (a blob is named by the order of its creation) and
    [playing]; the [onFinish] closure of the last render (a render makes
    a new one, named by the number of the render); the refs of
    [Waveform]; what the last run of the first two effects left for
    cleanup; and the platform objects: the WaveSurfer instances and, per
    object URL, its blob and whether it is still valid. *)
Record Player := {
  audioBlob : option nat;
  playing : bool;
  onFinish : nat;
  waveformRef : bool;
  wavesurfer : option nat;
  cleanup_create : bool;
  cleanup_load : option nat;
  instances : list WaveSurfer;
  urls : list (nat * bool);
  blobs : nat;
}.

(** ** WaveSurfer *)

(** [WaveSurfer.create(...)] *)
Definition create : WaveSurfer :=
  {| destroyed := false; loaded := None; isPlaying := false; finish := [] |}.

(** [ws.on('finish', handler)] *)
Definition on_finish (handler : nat) (w : WaveSurfer) : WaveSurfer :=
  {| destroyed := destroyed w; loaded := loaded w; isPlaying := isPlaying w;
     finish := finish w ++ [handler] |}.

(** [ws.destroy()]: stops the audio and drops every handler. *)
Definition destroy (w : WaveSurfer) : WaveSurfer :=
  {| destroyed := true; loaded := loaded w; isPlaying := false; finish := [] |}.

(** [ws.load(url)]: the new audio is not playing. *)
Definition load (url : nat) (w : WaveSurfer) : WaveSurfer :=
  {| destroyed := destroyed w; loaded := Some url; isPlaying := false;
     finish := finish w |}.

(** [ws.play()]: plays what is loaded. *)
Definition play (w : WaveSurfer) : WaveSurfer :=
  {| destroyed := destroyed w; loaded := loaded w;
     isPlaying := if loaded w then negb (destroyed w) else false;
     finish := finish w |}.

(** [ws.pause()] *)
Definition pause (w : WaveSurfer) : WaveSurfer :=
  {| destroyed := destroyed w; loaded := loaded w; isPlaying := false;
     finish := finish w |}.

(** ** The effects of [Waveform] *)

Definition set_instances (l : list WaveSurfer) (st : Player) : Player :=
  {| audioBlob := audioBlob st; playing := playing st; onFinish := onFinish st;
     waveformRef := waveformRef st; wavesurfer := wavesurfer st;
     cleanup_create := cleanup_create st; cleanup_load := cleanup_load st;
     instances := l; urls := urls st; blobs := blobs st |}.

(** The cleanup of the first effect:
    [if (wavesurfer.current) wavesurfer.current.destroy()]. *)
Definition create_cleanup (st : Player) : Player :=
  match wavesurfer st with
  | Some i => set_instances (alter destroy i (instances st)) st
  | None => st
  end.

(** The first effect, with dependency [onFinish]: without a container
    it returns at once; else it creates an instance, subscribes the
    handler that calls [onFinish], and leaves its cleanup. *)
Definition create_effect (st : Player) : Player :=
  if waveformRef st then
    {| audioBlob := audioBlob st; playing := playing st; onFinish := onFinish st;
       waveformRef := waveformRef st;
       wavesurfer := Some (length (instances st));
       cleanup_create := true; cleanup_load := cleanup_load st;
       instances := instances st ++ [on_finish (onFinish st) create];
       urls := urls st; blobs := blobs st |}
  else
    {| audioBlob := audioBlob st; playing := playing st; onFinish := onFinish st;
       waveformRef := waveformRef st; wavesurfer := wavesurfer st;
       cleanup_create := false; cleanup_load := cleanup_load st;
       instances := instances st; urls := urls st; blobs := blobs st |}.

(** The cleanup of the second effect: [URL.revokeObjectURL(fileUrl)]. *)
Definition load_cleanup (fileUrl : nat) (st : Player) : Player :=
  {| audioBlob := audioBlob st; playing := playing st; onFinish := onFinish st;
     waveformRef := waveformRef st; wavesurfer := wavesurfer st;
     cleanup_create := cleanup_create st; cleanup_load := cleanup_load st;
     instances := instances st;
     urls := alter (fun u => (u.1, false)) fileUrl (urls st);
     blobs := blobs st |}.

(** The second effect, with dependency [audioBlob]: without an instance
    or a blob it returns at once; else it makes an object URL of the blob,
    loads it, and leaves its cleanup. *)
Definition load_effect (st : Player) : Player :=
  match wavesurfer st, audioBlob st with
  | Some i, Some blob =>
      let fileUrl := length (urls st) in
      {| audioBlob := audioBlob st; playing := playing st; onFinish := onFinish st;
         waveformRef := waveformRef st; wavesurfer := wavesurfer st;
         cleanup_create := cleanup_create st; cleanup_load := Some fileUrl;
         instances := alter (load fileUrl) i (instances st);
         urls := urls st ++ [(blob, true)]; blobs := blobs st |}
  | _, _ =>
      {| audioBlob := audioBlob st; playing := playing st; onFinish := onFinish st;
         waveformRef := waveformRef st; wavesurfer := wavesurfer st;
         cleanup_create := cleanup_create st; cleanup_load := None;
         instances := instances st; urls := urls st; blobs := blobs st |}
  end.

(** The third effect, with dependency [playing]. *)
Definition play_effect (st : Player) : Player :=
  match wavesurfer st with
  | Some i =>
      set_instances
        (alter (if playing st then play else pause) i (instances st)) st
  | None => st
  end.

(** A render of [App] with the state [blob] and [play]: [Waveform]
    gets a new [onFinish]; then, of the effects whose dependency
    changed, first the cleanups run, in order, then the effects, in
    order. *)
Definition render (blob : option nat) (play : bool) (st : Player) : Player :=
  let changed_blob := negb (bool_decide (blob = audioBlob st)) in
  let changed_playing := negb (Bool.eqb play (playing st)) in
  let st :=
    {| audioBlob := blob; playing := play; onFinish := S (onFinish st);
       waveformRef := waveformRef st; wavesurfer := wavesurfer st;
       cleanup_create := cleanup_create st; cleanup_load := cleanup_load st;
       instances := instances st; urls := urls st; blobs := blobs st |} in
  let st := if cleanup_create st then create_cleanup st else st in
  let st :=
    if changed_blob then
      match cleanup_load st with
      | Some fileUrl => load_cleanup fileUrl st
      | None => st
      end
    else st in
  let st := create_effect st in
  let st := if changed_blob then load_effect st else st in
  if changed_playing then play_effect st else st.

(** The first render: the container is attached and every effect
    runs. *)
Definition mounted : Player :=
  let st :=
    {| audioBlob := None; playing := false; onFinish := 0;
       waveformRef := true; wavesurfer := None;
       cleanup_create := false; cleanup_load := None;
       instances := []; urls := []; blobs := 0 |} in
  play_effect (load_effect (create_effect st)).

(** ** The operations on the controller *)

(** A new recording is handed over: [setAudioBlob(new Blob(...))]. *)
Definition load_blob (st : Player) : Player :=
  let blob := blobs st in
  let st :=
    {| audioBlob := audioBlob st; playing := playing st; onFinish := onFinish st;
       waveformRef := waveformRef st; wavesurfer := wavesurfer st;
       cleanup_create := cleanup_create st; cleanup_load := cleanup_load st;
       instances := instances st; urls := urls st; blobs := S blob |} in
  render (Some blob) (playing st) st.

(** [setPlaying(p)]: a state that does not change does not render. *)
Definition setPlaying (p : bool) (st : Player) : Player :=
  if Bool.eqb p (playing st) then st else render (audioBlob st) p st.

(** The button: [setPlaying(p => !p)], disabled without a blob. *)
Definition togglePlay (st : Player) : Player :=
  match audioBlob st with
  | Some _ => setPlaying (negb (playing st)) st
  | None => st
  end.

(** The handler an instance calls on [finish]:
    [() => { if (onFinish) onFinish(); }], [onFinish] being
    [() => setPlaying(false)] in every render. *)
Definition finish_handler (handler : nat) (st : Player) : Player :=
  setPlaying false st.

(** Playback of the instance [i] reaches the end: an instance that is
    playing stops and calls its [finish] handlers. *)
Definition finished (i : nat) (st : Player) : Player :=
  match instances st !! i with
  | Some w =>
      if isPlaying w then
        let st := set_instances (<[i := pause w]> (instances st)) st in
        fold_left (fun st handler => finish_handler handler st) (finish w) st
      else st
  | None => st
  end.

Inductive event :=
  | Load
  | TogglePlay
  | Finished (i : nat)
  | Rerender.

Definition handle (ev : event) (st : Player) : Player :=
  match ev with
  | Load => load_blob st
  | TogglePlay => togglePlay st
  | Finished i => finished i st
  | Rerender => render (audioBlob st) (playing st) st
  end.

Definition run (evs : list event) (st : Player) : Player :=
  fold_left (fun st ev => handle ev st) evs st.

(** The handlers the instance [i] would call if its playback reached
    the end now. *)
Definition finish_handlers (i : nat) (st : Player) : list nat :=
  match instances st !! i with
  | Some w => finish w
  | None => []
  end.

End Playback.

(** * Text *)

(** The string methods the front end calls.  A string is kept as the
    bytes of its UTF-8 encoding, a lone surrogate as the three bytes of
    its code unit. *)
Module Text.

(** The code points [trim] removes: WhiteSpace and LineTerminator of
    ECMA-262. *)
Definition white_space : list Z :=
  [9; 10; 11; 12; 13; 32; 160; 5760; 8192; 8193; 8194; 8195; 8196; 8197;
   8198; 8199; 8200; 8201; 8202; 8232; 8233; 8239; 8287; 12288; 65279].

(** [s] without the first of the prefixes [ws] it starts with. *)
Fixpoint strip_any (ws : list string) (s : string) : option string :=
  match ws with
  | [] => None
  | w :: ws =>
      match JSON.strip w s with
      | Some rest => Some rest
      | None => strip_any ws s
      end
  end.

(** [s] without its longest prefix made of elements of [ws]; the fuel
    bounds the number of elements. *)
Fixpoint strip_all (ws : list string) (fuel : nat) (s : string) : string :=
  match fuel with
  | O => s
  | S fuel =>
      match strip_any ws s with
      | Some rest => strip_all ws fuel rest
      | None => s
      end
  end.

(** [s.trimStart()], [s.trimEnd()] and [s.trim()] *)
Definition trimStart (s : string) : string :=
  strip_all (JSON.utf8 <$> white_space) (String.length s) s.

Definition trimEnd (s : string) : string :=
  String.rev
    (strip_all (String.rev <$> (JSON.utf8 <$> white_space)) (String.length s)
       (String.rev s)).

Definition trim (s : string) : string := trimEnd (trimStart s).

(** [v.trim()] for a value [v]: only a string has the method. *)
Definition trim_call (v : value) : completion string :=
  match v with
  | VString s => Normal (trim s)
  | _ => Throw "TypeError"
  end.

(** The number a byte stands for. *)
Definition code (c : ascii) : Z := Z.of_N (N_of_ascii c).

(** The UTF-16 code units of a string: one for a sequence of one, two
    or three bytes, a surrogate pair for a sequence of four. *)
Fixpoint units (s : string) : list Z :=
  match s with
  | EmptyString => []
  | String a rest =>
      if code a <? 128 then code a :: units rest
      else
        match rest with
        | EmptyString => []
        | String b rest1 =>
            if code a <? 224 then
              ((code a - 192) * 64 + (code b - 128)) :: units rest1
            else
              match rest1 with
              | EmptyString => []
              | String c rest2 =>
                  if code a <? 240 then
                    ((code a - 224) * 4096 + (code b - 128) * 64 + (code c - 128))
                    :: units rest2
                  else
                    match rest2 with
                    | EmptyString => []
                    | String d rest3 =>
                        let cp :=
                          (code a - 240) * 262144 + (code b - 128) * 4096
                          + (code c - 128) * 64 + (code d - 128) in
                        (55296 + (cp - 65536) / 1024)
                        :: (56320 + (cp - 65536) mod 1024) :: units rest3
                    end
              end
        end
  end.

(** The string of a sequence of code units: a high surrogate followed
    by a low one makes one code point. *)
Fixpoint of_units (l : list Z) : string :=
  match l with
  | [] => ""
  | u :: rest =>
      match rest with
      | lo :: rest' =>
          if (55296 <=? u) && (u <? 56320) && (56320 <=? lo) && (lo <? 57344) then
            JSON.utf8 (65536 + (u - 55296) * 1024 + (lo - 56320)) +:+ of_units rest'
          else JSON.utf8 u +:+ of_units rest
      | [] => JSON.utf8 u
      end
  end.

(** [s.split('')]: the code units of [s], each as a string. *)
Definition split_units (s : string) : list string :=
  (fun u => of_units [u]) <$> units s.

(** [l.join('')] *)
Definition join_units (l : list string) : string :=
  of_units (concat (units <$> l)).

(** [s.split('').reverse().join('')] *)
Definition reversed (s : string) : string := join_units (rev (split_units s)).

End Text.

(** * Transcription by upload, translation and speech *)

(** The three editions of [App]: the first of [frontend/src/App.js]
    records and then uploads the recording; the two others stream, one
    appending, one replacing. *)
Inductive edition := Recorded | Streamed (v : variant).

Module Page.

(** [x.toFixed(f)] of a Number (ECMA-262 21.1.3.3), [f] at most 100:
    not a number, or 10^21 and more, as [ToString]; else the integer [n]
    nearest to [x * 10^f], the larger of two, written with the decimal
    point before its last [f] digits. *)
Definition toFixed (f : nat) (x : number) : string :=
  match x with
  | S754_finite s m e =>
      let (num, den) :=
        if 0 <=? e then (Z.pos m * 2 ^ e, 1) else (Z.pos m, 2 ^ (- e)) in
      if 10 ^ 21 * den <=? num then Number.toString x
      else
        let n := (2 * num * 10 ^ Z.of_nat f + den) / (2 * den) in
        let digits := pretty (Z.to_N n) in
        let digits :=
          Number.zeros (S f - String.length digits) +:+ digits in
        let k := String.length digits in
        (if s then "-" else "") +:+ String.substring 0 (k - f) digits
        +:+ match f with
            | O => ""
            | _ => "." +:+ String.substring (k - f) f digits
            end
  | S754_zero _ =>
      "0" +:+ match f with O => "" | _ => "." +:+ Number.zeros f end
  | _ => Number.toString x
  end.

(** [v.toFixed(2)] for a value [v]: only a Number has the method. *)
Definition toFixed_call (v : value) : completion string :=
  match v with
  | VNumber x => Normal (toFixed 2 x)
  | _ => Throw "TypeError"
  end.

(** An entry of a [FormData]: a string, or a file with its name. *)
Inductive entry := Field (text : string) | File (blob : list Z) (filename : string).

(** A call of [fetch] with method POST: the URL and the form. *)
Record request := {
  url : string;
  form : list (string * entry);
}.

(** What a [fetch] comes to: the promise rejects with an error, or it
    resolves with a response, of which the code reads [ok],
    [statusText] and the body, here as text. *)
Inductive reply :=
  | Failed (message : string)
  | Response (ok : bool) (statusText : string) (body : string).

(** What the third edition defers with [setTimeout]: the end of the
    demo translation of a text, and the clearing of the status line. *)
Inductive timer := Translation (text : string) | ClearStatus.

(** The page: the state of the recording and of the channel; the other
    state of [App]; for each recorder, the [sourceLang] of the render
    whose [handleRecordingStop] it was given; the calls of [fetch] and
    the timers, each with whether it is pending; and the bodies for which
    an audio element was made and played. *)
Record Page := {
  app : Streaming.App;
  translatedText : value;
  sourceLang : string;
  targetLang : string;
  captured : list string;
  requests : list (request * bool);
  timers : list (timer * bool);
  audios : list string;
}.

Definition initial : Page := {|
  app := Streaming.initial;
  translatedText := VString "";
  sourceLang := "en";
  targetLang := "hi";
  captured := [];
  requests := [];
  timers := [];
  audios := [];
|}.

(** ** State updates *)

Definition set_app (a : Streaming.App) (p : Page) : Page :=
  {| app := a; translatedText := translatedText p; sourceLang := sourceLang p;
     targetLang := targetLang p; captured := captured p; requests := requests p;
     timers := timers p; audios := audios p |}.

Definition setStatus (s : string) (p : Page) : Page :=
  set_app (Streaming.setStatus s (app p)) p.

Definition setTranscribedText (v : value) (p : Page) : Page :=
  set_app (Streaming.setTranscribedText (fun _ => v) (app p)) p.

Definition alert (message : string) (p : Page) : Page :=
  set_app (Streaming.alert message (app p)) p.

Definition setTranslatedText (v : value) (p : Page) : Page :=
  {| app := app p; translatedText := v; sourceLang := sourceLang p;
     targetLang := targetLang p; captured := captured p; requests := requests p;
     timers := timers p; audios := audios p |}.

Definition setSourceLang (lang : string) (p : Page) : Page :=
  {| app := app p; translatedText := translatedText p; sourceLang := lang;
     targetLang := targetLang p; captured := captured p; requests := requests p;
     timers := timers p; audios := audios p |}.

Definition setTargetLang (lang : string) (p : Page) : Page :=
  {| app := app p; translatedText := translatedText p; sourceLang := sourceLang p;
     targetLang := lang; captured := captured p; requests := requests p;
     timers := timers p; audios := audios p |}.

Definition set_captured (l : list string) (p : Page) : Page :=
  {| app := app p; translatedText := translatedText p; sourceLang := sourceLang p;
     targetLang := targetLang p; captured := l; requests := requests p;
     timers := timers p; audios := audios p |}.

Definition set_requests (l : list (request * bool)) (p : Page) : Page :=
  {| app := app p; translatedText := translatedText p; sourceLang := sourceLang p;
     targetLang := targetLang p; captured := captured p; requests := l;
     timers := timers p; audios := audios p |}.

Definition set_timers (l : list (timer * bool)) (p : Page) : Page :=
  {| app := app p; translatedText := translatedText p; sourceLang := sourceLang p;
     targetLang := targetLang p; captured := captured p; requests := requests p;
     timers := l; audios := audios p |}.

(** [fetch(url, { method: 'POST', body: formData })] *)
Definition fetch (r : request) (p : Page) : Page :=
  set_requests (requests p ++ [(r, true)]) p.

(** [setTimeout(callback, delay)] *)
Definition setTimeout (t : timer) (p : Page) : Page :=
  set_timers (timers p ++ [(t, true)]) p.

(** [new Audio(URL.createObjectURL(audioBlob)).play()] *)
Definition play (body : string) (p : Page) : Page :=
  {| app := app p; translatedText := translatedText p; sourceLang := sourceLang p;
     targetLang := targetLang p; captured := captured p; requests := requests p;
     timers := timers p; audios := audios p ++ [body] |}.

(** ** The handlers *)

Section Engine.

(** The messages of the errors the engine throws are its own: that of
    the [SyntaxError] of a text that is not JSON, and that of the
    [TypeError] of a value of which a property cannot be read or called,
    or which its method [toString] cannot convert. *)
Variable SyntaxError_message : string -> string.
Variable TypeError_message : value -> string -> string.

(** [translateText]: a blank text is refused with an alert.  The first
    two editions post the text and the target language; the third defers
    its demo translation of the text by a second.  What the form cannot
    take is caught. *)
Definition translateText (e : edition) (p : Page) : completion unit * Page :=
  let text := Streaming.transcribedText (app p) in
  match Text.trim_call text with
  | Throw error => (Throw error, p)
  | Normal trimmed =>
      if String.eqb trimmed "" then
        (Normal (), alert "Please provide some text to translate." p)
      else
        (* formData.append('text', transcribedText) *)
        match ToString text with
        | Throw _ =>
            match e with
            | Recorded | Streamed Append =>
                (Normal (),
                 setStatus ("Error: " +:+ TypeError_message text "toString") p)
            | Streamed Replace => (Normal (), setStatus "Translation failed." p)
            end
        | Normal text =>
            let p := setStatus "Translating..." p in
            match e with
            | Recorded | Streamed Append =>
                (Normal (),
                 fetch {| url := "http://localhost:8000/translate";
                          form := [("text", Field text);
                                   ("target_lang", Field (targetLang p))] |} p)
            | Streamed Replace => (Normal (), setTimeout (Translation text) p)
            end
        end
  end.

(** What [translateText] does when its [fetch] is settled.  Only the
    first edition looks at [res.ok]. *)
Definition translated (e : edition) (r : reply) (p : Page) : Page :=
  match r with
  | Failed message => setStatus ("Error: " +:+ message) p
  | Response ok statusText body =>
      let refused :=
        match e with
        | Recorded => negb ok
        | Streamed _ => false
        end in
      if refused then
        setStatus ("Error: " +:+ ("Translation failed: " +:+ statusText)) p
      else
        match JSON.parse body with
        | None => setStatus ("Error: " +:+ SyntaxError_message body) p
        | Some data =>
            match GetV data "translated" with
            | Throw _ =>
                setStatus ("Error: " +:+ TypeError_message data "translated") p
            | Normal t =>
                setStatus "Translation complete." (setTranslatedText t p)
            end
        end
  end.

(** [playTTS]: without a translation the first two editions alert and
    the third returns.  The first two post the translation and the voice
    of the target language, and catch what the form cannot take; the
    third shows a status line and clears it after a second and a half. *)
Definition playTTS (e : edition) (p : Page) : completion unit * Page :=
  match Text.trim_call (translatedText p) with
  | Throw error => (Throw error, p)
  | Normal trimmed =>
      if String.eqb trimmed "" then
        match e with
        | Streamed Replace => (Normal (), p)
        | _ => (Normal (), alert "No translated text to play." p)
        end
      else
        match voice (targetLang p) with
        | Throw error => (Throw error, p)
        | Normal voice =>
            match e with
            | Recorded | Streamed Append =>
                (* formData.append('text', translatedText);
                   formData.append('voice', voice) *)
                match ToString (translatedText p) with
                | Throw _ =>
                    (Normal (),
                     setStatus ("Error: " +:+
                                TypeError_message (translatedText p) "toString") p)
                | Normal text =>
                    match ToString voice with
                    | Throw _ =>
                        (Normal (),
                         setStatus ("Error: " +:+
                                    TypeError_message voice "toString") p)
                    | Normal voice =>
                        let p := setStatus "Generating speech..." p in
                        (Normal (),
                         fetch {| url := "http://localhost:8000/tts";
                                  form := [("text", Field text);
                                           ("voice", Field voice)] |} p)
                    end
                end
            | Streamed Replace =>
                let p := setStatus "Playing translated audio..." p in
                (Normal (), setTimeout ClearStatus p)
            end
        end
  end.

(** What [playTTS] does when its [fetch] is settled: the body is played
    as audio.  Only the first edition looks at [res.ok]. *)
Definition spoken (e : edition) (r : reply) (p : Page) : Page :=
  match r with
  | Failed message => setStatus ("Error: " +:+ message) p
  | Response ok statusText body =>
      let refused :=
        match e with
        | Recorded => negb ok
        | Streamed _ => false
        end in
      if refused then setStatus ("Error: " +:+ ("TTS failed: " +:+ statusText)) p
      else setStatus "Playing audio..." (play body p)
  end.

(** [handleRecordingStop] of the first edition, the [onstop] of its
    recorders; [lang] is the [sourceLang] of the render that made the
    function. *)
Definition handleRecordingStop (lang : string) (p : Page) : Page :=
  let audioBlob := concat (Streaming.audioChunksRef (app p)) in
  let p := setStatus "Sending audio for transcription..." p in
  fetch {| url := "http://localhost:8000/transcribe";
           form := [("file", File audioBlob "recording.wav");
                    ("lang", Field lang)] |} p.

(** What [handleRecordingStop] does when its [fetch] is settled.  The
    template literal of the status line converts [data.detected_lang]
    before it calls [data.confidence.toFixed]; what either throws is
    caught, after the transcript was set. *)
Definition transcribed (r : reply) (p : Page) : Page :=
  match r with
  | Failed message => setStatus ("Error: " +:+ message) p
  | Response ok statusText body =>
      if negb ok then
        setStatus ("Error: " +:+ ("Transcription failed: " +:+ statusText)) p
      else
        match JSON.parse body with
        | None => setStatus ("Error: " +:+ SyntaxError_message body) p
        | Some data =>
            match GetV data "text" with
            | Throw _ => setStatus ("Error: " +:+ TypeError_message data "text") p
            | Normal text =>
                (* setTranscribedText(data.text || '') *)
                let p :=
                  setTranscribedText (if ToBoolean text then text else VString "") p in
                let detected_lang := Get data "detected_lang" in
                let confidence := Get data "confidence" in
                match ToString detected_lang with
                | Throw _ =>
                    setStatus
                      ("Error: " +:+ TypeError_message detected_lang "toString") p
                | Normal lang =>
                    match toFixed_call confidence with
                    | Throw _ =>
                        setStatus
                          ("Error: " +:+ TypeError_message confidence "toFixed") p
                    | Normal c =>
                        setStatus
                          ("Detected language: " +:+ lang
                           +:+ " (confidence: " +:+ c +:+ ")") p
                    end
                end
            end
        end
  end.

(** ** The events of the page *)

Inductive event :=
  | Session (ev : Streaming.event)
  | ChangeSource (lang : string)
  | ChangeTarget (lang : string)
  | ClickTranslate
  | ClickPlay
  | Settle (request : nat) (r : reply)
  | Fire (timer : nat).

(** The values of [languageOptions], the options of the two selects of
    the streaming editions. *)
Definition languageOptions : list string := ["en"; "hi"; "zh"].

(** An event of the recording in the first edition, which has no
    socket. *)
Definition record (strict : bool) (ev : Streaming.event) (p : Page)
    : completion unit * Page :=
  match ev with
  | Streaming.ClickStart m =>
      let p :=
        match m with
        | Streaming.Granted => set_captured (captured p ++ [sourceLang p]) p
        | _ => p
        end in
      (Normal (), set_app (Upload.startRecording m (app p)) p)
  | Streaming.ClickStop =>
      let (c, a) := Upload.stopRecording strict (app p) in (c, set_app a p)
  | Streaming.DataAvailable i data =>
      let (c, a) := Streaming.handle Append strict ev (app p) in (c, set_app a p)
  | Streaming.Stop i =>
      match Streaming.recorders (app p) !! i, captured p !! i with
      | Some r, Some lang =>
          if Streaming.stopping r then
            let a :=
              Streaming.set_recorders
                (<[i := {| Streaming.state := Streaming.state r;
                           Streaming.stopping := false |}]>
                   (Streaming.recorders (app p))) (app p) in
            (Normal (), handleRecordingStop lang (set_app a p))
          else (Normal (), p)
      | _, _ => (Normal (), p)
      end
  | Streaming.EditTranscript text =>
      let (c, a) := Streaming.handle Append strict ev (app p) in (c, set_app a p)
  | _ => (Normal (), p)
  end.

(** The request [k], once, if it is pending. *)
Definition settle (k : nat) (p : Page) : option (request * Page) :=
  match requests p !! k with
  | Some (r, true) => Some (r, set_requests (<[k := (r, false)]> (requests p)) p)
  | _ => None
  end.

(** One task of the event loop.  An input of the first edition accepts
    any text, a select one of its options; a settled request and a fired
    timer run what was waiting for them. *)
Definition handle (e : edition) (strict : bool) (ev : event) (p : Page)
    : completion unit * Page :=
  match ev with
  | Session ev =>
      match e with
      | Recorded => record strict ev p
      | Streamed v =>
          let (c, a) := Streaming.handle v strict ev (app p) in (c, set_app a p)
      end
  | ChangeSource lang =>
      match e with
      | Recorded => (Normal (), setSourceLang lang p)
      | Streamed _ =>
          if bool_decide (lang ∈ languageOptions) then (Normal (), setSourceLang lang p)
          else (Normal (), p)
      end
  | ChangeTarget lang =>
      match e with
      | Recorded => (Normal (), setTargetLang lang p)
      | Streamed _ =>
          if bool_decide (lang ∈ languageOptions) then (Normal (), setTargetLang lang p)
          else (Normal (), p)
      end
  | ClickTranslate => translateText e p
  | ClickPlay => playTTS e p
  | Settle k r =>
      match settle k p with
      | Some (q, p) =>
          if String.eqb (url q) "http://localhost:8000/transcribe" then
            (Normal (), transcribed r p)
          else if String.eqb (url q) "http://localhost:8000/translate" then
            (Normal (), translated e r p)
          else (Normal (), spoken e r p)
      | None => (Normal (), p)
      end
  | Fire k =>
      match timers p !! k with
      | Some (t, true) =>
          let p := set_timers (<[k := (t, false)]> (timers p)) p in
          match t with
          | Translation text =>
              (* text.split('').reverse().join('') *)
              let p := setTranslatedText (VString (Text.reversed text)) p in
              (Normal (), setStatus "Translation complete." p)
          | ClearStatus => (Normal (), setStatus "" p)
          end
      | _ => (Normal (), p)
      end
  end.

Definition run (e : edition) (strict : bool) (evs : list event) (p : Page) : Page :=
  fold_left (fun p ev => snd (handle e strict ev p)) evs p.

(** ** What [App] renders *)

(** Of the rendered tree: which of the two recording buttons there is,
    the status line, the two text areas, and whether the buttons Translate
    and Play are disabled. *)
Record View := {
  stop_button : bool;
  status_line : string;
  transcription : value;
  translate_disabled : bool;
  translation : value;
  play_disabled : bool;
}.

(** The render of [App].  In the two editions of
    [frontend/src/App.js], [!transcribedText.trim()] and
    [!translatedText.trim()] are evaluated on the way.  The third edition
    names [Waveform], which its file neither imports nor defines, in the
    element above the two buttons: its render throws there. *)
Definition view (e : edition) (p : Page) : completion View :=
  match e with
  | Streamed Replace => Throw "ReferenceError"
  | Recorded | Streamed Append =>
      match Text.trim_call (Streaming.transcribedText (app p)) with
      | Throw error => Throw error
      | Normal t1 =>
          match Text.trim_call (translatedText p) with
          | Throw error => Throw error
          | Normal t2 =>
              Normal {| stop_button := Streaming.recording (app p);
                        status_line := Streaming.status (app p);
                        transcription := Streaming.transcribedText (app p);
                        translate_disabled := String.eqb t1 "";
                        translation := translatedText p;
                        play_disabled := String.eqb t2 "" |}
          end
      end
  end.

End Engine.

End Page.

(** * The vocabulary of the properties *)

(** ** The PCM encoder *)

(** What one iteration of the loop of [convertFloat32ToInt16] stores for
    the element [x]. *)
Definition encode_sample (x : spec_float) : Z :=
  ToInt16 (mul (Math_min one (of_float32 x)) x7FFF).

(** A rational truncated toward zero. *)
Definition Qtruncate (q : Q) : Z := Z.quot (Qnum q) (Z.pos (Qden q)).

(** A rational rounded to the nearest integer, halves upward
    ([Math.round]). *)
Definition Qround (q : Q) : Z := Qfloor (q + (1 # 2)).

(** An integer reduced modulo 2^16 into [-2^15, 2^15). *)
Definition wrap16 (z : Z) : Z :=
  let u := z mod 2 ^ 16 in if 2 ^ 15 <=? u then u - 2 ^ 16 else u.

(** The sample as the design states it: [round(min(1, x) * 32767)]. *)
Definition rounded_sample (x : spec_float) : Z :=
  Qround (Qmin 1 (to_Q x) * 32767).

(** The sample in exact arithmetic: NaN and negative infinity give 0,
    positive infinity 32767, and a finite [x] gives [min(1, x) * 32767]
    truncated toward zero and reduced modulo 2^16. *)
Definition pcm_sample (x : spec_float) : Z :=
  match x with
  | S754_nan => 0
  | S754_infinity s => if s then 0 else 32767
  | _ => wrap16 (Qtruncate (Qmin 1 (to_Q x) * 32767))
  end.

Definition is_finite (x : spec_float) : bool :=
  match x with
  | S754_zero _ | S754_finite _ _ _ => true
  | _ => false
  end.

(** Two binary32 samples: 0.25 and -1.5. *)
Definition quarter : spec_float := S754_finite false 8388608 (-25).
Definition minus_three_halves : spec_float := S754_finite true 12582912 (-23).

(** ** The aggregator *)

(** The state after the handler of messages ran on each payload in
    turn. *)
Definition aggregate (v : variant) (payloads : list string) (st : Streaming.App)
    : Streaming.App :=
  fold_left (fun st data => snd (Streaming.onmessage v data st)) payloads st.

(** A JSON text written with apostrophes in place of its double
    quotes. *)
Fixpoint json (s : string) : string :=
  match s with
  | EmptyString => EmptyString
  | String c rest => String (if Ascii.eqb c "'" then "034" else c) (json rest)
  end.

(** The payload [data] is a JSON text whose member [field] is the string
    [text]. *)
Definition carries (field : string) (data : string) (text : string) : Prop :=
  exists d, JSON.parse data = Some d /\ GetV d field = Normal (VString text).

(** The strings of a list that are not empty. *)
Definition nonempty (texts : list string) : list string :=
  filter (fun t => t <> "") texts.

(** The values that are no objects: what is absent, [null], booleans,
    numbers and strings. *)
Definition primitive (v : value) : bool :=
  match v with
  | VArray _ | VObject _ | VFunction _ => false
  | _ => true
  end.

(** The status line that shows a language and a confidence: the
    template literal, which converts the language first. *)
Definition detected (lang confidence : value) : completion string :=
  match ToString lang, ToString confidence with
  | Normal l, Normal c =>
      Normal ("Detected language: " +:+ l +:+ " (confidence: " +:+ c +:+ ")")
  | Throw error, _ | Normal _, Throw error => Throw error
  end.

(** ** The channel *)

(** The socket after [frame] was transmitted on it. *)
Definition transmitted (frame : ArrayBuffer) (ws : Streaming.WebSocket)
    : Streaming.WebSocket :=
  {| Streaming.readyState := Streaming.readyState ws;
     Streaming.sent := Streaming.sent ws ++ [frame];
     Streaming.audioContext := Streaming.audioContext ws;
     Streaming.processor := Streaming.processor ws |}.

(** Two states that differ at most in their sockets and in the history
    of encoded frames. *)
Definition same_but_sockets (st st' : Streaming.App) : Prop :=
  Streaming.recording st' = Streaming.recording st /\
  Streaming.transcribedText st' = Streaming.transcribedText st /\
  Streaming.status st' = Streaming.status st /\
  Streaming.audioBlob st' = Streaming.audioBlob st /\
  Streaming.socketRef st' = Streaming.socketRef st /\
  Streaming.mediaStreamRef st' = Streaming.mediaStreamRef st /\
  Streaming.mediaRecorderRef st' = Streaming.mediaRecorderRef st /\
  Streaming.audioChunksRef st' = Streaming.audioChunksRef st /\
  Streaming.streams st' = Streaming.streams st /\
  Streaming.recorders st' = Streaming.recorders st /\
  Streaming.alerts st' = Streaming.alerts st.

(** ** The session *)

(** What [stopRecording] does to the socket of the session: it closes
    the socket, disconnects its processor and closes its audio context. *)
Definition release (ws : Streaming.WebSocket) : Streaming.WebSocket :=
  let ws := Streaming.WebSocket_close ws in
  let ws := if Streaming.processor ws then Streaming.processor_disconnect ws else ws in
  if Streaming.audioContext ws then Streaming.audioContext_close ws else ws.

(** The state [stopRecording] leaves. *)
Definition stopped (st : Streaming.App) : Streaming.App :=
  {| Streaming.recording := false;
     Streaming.transcribedText := Streaming.transcribedText st;
     Streaming.status := "Stopped streaming.";
     Streaming.audioBlob := Streaming.audioBlob st;
     Streaming.socketRef := Streaming.socketRef st;
     Streaming.mediaStreamRef := Streaming.mediaStreamRef st;
     Streaming.mediaRecorderRef := Streaming.mediaRecorderRef st;
     Streaming.audioChunksRef := Streaming.audioChunksRef st;
     Streaming.sockets :=
       Streaming.update (Streaming.socketRef st) release (Streaming.sockets st);
     Streaming.streams :=
       Streaming.update (Streaming.mediaStreamRef st) (fun _ => false)
         (Streaming.streams st);
     Streaming.recorders :=
       Streaming.update (Streaming.mediaRecorderRef st) Streaming.MediaRecorder_stop
         (Streaming.recorders st);
     Streaming.alerts := Streaming.alerts st;
     Streaming.encoded := Streaming.encoded st |}.

(** A session that was never started: no ref holds an object and the
    recording flag is down. *)
Definition never_started (st : Streaming.App) : Prop :=
  Streaming.socketRef st = None /\ Streaming.mediaStreamRef st = None /\
  Streaming.mediaRecorderRef st = None /\ Streaming.recording st = false.

(** A socket that is still connecting has sent nothing. *)
Definition quiet (ws : Streaming.WebSocket) : Prop :=
  Streaming.readyState ws = Streaming.CONNECTING -> Streaming.sent ws = [].

(** ** The controller *)

(** An instance that was destroyed: it has no handler left and does not
    play. *)
Definition stale (w : Playback.WaveSurfer) : Prop :=
  Playback.destroyed w = true /\ Playback.finish w = [] /\
  Playback.isPlaying w = false.

(** The shape of the controller between events: the container is
    attached, and of the instances created so far all but the last were
    destroyed; the last is the one the ref holds, and its cleanup is
    pending. *)
Definition one_live (st : Playback.Player) : Prop :=
  Playback.waveformRef st = true /\ Playback.cleanup_create st = true /\
  exists old cur,
    Playback.instances st = old ++ [cur] /\
    Playback.wavesurfer st = Some (length old) /\
    Forall stale old /\ Playback.destroyed cur = false.

(** No instance plays. *)
Definition at_rest (st : Playback.Player) : Prop :=
  forall i w, Playback.instances st !! i = Some w -> Playback.isPlaying w = false.


(** The blocks the processors delivered in a sequence of events, and the
    chunks the recorders delivered. *)
Definition blocks (evs : list Streaming.event) : list (list spec_float) :=
  omap (fun ev => match ev with
                  | Streaming.AudioProcess _ inputData => Some inputData
                  | _ => None
                  end) evs.

Definition chunks (evs : list Streaming.event) : list (list Z) :=
  omap (fun ev => match ev with
                  | Streaming.DataAvailable _ data => Some data
                  | _ => None
                  end) evs.

Definition is_start (ev : Streaming.event) : bool :=
  match ev with Streaming.ClickStart _ => true | _ => false end.

Definition is_open (ev : Streaming.event) : bool :=
  match ev with Streaming.Open _ => true | _ => false end.

(** An event that can occur while the recorder [r] records and nobody
    clicks: no click, no [stop] event, and data from [r] only. *)
Definition during (r : nat) (ev : Streaming.event) : bool :=
  match ev with
  | Streaming.ClickStart _ | Streaming.ClickStop | Streaming.Stop _ => false
  | Streaming.DataAvailable i _ => Nat.eqb i r
  | _ => true
  end.

(** The button [App] renders: Start while [recording] is false, Stop
    while it is true; so a click on one of them can only occur in a
    state that shows it. *)
Definition enabled (ev : Streaming.event) (st : Streaming.App) : bool :=
  match ev with
  | Streaming.ClickStart _ => negb (Streaming.recording st)
  | Streaming.ClickStop => Streaming.recording st
  | _ => true
  end.

(** A sequence of events each of which can occur in the state it meets. *)
Fixpoint feasible (v : variant) (strict : bool) (evs : list Streaming.event)
    (st : Streaming.App) : Prop :=
  match evs with
  | [] => True
  | ev :: evs =>
      enabled ev st = true /\
      feasible v strict evs (snd (Streaming.handle v strict ev st))
  end.

(** What of a socket keeps the capture going: its audio context and the
    connection of its processor. *)
Definition graph (ws : Streaming.WebSocket)
    : option Streaming.AudioContextState * option bool :=
  (Streaming.audioContext ws, Streaming.processor ws).

(** The socket in the ref, if there is one, is closing or closed. *)
Definition closing (st : Streaming.App) : Prop :=
  forall i ws,
    Streaming.socketRef st = Some i -> Streaming.sockets st !! i = Some ws ->
    Streaming.readyState ws = Streaming.CLOSING \/
    Streaming.readyState ws = Streaming.CLOSED.

(** A value that is neither [undefined] nor a function, as every value
    that [JSON.parse] returns. *)
Definition defined (v : value) : Prop :=
  v <> VUndefined /\ forall name, v <> VFunction name.

(** The instance the ref [wavesurfer] holds. *)
Definition held (st : Playback.Player) : option Playback.WaveSurfer :=
  match Playback.wavesurfer st with
  | Some i => Playback.instances st !! i
  | None => None
  end.

(** The object URLs made so far: none while there is no blob; else all
    are revoked but the last, which is valid, was made of the blob of the
    state, and is the one the cleanup of the second effect will revoke.
    A blob made later has a larger name. *)
Definition urls_revoked (st : Playback.Player) : Prop :=
  match Playback.audioBlob st with
  | None => Playback.urls st = [] /\ Playback.cleanup_load st = None
  | Some b =>
      (b < Playback.blobs st)%nat /\
      exists revoked,
        Playback.urls st = revoked ++ [(b, true)] /\
        Forall (fun u => u.2 = false) revoked /\
        Playback.cleanup_load st = Some (length revoked)
  end.

(** The instance the ref holds calls one [finish] handler, that of the
    last render. *)
Definition subscribed (st : Playback.Player) : Prop :=
  exists cur, held st = Some cur /\ Playback.finish cur = [Playback.onFinish st].

(** ** The page *)

Definition is_string (v : value) : bool :=
  match v with VString _ => true | _ => false end.

(** The text a request carries under the name [text]. *)
Definition text_of (q : Page.request) : option string :=
  match Page.form q with
  | ("text", Page.Field s) :: _ => Some s
  | _ => None
  end.

(** The voice a request carries under the name [voice]. *)
Definition voice_of (q : Page.request) : option string :=
  match Page.form q with
  | [_; ("voice", Page.Field s)] => Some s
  | _ => None
  end.

(** A request for a transcription, or one that carries a text that is
    not blank. *)
Definition has_text (q : Page.request) : Prop :=
  Page.url q = "http://localhost:8000/transcribe" \/
  exists s, text_of q = Some s /\ Text.trim s <> "".

(** What can happen on the page of the first edition while the recorder
    [r] records: the languages are changed, the transcript is edited, the
    other buttons are clicked, and chunks of [r] arrive. *)
Definition while_recording (r : nat) (ev : Page.event) : bool :=
  match ev with
  | Page.Session (Streaming.DataAvailable i _) => Nat.eqb i r
  | Page.Session (Streaming.EditTranscript _) => true
  | Page.Session _ => false
  | Page.Settle _ _ | Page.Fire _ => false
  | _ => true
  end.

(** The chunks that arrive in a sequence of events of the page. *)
Definition page_chunks (evs : list Page.event) : list (list Z) :=
  omap (fun ev => match ev with
                  | Page.Session (Streaming.DataAvailable _ data) => Some data
                  | _ => None
                  end) evs.

(** * Exact arithmetic of the encoder *)

(** The operations of the encoder involve no rounding on a binary32
    sample: widening is exact, and the product of a 24-bit significand by
    32767 fits the 53 bits of a binary64 significand. *)

Lemma digits2_pos_size p : digits2_pos p = Pos.size p.
Proof. induction p; simpl; congruence. Qed.

Lemma Zdigits2_log2 p : Zdigits2 (Z.pos p) = Z.log2 (Z.pos p) + 1.
Proof.
  destruct p; simpl; rewrite ?digits2_pos_size; lia.
Qed.

Lemma Zdigits2_unique p d :
  2 ^ (d - 1) <= Z.pos p < 2 ^ d -> Zdigits2 (Z.pos p) = d.
Proof.
  intros H. rewrite Zdigits2_log2.
  assert (0 <= d - 1).
  { destruct (Z.le_gt_cases 0 (d - 1)) as [|Hn]; [done|].
    destruct (Z.le_gt_cases 0 d) as [Hd|Hd].
    - assert (d = 0) by lia. subst. simpl in H. lia.
    - rewrite (Z.pow_neg_r 2 d) in H by lia. lia. }
  rewrite (Z.log2_unique (Z.pos p) (d - 1)); [lia|lia|].
  replace (d - 1 + 1) with d by lia. replace (Z.succ (d - 1)) with d by lia. done.
Qed.

Lemma Zdigits2_bounds p :
  2 ^ (Zdigits2 (Z.pos p) - 1) <= Z.pos p < 2 ^ Zdigits2 (Z.pos p).
Proof.
  rewrite Zdigits2_log2. replace (Z.log2 (Z.pos p) + 1 - 1) with (Z.log2 (Z.pos p)) by lia.
  pose proof (Z.log2_spec (Z.pos p)) as H.
  replace (Z.succ (Z.log2 (Z.pos p))) with (Z.log2 (Z.pos p) + 1) in H by lia.
  apply H. lia.
Qed.

Lemma iter_pos_nat {A} (f : A -> A) p x :
  SpecFloat.iter_pos f p x = Nat.iter (Pos.to_nat p) f x.
Proof.
  revert x. induction p as [p IH|p IH|]; intros x; cbn [SpecFloat.iter_pos].
  - rewrite !IH, Pos2Nat.inj_xI, Nat.iter_succ_r.
    replace (2 * Pos.to_nat p)%nat with (Pos.to_nat p + Pos.to_nat p)%nat by lia.
    by rewrite Nat.iter_add.
  - rewrite !IH, Pos2Nat.inj_xO.
    replace (2 * Pos.to_nat p)%nat with (Pos.to_nat p + Pos.to_nat p)%nat by lia.
    by rewrite Nat.iter_add.
  - done.
Qed.

Lemma shr_1_even a :
  0 <= a ->
  shr_1 {| shr_m := 2 * a; shr_r := false; shr_s := false |} =
  {| shr_m := a; shr_r := false; shr_s := false |}.
Proof. intros H. by destruct a as [|p|p]. Qed.

Lemma shr_exact_nat (n : nat) a :
  0 <= a ->
  Nat.iter n shr_1 {| shr_m := a * 2 ^ Z.of_nat n; shr_r := false; shr_s := false |} =
  {| shr_m := a; shr_r := false; shr_s := false |}.
Proof.
  intros Ha. revert a Ha. induction n as [|n IH]; intros a Ha.
  - simpl. f_equal. lia.
  - rewrite Nat.iter_succ_r.
    replace (a * 2 ^ Z.of_nat (S n)) with (2 * (a * 2 ^ Z.of_nat n)).
    2:{ rewrite Nat2Z.inj_succ, Z.pow_succ_r by lia. lia. }
    rewrite shr_1_even by (apply Z.mul_nonneg_nonneg; lia).
    by apply IH.
Qed.

Lemma shr_exact a e n :
  0 <= a -> 0 <= n ->
  shr {| shr_m := a * 2 ^ n; shr_r := false; shr_s := false |} e n =
  ({| shr_m := a; shr_r := false; shr_s := false |}, e + n).
Proof.
  intros Ha Hn. unfold shr. destruct n as [|p|p]; [| |lia].
  - simpl. rewrite Z.mul_1_r, Z.add_0_r. done.
  - rewrite iter_pos_nat. f_equal.
    rewrite <- (positive_nat_Z p) at 1. by apply shr_exact_nat.
Qed.

Lemma fexp64 z : fexp prec emax z = Z.max (z - 53) (-1074).
Proof. reflexivity. Qed.

Lemma binary_round_aux_exact s mx q ex n :
  mx = Z.pos q * 2 ^ n ->
  2 ^ 52 <= Z.pos q < 2 ^ 53 -> 0 <= n -> -1074 <= ex + n <= 971 ->
  binary_round_aux prec emax s mx ex loc_Exact = S754_finite s q (ex + n).
Proof.
  intros -> Hq Hn He.
  assert (Hd : Zdigits2 (Z.pos q * 2 ^ n) = 53 + n).
  { pose proof (Z.pow_pos_nonneg 2 n ltac:(lia) Hn) as Hp.
    destruct (Z.pos q * 2 ^ n) as [|p|p] eqn:E; [nia| |nia].
    apply Zdigits2_unique. rewrite <- E.
    replace (53 + n - 1) with (52 + n) by lia.
    rewrite !Z.pow_add_r by lia. nia. }
  unfold binary_round_aux, shr_fexp. rewrite Hd, fexp64.
  replace (Z.max (53 + n + ex - 53) (-1074) - ex) with n by lia.
  cbn [shr_record_of_loc]. rewrite shr_exact by lia.
  cbn [shr_m loc_of_shr_record round_nearest_even].
  rewrite (Zdigits2_unique q 53), fexp64 by (simpl; lia).
  replace (Z.max (53 + (ex + n) - 53) (-1074) - (ex + n)) with 0 by lia.
  cbn [shr shr_m].
  destruct (Z.leb_spec (ex + n) (emax - prec)) as [|H]; [done|].
  unfold emax, prec in H. lia.
Qed.

Lemma Pos_iter_xO m k : Z.pos (Pos.iter xO m k) = Z.pos m * 2 ^ Z.pos k.
Proof.
  rewrite <- Z.shiftl_mul_pow2 by lia. unfold Z.shiftl.
  induction k as [|k IH] using Pos.peano_ind.
  - done.
  - rewrite !Pos.iter_succ, <- IH. done.
Qed.

Lemma bounded32 m e :
  bounded 24 128 m e = true ->
  let d := Z.pos (digits2_pos m) in
  0 < d <= 24 /\ -149 <= e <= 104 /\ 2 ^ (d - 1) <= Z.pos m < 2 ^ d.
Proof.
  intros Hb d. unfold bounded, canonical_mantissa in Hb.
  apply andb_prop in Hb as [Hc He].
  apply Z.eqb_eq in Hc. apply Z.leb_le in He.
  unfold SpecFloat.fexp, SpecFloat.emin in Hc. fold d in Hc.
  pose proof (Zdigits2_bounds m) as Hm. cbn [Zdigits2] in Hm. fold d in Hm.
  assert (0 < d) by (unfold d; lia). lia.
Qed.

Lemma of_float32_finite s m e :
  bounded 24 128 m e = true ->
  let k := 53 - Z.pos (digits2_pos m) in
  exists q, Z.pos q = Z.pos m * 2 ^ k /\
    of_float32 (S754_finite s m e) = S754_finite s q (e - k).
Proof.
  intros Hb k. destruct (bounded32 m e Hb) as (Hd & He & Hm).
  set (d := Z.pos (digits2_pos m)) in *.
  unfold of_float32, binary_round. fold d. rewrite fexp64.
  replace (Z.max (d + e - 53) (-1074)) with (e - k) by lia.
  unfold shl_align. replace (e - k - e) with (- k) by lia.
  destruct k as [|pk|pk] eqn:Ek; [lia| |lia].
  change (- Z.pos pk) with (Z.neg pk). cbv iota beta.
  exists (Pos.iter xO m pk). split; [apply Pos_iter_xO|].
  rewrite (binary_round_aux_exact s _ (Pos.iter xO m pk) _ 0).
  - f_equal. lia.
  - lia.
  - rewrite Pos_iter_xO, <- Ek.
    replace 52 with (d - 1 + k) by lia. replace 53 with (d + k) by lia.
    rewrite !Z.pow_add_r by lia.
    pose proof (Z.pow_pos_nonneg 2 k). nia.
  - lia.
  - lia.
Qed.

Lemma one_eq : one = S754_finite false 4503599627370496 (-52).
Proof. reflexivity. Qed.

Lemma x7FFF_eq : x7FFF = S754_finite false 9006924376834048 (-38).
Proof. reflexivity. Qed.

Lemma Math_min_one_finite s q E :
  2 ^ 52 <= Z.pos q < 2 ^ 53 ->
  Math_min one (S754_finite s q E) =
  if negb s && (-52 <=? E) then one else S754_finite s q E.
Proof.
  intros Hq. rewrite one_eq. unfold Math_min, SFcompare.
  destruct s; [reflexivity|]. cbn [negb andb].
  destruct (Z.leb_spec (-52) E) as [H|H].
  - destruct (Z.compare_spec (-52) E) as [<-|?|?]; [|reflexivity|lia].
    change (Pos.compare_cont Eq ?a ?b) with (Z.compare (Z.pos a) (Z.pos b)).
    destruct (Z.compare_spec (Z.pos 4503599627370496) (Z.pos q)) as [?|?|?];
      [reflexivity|reflexivity|].
    change (Z.pos 4503599627370496) with (2 ^ 52) in *. lia.
  - destruct (Z.compare_spec (-52) E) as [?|?|?]; [lia|lia|reflexivity].
Qed.

Lemma mul_x7FFF_finite s q E a :
  Z.pos q = a * 2 ^ 15 -> 2 ^ 52 <= Z.pos q < 2 ^ 53 -> -1000 <= E <= 900 ->
  exists q' E', mul (S754_finite s q E) x7FFF = S754_finite s q' E' /\
    Z.shiftl (Z.pos q') E' = Z.shiftl (Z.pos q * 32767) E.
Proof.
  intros Ha Hq HE. rewrite x7FFF_eq. unfold mul, SFmul.
  rewrite xorb_false_r, Pos2Z.inj_mul.
  change (Z.pos 9006924376834048) with (32767 * 2 ^ 38).
  assert (exists q' n, (n = 52 \/ n = 53) /\
            Z.pos q * (32767 * 2 ^ 38) = Z.pos q' * 2 ^ n /\
            2 ^ 52 <= Z.pos q' < 2 ^ 53) as (q' & n & Hn & HP & Hq').
  { destruct (Z.lt_ge_cases (Z.pos q * (32767 * 2 ^ 38)) (2 ^ 105)) as [Hlt|Hge].
    - exists (Z.to_pos (a * 32767 * 2)), 52. split; [by left|].
      rewrite Z2Pos.id by lia. rewrite Ha in *. timeout 20 lia.
    - exists (Z.to_pos (a * 32767)), 53. split; [by right|].
      rewrite Z2Pos.id by lia. rewrite Ha in *. timeout 20 lia. }
  exists q', (E + -38 + n). split.
  - apply binary_round_aux_exact; [done|done|lia|lia].
  - replace (E + -38 + n) with ((n - 38) + E) by lia.
    rewrite <- Z.shiftl_shiftl by lia. f_equal.
    rewrite Z.shiftl_mul_pow2 by lia.
    destruct Hn as [-> | ->]; timeout 20 lia.
Qed.

Lemma ToInt16_finite s q E :
  ToInt16 (S754_finite s q E) = wrap16 (cond_Zopp s (Z.shiftl (Z.pos q) E)).
Proof. reflexivity. Qed.

Lemma encode_sample_finite s m e :
  bounded 24 128 m e = true ->
  encode_sample (S754_finite s m e) =
  if negb s && (1 <=? Z.pos (digits2_pos m) + e) then 32767
  else wrap16 (cond_Zopp s (Z.shiftl (Z.pos m * 32767) e)).
Proof.
  intros Hb. destruct (bounded32 m e Hb) as (Hd & He & Hm).
  destruct (of_float32_finite s m e Hb) as (q & Hq & Hw).
  set (d := Z.pos (digits2_pos m)) in *. set (k := 53 - d) in *.
  assert (Hk : 29 <= k <= 52) by lia.
  assert (Hq' : 2 ^ 52 <= Z.pos q < 2 ^ 53).
  { rewrite Hq. replace 52 with (d - 1 + k) by lia. replace 53 with (d + k) by lia.
    rewrite !Z.pow_add_r by lia. pose proof (Z.pow_pos_nonneg 2 k). nia. }
  unfold encode_sample. rewrite Hw, Math_min_one_finite by done.
  replace (-52 <=? e - k) with (1 <=? d + e).
  2:{ destruct (Z.leb_spec 1 (d + e)), (Z.leb_spec (-52) (e - k)); lia. }
  destruct (negb s && (1 <=? d + e)); [reflexivity|].
  destruct (mul_x7FFF_finite s q (e - k) (Z.pos m * 2 ^ (k - 15)))
    as (q' & E' & -> & Hs); [|done|lia|].
  { rewrite Hq, <- Z.mul_assoc, <- Z.pow_add_r by lia. do 2 f_equal. lia. }
  rewrite ToInt16_finite, Hs. do 2 f_equal.
  replace (Z.pos q * 32767) with (Z.shiftl (Z.pos m * 32767) k).
  2:{ rewrite Z.shiftl_mul_pow2, Hq by lia. lia. }
  rewrite Z.shiftl_shiftl by lia. f_equal. lia.
Qed.

Lemma quot_cond_Zopp s a b :
  0 <= a -> 0 < b -> Z.quot (cond_Zopp s a) b = cond_Zopp s (a / b).
Proof.
  intros Ha Hb. destruct s; cbn [cond_Zopp].
  - rewrite Z.quot_opp_l, Z.quot_div_nonneg by lia. done.
  - by rewrite Z.quot_div_nonneg by lia.
Qed.

Lemma Qmin_1 v :
  Qmin 1 v = if Z.pos (Qden v) <=? Qnum v then 1%Q else v.
Proof.
  unfold Qmin, GenericMinMax.gmin, Qcompare. cbn [Qnum Qden].
  rewrite Z.mul_1_r, Z.mul_1_l.
  destruct (Z.compare_spec (Z.pos (Qden v)) (Qnum v)),
    (Z.leb_spec (Z.pos (Qden v)) (Qnum v)); (reflexivity || lia).
Qed.

Lemma clamp_iff s m e :
  bounded 24 128 m e = true ->
  (Z.pos (Qden (to_Q (S754_finite s m e))) <=? Qnum (to_Q (S754_finite s m e))) =
  negb s && (1 <=? Z.pos (digits2_pos m) + e).
Proof.
  intros Hb. destruct (bounded32 m e Hb) as (Hd & He & Hm).
  set (d := Z.pos (digits2_pos m)) in *. unfold to_Q.
  destruct e as [|pe|pe]; cbn [inject_Z Qnum Qden].
  - rewrite Z.pow_0_r, Z.mul_1_r, Z.add_0_r.
    destruct s; cbn [cond_Zopp negb andb];
      destruct (Z.leb_spec 1 d); try lia; apply Z.leb_le || apply Z.leb_gt; lia.
  - pose proof (Z.pow_pos_nonneg 2 (Z.pos pe)).
    destruct s; cbn [cond_Zopp negb andb];
      destruct (Z.leb_spec 1 (d + Z.pos pe)); try lia;
      apply Z.leb_le || apply Z.leb_gt; nia.
  - rewrite Pos2Z.inj_pow.
    assert (Z.pos pe <= d - 1 -> 2 ^ Z.pos pe <= 2 ^ (d - 1))
      by (intros; apply Z.pow_le_mono_r; lia).
    assert (d <= Z.pos pe -> 2 ^ d <= 2 ^ Z.pos pe)
      by (intros; apply Z.pow_le_mono_r; lia).
    pose proof (Z.pow_pos_nonneg 2 (Z.pos pe)).
    destruct s; cbn [cond_Zopp negb andb].
    + apply Z.leb_gt. lia.
    + destruct (Z.leb_spec 1 (d + Z.neg pe));
        apply Z.leb_le || apply Z.leb_gt; lia.
Qed.

Lemma Qtruncate_finite s m e :
  bounded 24 128 m e = true ->
  Qtruncate (Qmin 1 (to_Q (S754_finite s m e)) * 32767) =
  if negb s && (1 <=? Z.pos (digits2_pos m) + e) then 32767
  else cond_Zopp s (Z.shiftl (Z.pos m * 32767) e).
Proof.
  intros Hb. rewrite Qmin_1, clamp_iff by done.
  destruct (negb s && _); [reflexivity|].
  unfold Qtruncate, Qmult, to_Q.
  destruct e as [|pe|pe]; cbn [inject_Z Qnum Qden].
  - rewrite Z.quot_1_r, Z.shiftl_0_r, Z.pow_0_r. destruct s; cbn [cond_Zopp]; lia.
  - rewrite Z.quot_1_r, Z.shiftl_mul_pow2 by lia. destruct s; cbn [cond_Zopp]; lia.
  - rewrite Pos.mul_1_r, Pos2Z.inj_pow.
    change (Z.shiftl ?a (Z.neg pe)) with (Z.shiftr a (Z.pos pe)).
    rewrite Z.shiftr_div_pow2 by lia.
    rewrite <- quot_cond_Zopp by (pose proof (Z.pow_pos_nonneg 2 (Z.pos pe)); lia).
    f_equal. destruct s; cbn [cond_Zopp]; lia.
Qed.

Lemma encode_sample_exact x :
  valid_binary 24 128 x = true -> encode_sample x = pcm_sample x.
Proof.
  destruct x as [s|s| |s m e]; intros Hv.
  - by destruct s.
  - by destruct s.
  - done.
  - cbn [valid_binary] in Hv. unfold pcm_sample.
    rewrite encode_sample_finite, Qtruncate_finite by done.
    destruct (negb s && _); reflexivity.
Qed.

(** ** Sixteen-bit integers and their bytes *)

Lemma wrap16_range z : - 2 ^ 15 <= wrap16 z < 2 ^ 15.
Proof.
  unfold wrap16. pose proof (Z.mod_pos_bound z (2 ^ 16) ltac:(lia)).
  destruct (Z.leb_spec (2 ^ 15) (z mod 2 ^ 16)); lia.
Qed.

Lemma wrap16_small z : - 2 ^ 15 <= z < 2 ^ 15 -> wrap16 z = z.
Proof.
  intros Hz. unfold wrap16.
  destruct (Z.le_gt_cases 0 z) as [Hp|Hn].
  - rewrite Z.mod_small by lia. destruct (Z.leb_spec (2 ^ 15) z); lia.
  - replace (z mod 2 ^ 16) with (z + 2 ^ 16).
    + destruct (Z.leb_spec (2 ^ 15) (z + 2 ^ 16)); lia.
    + rewrite <- (Z_mod_plus_full z 1 (2 ^ 16)). rewrite Z.mod_small; lia.
Qed.

Lemma ToInt16_range x : - 2 ^ 15 <= ToInt16 x < 2 ^ 15.
Proof.
  destruct x as [s|s| |s m e]; cbn [ToInt16]; try (cbn; lia).
  apply (wrap16_range (truncate (S754_finite s m e))).
Qed.

Lemma Int16_samples_buffer (buf : list Z) :
  Forall (fun v => - 2 ^ 15 <= v < 2 ^ 15) buf ->
  Int16_samples (Int16Array_buffer buf) = buf.
Proof.
  induction 1 as [|v buf Hv _ IH]; [done|].
  cbn [Int16Array_buffer flat_map Int16_bytes app Int16_samples].
  fold (Int16Array_buffer buf). rewrite IH. f_equal.
  rewrite (Z.add_comm (_ mod 2 ^ 8)), <- Z.div_mod by lia.
  apply (wrap16_small v Hv).
Qed.

Lemma length_Int16Array_buffer (buf : list Z) :
  length (Int16Array_buffer buf) = (2 * length buf)%nat.
Proof.
  induction buf as [|v buf IH]; [done|].
  cbn [Int16Array_buffer flat_map Int16_bytes app length].
  fold (Int16Array_buffer buf). rewrite IH. lia.
Qed.

(** ** The loop *)

Lemma convert_loop_spec n : forall i (buffer : list spec_float) (buf : list Z),
  length buf = length buffer -> (i + n)%nat = length buffer ->
  convert_loop n i buffer buf = take i buf ++ map encode_sample (drop i buffer).
Proof.
  induction n as [|n IH]; intros i buffer buf Hlen Hi; cbn [convert_loop].
  - rewrite drop_ge, take_ge by lia. by rewrite app_nil_r.
  - destruct (lookup_lt_is_Some_2 buffer i ltac:(lia)) as [x Hx].
    unfold Int16Array_set, Float32Array_get. rewrite Hx.
    rewrite IH by (rewrite ?length_insert; lia).
    rewrite (drop_S buffer x i Hx). cbn [map].
    rewrite (take_S_r _ i (encode_sample x)).
    + rewrite take_insert_ge by lia. by rewrite <- app_assoc.
    + apply list_lookup_insert_eq. lia.
Qed.

Lemma convertFloat32ToInt16_map (buffer : list spec_float) :
  convertFloat32ToInt16 buffer = Int16Array_buffer (map encode_sample buffer).
Proof.
  unfold convertFloat32ToInt16, Int16Array_new.
  rewrite convert_loop_spec by (rewrite ?length_replicate; lia). done.
Qed.

Lemma Int16_samples_convert (buffer : list spec_float) :
  Int16_samples (convertFloat32ToInt16 buffer) = map encode_sample buffer.
Proof.
  rewrite convertFloat32ToInt16_map. apply Int16_samples_buffer.
  apply Forall_forall. intros v Hv. apply list_elem_of_fmap in Hv as (x & -> & _).
  apply ToInt16_range.
Qed.

Lemma pcm_sample_in_range x :
  valid_binary 24 128 x = true -> is_finite x = true -> (-1 <= to_Q x)%Q ->
  pcm_sample x = Qtruncate (Qmin 1 (to_Q x) * 32767) /\
  -32767 <= pcm_sample x <= 32767.
Proof.
  destruct x as [s|s| |s m e]; try discriminate; intros Hv _ Hx.
  { destruct s; (split; [reflexivity|]); vm_compute; split; discriminate. }
  cbn [valid_binary] in Hv. unfold pcm_sample.
  destruct (bounded32 m e Hv) as (Hd & He & Hm).
  set (d := Z.pos (digits2_pos m)) in *.
  assert (Hr : -32767 <= Qtruncate (Qmin 1 (to_Q (S754_finite s m e)) * 32767) <= 32767).
  { rewrite Qtruncate_finite by done. fold d.
    destruct (negb s && (1 <=? d + e)) eqn:Hc; [lia|].
    unfold Qle, to_Q in Hx.
    destruct e as [|pe|pe]; cbn [inject_Z Qnum Qden] in Hx.
    - rewrite Z.shiftl_0_r. destruct s; cbn [cond_Zopp negb andb] in *.
      + lia.
      + apply Z.leb_gt in Hc. lia.
    - rewrite Z.shiftl_mul_pow2 by lia.
      pose proof (Z.pow_pos_nonneg 2 (Z.pos pe)).
      destruct s; cbn [cond_Zopp negb andb] in *.
      + nia.
      + apply Z.leb_gt in Hc. lia.
    - change (Z.shiftl ?a (Z.neg pe)) with (Z.shiftr a (Z.pos pe)).
      rewrite Z.shiftr_div_pow2 by lia.
      rewrite Pos2Z.inj_pow in Hx.
      pose proof (Z.pow_pos_nonneg 2 (Z.pos pe)) as Hp.
      assert (0 <= Z.pos m * 32767 / 2 ^ Z.pos pe)
        by (apply Z.div_pos; lia).
      destruct s; cbn [cond_Zopp negb andb] in *.
      + assert (Z.pos m * 32767 / 2 ^ Z.pos pe <= 32767); [|lia].
        apply Z.div_le_upper_bound; lia.
      + apply Z.leb_gt in Hc.
        assert (2 ^ d <= 2 ^ Z.pos pe) by (apply Z.pow_le_mono_r; lia).
        assert (Z.pos m * 32767 / 2 ^ Z.pos pe <= 32767); [|lia].
        apply Z.div_le_upper_bound; nia. }
  split; [|rewrite wrap16_small; lia].
  apply wrap16_small. lia.
Qed.

(** ** The encoder *)

(** C1, as amended: for every block the frame has two bytes per sample
    and as many samples as the block; the sample at index [i], read as a
    little-endian signed 16-bit integer, is [min(1, x) * 32767] truncated
    toward zero (not rounded to nearest) and reduced modulo 2^16 into the
    signed range, for [x] the binary32 sample at [i] (NaN and negative
    infinity give 0, positive infinity 32767); for a finite sample that is
    at least -1 nothing is reduced and the result lies in
    [-32767, 32767]. *)
Theorem convertFloat32ToInt16_samples (buffer : list spec_float) :
  length (convertFloat32ToInt16 buffer) = (2 * length buffer)%nat /\
  length (Int16_samples (convertFloat32ToInt16 buffer)) = length buffer /\
  forall (i : nat) (x : spec_float),
    buffer !! i = Some x -> valid_binary 24 128 x = true ->
    Int16_samples (convertFloat32ToInt16 buffer) !! i = Some (pcm_sample x) /\
    (is_finite x = true -> (-1 <= to_Q x)%Q ->
     pcm_sample x = Qtruncate (Qmin 1 (to_Q x) * 32767) /\
     -32767 <= pcm_sample x <= 32767).
Proof.
  rewrite Int16_samples_convert, convertFloat32ToInt16_map.
  rewrite length_Int16Array_buffer, !length_map.
  split; [done|]. split; [done|].
  intros i x Hi Hv. split.
  - rewrite list_lookup_fmap, Hi. cbn. f_equal. by apply encode_sample_exact.
  - intros Hf Hx. by apply pcm_sample_in_range.
Qed.

Lemma convertFloat32ToInt16_samples_witness :
  Int16_samples (convertFloat32ToInt16 [quarter; minus_three_halves]) !! 0%nat
  = Some (pcm_sample quarter) /\
  pcm_sample quarter = Qtruncate (Qmin 1 (to_Q quarter) * 32767) /\
  -32767 <= pcm_sample quarter <= 32767.
Proof.
  destruct (proj2 (proj2 (convertFloat32ToInt16_samples [quarter; minus_three_halves]))
              0%nat quarter eq_refl eq_refl) as [H1 H2].
  split; [exact H1|]. apply H2; [reflexivity|]. vm_compute. discriminate.
Defined.

(** C1 as stated fails: the sample 0.25 is encoded as 8191, the
    truncation of 8191.75, where rounding gives 8192; and the sample -1.5
    is encoded as 16386, where rounding gives -49150. *)
Lemma convertFloat32ToInt16_not_rounded :
  Int16_samples (convertFloat32ToInt16 [quarter]) = [8191] /\
  map rounded_sample [quarter] = [8192] /\
  Int16_samples (convertFloat32ToInt16 [minus_three_halves]) = [16386] /\
  map rounded_sample [minus_three_halves] = [-49150].
Proof. vm_compute. repeat split. Qed.

(** C10: the binary32 sample -1.5 lies below -1; [min(1, -1.5) * 32767]
    is -49150.5, which truncates toward zero to -49150 and reduces modulo
    2^16 to 16386: the encoded sample is not -32768 but positive. *)
Theorem convertFloat32ToInt16_wraps_below_minus_one :
  valid_binary 24 128 minus_three_halves = true /\
  (to_Q minus_three_halves == - (3 # 2))%Q /\
  (Qmin 1 (to_Q minus_three_halves) * 32767 == - (98301 # 2))%Q /\
  Qtruncate (Qmin 1 (to_Q minus_three_halves) * 32767) = -49150 /\
  (-49150) mod 2 ^ 16 = 16386 /\
  exists v, Int16_samples (convertFloat32ToInt16 [minus_three_halves]) = [v] /\
            v = 16386 /\ v <> - 2 ^ 15 /\ 0 < v.
Proof.
  split; [reflexivity|]. split; [reflexivity|]. split; [reflexivity|].
  split; [reflexivity|]. split; [reflexivity|].
  exists 16386. split; [by vm_compute|]. split; [done|]. split; [discriminate|done].
Qed.

(** ** Blocks, bounds and symmetry *)

Lemma div_le_cross (a b c d : Z) :
  0 <= a -> 0 < b -> 0 < d -> a * d <= c * b -> a / b <= c / d.
Proof.
  intros Ha Hb Hd H. apply Z.div_le_lower_bound; [done|].
  pose proof (Z.mul_div_le a b Hb) as Hq.
  assert (0 <= a / b) by (apply Z.div_pos; lia). nia.
Qed.

Lemma Qtruncate_le (p q : Q) : (p <= q)%Q -> Qtruncate p <= Qtruncate q.
Proof.
  destruct p as [a b], q as [c d]. unfold Qle, Qtruncate. cbn [Qnum Qden].
  intros H. destruct (Z.le_gt_cases 0 a) as [Ha|Ha].
  - assert (0 <= c) by nia. rewrite !Z.quot_div_nonneg by lia.
    apply div_le_cross; lia.
  - destruct (Z.le_gt_cases 0 c) as [Hc|Hc].
    + transitivity 0; [apply Z.quot_le_upper_bound; lia|apply Z.quot_pos; lia].
    + replace a with (- - a) by lia. replace c with (- - c) by lia.
      rewrite !(Z.quot_opp_l (- _)) by lia. rewrite !Z.quot_div_nonneg by lia.
      apply Z.opp_le_mono. rewrite !Z.opp_involutive. apply div_le_cross; lia.
Qed.

Lemma Qtruncate_comp (p q : Q) : (p == q)%Q -> Qtruncate p = Qtruncate q.
Proof.
  intros H. apply Z.le_antisymm; apply Qtruncate_le; rewrite H; apply Qle_refl.
Qed.

Lemma Qtruncate_opp (q : Q) : Qtruncate (- q) = - Qtruncate q.
Proof. destruct q as [a b]. unfold Qtruncate. cbn. by rewrite Z.quot_opp_l. Qed.

Lemma to_Q_SFopp (x : spec_float) : (to_Q (SFopp x) == - to_Q x)%Q.
Proof.
  destruct x as [s|s| |s m [|p|p]]; try reflexivity;
    destruct s; unfold Qeq; cbn; lia.
Qed.

Lemma pcm_sample_clamped (x : spec_float) :
  valid_binary 24 128 x = true -> is_finite x = true -> (1 <= to_Q x)%Q ->
  pcm_sample x = 32767.
Proof.
  intros Hv Hf H1.
  destruct (pcm_sample_in_range x Hv Hf) as [-> _].
  { apply Qle_trans with (2 := H1). done. }
  rewrite Qmin_1. unfold Qle in H1. cbn [Qnum Qden] in H1.
  destruct (Z.leb_spec (Z.pos (Qden (to_Q x))) (Qnum (to_Q x))); [done|lia].
Qed.

Lemma convertFloat32ToInt16_lookup (buffer : list spec_float) (i : nat) (x : spec_float) :
  buffer !! i = Some x -> valid_binary 24 128 x = true ->
  Int16_samples (convertFloat32ToInt16 buffer) !! i = Some (pcm_sample x).
Proof.
  intros Hi Hv. rewrite Int16_samples_convert, list_lookup_fmap, Hi. cbn.
  f_equal. by apply encode_sample_exact.
Qed.

(** X1: the encoder works sample by sample: the empty block gives the
    empty frame, and the frame of two blocks put end to end is the two
    frames put end to end, so the stream of bytes does not depend on how
    the audio is cut into blocks. *)
Theorem convertFloat32ToInt16_app (a b : list spec_float) :
  convertFloat32ToInt16 [] = [] /\
  convertFloat32ToInt16 (a ++ b)
  = convertFloat32ToInt16 a ++ convertFloat32ToInt16 b.
Proof.
  split; [done|]. rewrite !convertFloat32ToInt16_map, map_app.
  unfold Int16Array_buffer. apply flat_map_app.
Qed.

(** X2: the upper bound saturates: a sample that is 1 or more,
    positive infinity included, is encoded as 32767. *)
Theorem convertFloat32ToInt16_saturates (buffer : list spec_float) (i : nat)
    (x : spec_float) :
  buffer !! i = Some x -> valid_binary 24 128 x = true ->
  x = S754_infinity false \/ (is_finite x = true /\ (1 <= to_Q x)%Q) ->
  Int16_samples (convertFloat32ToInt16 buffer) !! i = Some 32767.
Proof.
  intros Hi Hv Hx. rewrite (convertFloat32ToInt16_lookup buffer i x Hi Hv).
  f_equal. destruct Hx as [->|[Hf H1]]; [done|]. by apply pcm_sample_clamped.
Qed.

Lemma convertFloat32ToInt16_saturates_witness :
  Int16_samples
    (convertFloat32ToInt16 [quarter; S754_finite false 12582912 (-23)]) !! 1%nat
  = Some 32767.
Proof.
  apply (convertFloat32ToInt16_saturates
           [quarter; S754_finite false 12582912 (-23)] 1%nat
           (S754_finite false 12582912 (-23)) eq_refl eq_refl).
  right. split; [reflexivity|]. vm_compute. discriminate.
Defined.

(** X3: from -1 upward the encoder is monotone: of two finite samples
    that are at least -1, the larger one is encoded as an integer that is
    not smaller. *)
Theorem convertFloat32ToInt16_monotone (buffer : list spec_float) (i j : nat)
    (x y : spec_float) :
  buffer !! i = Some x -> buffer !! j = Some y ->
  valid_binary 24 128 x = true -> valid_binary 24 128 y = true ->
  is_finite x = true -> is_finite y = true ->
  (-1 <= to_Q x)%Q -> (to_Q x <= to_Q y)%Q ->
  exists a b,
    Int16_samples (convertFloat32ToInt16 buffer) !! i = Some a /\
    Int16_samples (convertFloat32ToInt16 buffer) !! j = Some b /\
    a <= b.
Proof.
  intros Hi Hj Hvx Hvy Hfx Hfy Hx Hxy.
  exists (pcm_sample x), (pcm_sample y).
  split; [by apply convertFloat32ToInt16_lookup|].
  split; [by apply convertFloat32ToInt16_lookup|].
  destruct (pcm_sample_in_range x Hvx Hfx Hx) as [-> _].
  destruct (pcm_sample_in_range y Hvy Hfy) as [-> _].
  { by apply Qle_trans with (2 := Hxy). }
  apply Qtruncate_le. apply Qmult_le_compat_r; [|done].
  apply Q.min_le_compat_l, Hxy.
Qed.

Lemma convertFloat32ToInt16_monotone_witness :
  exists a b,
    Int16_samples (convertFloat32ToInt16 [quarter; S754_zero false]) !! 1%nat = Some a /\
    Int16_samples (convertFloat32ToInt16 [quarter; S754_zero false]) !! 0%nat = Some b /\
    a <= b.
Proof.
  apply (convertFloat32ToInt16_monotone [quarter; S754_zero false] 1%nat 0%nat
           (S754_zero false) quarter eq_refl eq_refl eq_refl eq_refl eq_refl eq_refl);
    vm_compute; discriminate.
Defined.

Lemma pcm_sample_SFopp (x : spec_float) :
  valid_binary 24 128 x = true -> is_finite x = true ->
  (-1 <= to_Q x)%Q -> (to_Q x <= 1)%Q ->
  pcm_sample (SFopp x) = - pcm_sample x.
Proof.
  intros Hv Hf Hlo Hhi.
  assert (Hv' : valid_binary 24 128 (SFopp x) = true) by (by destruct x).
  assert (Hf' : is_finite (SFopp x) = true) by (by destruct x).
  assert (Hlo' : (-1 <= to_Q (SFopp x))%Q).
  { rewrite to_Q_SFopp. apply Qopp_le_compat in Hhi. exact Hhi. }
  assert (Hhi' : (to_Q (SFopp x) <= 1)%Q).
  { rewrite to_Q_SFopp. apply Qopp_le_compat in Hlo. exact Hlo. }
  destruct (pcm_sample_in_range x Hv Hf Hlo) as [-> _].
  destruct (pcm_sample_in_range (SFopp x) Hv' Hf' Hlo') as [-> _].
  rewrite <- Qtruncate_opp. apply Qtruncate_comp.
  rewrite (Q.min_r 1 (to_Q x)) by done.
  rewrite (Q.min_r 1 (to_Q (SFopp x))) by done.
  rewrite to_Q_SFopp. ring.
Qed.

(** X4: within [-1, 1] the encoder is odd: changing the sign of every
    sample of a block whose samples are finite and lie in [-1, 1]
    changes the sign of every encoded sample (truncation is toward
    zero on both sides). *)
Theorem convertFloat32ToInt16_odd (buffer : list spec_float) :
  Forall (fun x => valid_binary 24 128 x = true /\ is_finite x = true /\
                   (-1 <= to_Q x)%Q /\ (to_Q x <= 1)%Q) buffer ->
  Int16_samples (convertFloat32ToInt16 (map SFopp buffer))
  = map Z.opp (Int16_samples (convertFloat32ToInt16 buffer)).
Proof.
  intros H. rewrite !Int16_samples_convert, !map_map.
  apply map_ext_Forall. eapply Forall_impl; [exact H|].
  intros x (Hv & Hf & Hlo & Hhi). cbn beta.
  rewrite !encode_sample_exact; [by apply pcm_sample_SFopp|done|by destruct x].
Qed.

Lemma convertFloat32ToInt16_odd_witness :
  Int16_samples (convertFloat32ToInt16 (map SFopp [quarter]))
  = map Z.opp (Int16_samples (convertFloat32ToInt16 [quarter])).
Proof.
  apply (convertFloat32ToInt16_odd [quarter]).
  repeat constructor; vm_compute; discriminate.
Defined.

(** * Voice selection *)

(** The codes for which [voiceMap[code]] is undefined are those that
    name neither an entry of the table nor a property that every object
    inherits. *)
Lemma voiceMap_undefined (targetLang : string) :
  targetLang ∉ ["en"; "hi"; "zh"; "__proto__"] ->
  targetLang ∉ Object_prototype.*1 ->
  Get voiceMap targetLang = VUndefined.
Proof.
  intros H1 H2. unfold Get, voiceMap. cbn -[String.eqb].
  cbn in H2.
  repeat match goal with
         | H : _ ∉ _ :: _ |- _ => apply not_elem_of_cons in H as [? ?]
         end.
  repeat match goal with
         | |- context [String.eqb ?a targetLang] =>
             destruct (String.eqb_spec a targetLang); [congruence|];
             cbn -[String.eqb]
         | |- context [String.eqb targetLang ?a] =>
             destruct (String.eqb_spec targetLang a); [congruence|];
             cbn -[String.eqb]
         end.
  done.
Qed.

(** A name that every object inherits resolves to the inherited
    property. *)
Lemma voiceMap_inherited (targetLang : string) (f : value) :
  (targetLang, f) ∈ Object_prototype -> Get voiceMap targetLang = f.
Proof.
  intros H. unfold Object_prototype in H. cbn in H.
  repeat (apply elem_of_cons in H as [H|H];
          [injection H as -> ->; reflexivity|]).
  by apply elem_of_nil in H.
Qed.

(** C9, as amended: the lookup never fails, and each code of the table
    resolves to its voice.  A code that names neither an entry of the
    table nor a property inherited from [Object.prototype], such as
    ["fr"], resolves to the default voice; a code outside the table that
    names an inherited property resolves to that property, which is no
    voice: [__proto__] to the prototype itself, the others to a
    function. *)
Theorem voice_resolves (targetLang : string) :
  (exists v, voice targetLang = Normal v) /\
  (voice "en" = Normal (VString "en-US-JennyNeural") /\
   voice "hi" = Normal (VString "hi-IN-SwaraNeural") /\
   voice "zh" = Normal (VString "zh-CN-XiaoxiaoNeural")) /\
  (targetLang ∉ ["en"; "hi"; "zh"; "__proto__"] ->
   targetLang ∉ Object_prototype.*1 ->
   voice targetLang = Normal (VString "en-US-JennyNeural")) /\
  (forall f, (targetLang, f) ∈ Object_prototype ->
             voice targetLang = Normal f /\ exists name, f = VFunction name) /\
  voice "__proto__" = Normal (VObject Object_prototype) /\
  voice "fr" = Normal (VString "en-US-JennyNeural").
Proof.
  assert (Hv : voice targetLang =
               Normal (if ToBoolean (Get voiceMap targetLang)
                       then Get voiceMap targetLang
                       else VString "en-US-JennyNeural")) by reflexivity.
  split; [rewrite Hv; eauto|].
  split; [by vm_compute|].
  split; [|split; [|by vm_compute]].
  - intros H1 H2. by rewrite Hv, (voiceMap_undefined _ H1 H2).
  - intros f Hf. rewrite Hv, (voiceMap_inherited _ _ Hf).
    unfold Object_prototype in Hf. cbn in Hf.
    repeat (apply elem_of_cons in Hf as [Hf|Hf];
            [injection Hf as -> ->; split; [reflexivity|by eexists]|]).
    by apply elem_of_nil in Hf.
Qed.

Lemma voice_resolves_witness :
  voice "fr" = Normal (VString "en-US-JennyNeural") /\
  voice "valueOf" = Normal (VFunction "valueOf").
Proof.
  split.
  - apply (proj1 (proj2 (proj2 (voice_resolves "fr")))); vm_compute; intros H;
      by repeat (apply elem_of_cons in H as [H|H]; [discriminate H|]);
         apply elem_of_nil in H.
  - apply (proj1 (proj2 (proj2 (proj2 (voice_resolves "valueOf"))))
             (VFunction "valueOf")).
    vm_compute. do 8 (apply elem_of_cons; right). apply elem_of_cons. by left.
Defined.

(** C9 as stated fails on a code that names a property every object
    inherits: ["constructor"] is not in the table, and yet does not
    resolve to the default voice but to the inherited constructor. *)
Lemma voice_of_inherited_name :
  own_property [("en", VString "en-US-JennyNeural");
                ("hi", VString "hi-IN-SwaraNeural");
                ("zh", VString "zh-CN-XiaoxiaoNeural")] "constructor" = None /\
  voice "constructor" = Normal (VFunction "Object") /\
  voice "constructor" <> Normal (VString "en-US-JennyNeural").
Proof. by vm_compute. Qed.

(** * The fuel of the JSON parser *)

(** [JSON.parse] runs its parser with fuel [2 * length + 2].  More fuel
    never changes the result, so a [None] stands for a text that is not
    JSON and never for fuel that ran out. *)

Lemma length_skip_ws (s : string) :
  (String.length (JSON.skip_ws s) <= String.length s)%nat.
Proof.
  induction s as [|c s IH]; [done|]. cbn [JSON.skip_ws].
  destruct (JSON.is_ws c); cbn [String.length]; lia.
Qed.

Lemma length_skip_char (c1 c2 : ascii) (s r : string) :
  JSON.skip_char c1 c2 s = Some r -> String.length s = S (String.length r).
Proof.
  destruct s as [|c s]; [done|]. cbn [JSON.skip_char].
  destruct (_ || _); [|done]. by intros [= ->].
Qed.

Lemma length_parse_string (n : nat) : forall (s t r : string),
  (String.length s <= n)%nat -> JSON.parse_string s = Some (t, r) ->
  (String.length r < String.length s)%nat.
Proof.
  induction n as [|n IH]; intros s t r Hn Hp.
  { destruct s; [done|]. cbn in Hn. lia. }
  destruct s as [|c s]; [done|]. cbn [String.length] in Hn.
  cbn [JSON.parse_string] in Hp.
  destruct (Ascii.eqb c "034"); [injection Hp as _ <-; cbn; lia|].
  destruct (Ascii.eqb c "\").
  - destruct s as [|e s1]; [done|]. destruct (Ascii.eqb e "u").
    + destruct s1 as [|a [|b [|c' [|d s2]]]]; try done.
      destruct (JSON.hex4 a b c' d) as [hi|]; [|done].
      cbv zeta in Hp.
      set (low := if _ : bool then JSON.low_surrogate s2 else None) in Hp.
      set (rest3 := match low, s2 with
                    | Some _, String _ (String _ (String _ (String _
                                (String _ (String _ r0))))) => r0
                    | _, _ => s2
                    end) in Hp.
      assert (Hr : (String.length rest3 <= String.length s2)%nat).
      { subst rest3. destruct low; [|done].
        destruct s2 as [|? [|? [|? [|? [|? [|? ?]]]]]]; cbn; lia. }
      destruct (JSON.parse_string rest3) as [[t' r']|] eqn:Hp'; [|done].
      injection Hp as _ <-. apply IH in Hp'; [|cbn in Hn, Hr; lia].
      cbn [String.length]. lia.
    + destruct (JSON.escape e); [|done].
      destruct (JSON.parse_string s1) as [[t' r']|] eqn:Hp'; [|done].
      injection Hp as _ <-. apply IH in Hp'; [|cbn in Hn; lia].
      cbn [String.length]. lia.
  - destruct (N_of_ascii c <? 32)%N; [done|].
    destruct (JSON.parse_string s) as [[t' r']|] eqn:Hp'; [|done].
    injection Hp as _ <-. apply IH in Hp'; [|lia]. cbn [String.length]. lia.
Qed.

Lemma length_parse_digits (s : string) : forall (acc count a c : Z) (r : string),
  JSON.parse_digits s acc count = (a, c, r) ->
  Z.of_nat (String.length s) = Z.of_nat (String.length r) + (c - count) /\
  count <= c.
Proof.
  induction s as [|x s IH]; intros acc count a c r Hp; cbn [JSON.parse_digits] in Hp.
  - injection Hp as _ <- <-. lia.
  - destruct (JSON.digit x).
    + apply IH in Hp. cbn [String.length]. lia.
    + injection Hp as _ <- <-. lia.
Qed.

Lemma length_strip (lit : string) : forall (s r : string),
  JSON.strip lit s = Some r ->
  String.length s = (String.length lit + String.length r)%nat.
Proof.
  induction lit as [|a lit IH]; intros s r Hs; cbn [JSON.strip] in Hs.
  - by injection Hs as ->.
  - destruct s as [|b s]; [done|]. destruct (Ascii.eqb a b); [|done].
    apply IH in Hs. cbn [String.length]. lia.
Qed.

Lemma length_literal (lit : string) (v v' : value) (s r : string) :
  lit <> "" -> JSON.literal lit v s = Some (v', r) ->
  (String.length r < String.length s)%nat.
Proof.
  intros Hl. unfold JSON.literal.
  destruct (JSON.strip lit s) as [r'|] eqn:Hs; [|done].
  intros [= _ <-]. apply length_strip in Hs. destruct lit; [done|]. cbn in Hs. lia.
Qed.

Lemma length_parse_number (s : string) (v : value) (r : string) :
  JSON.parse_number s = Some (v, r) ->
  (String.length r < String.length s)%nat.
Proof.
  unfold JSON.parse_number.
  destruct (JSON.skip_char "-" "-" s) as [s0|] eqn:Hneg.
  all: (destruct (JSON.parse_digits _ 0 0) as [[int icount] s1] eqn:Hint;
        apply length_parse_digits in Hint;
        destruct ((icount =? 0) || _) eqn:Hz; [done|];
        apply orb_false_elim in Hz as [Hz _]; apply Z.eqb_neq in Hz;
        destruct (JSON.skip_char "." "." s1) as [s1'|] eqn:Hdot;
        [destruct (JSON.parse_digits s1' int 0) as [[m fcount] s2] eqn:Hfrac;
         apply length_parse_digits in Hfrac; apply length_skip_char in Hdot;
         destruct (fcount =? 0); [done|]
        |]).
  all: (match goal with
        | |- context [JSON.skip_char "e" "E" ?x] =>
            destruct (JSON.skip_char "e" "E" x) as [se|] eqn:He
        end;
        [apply length_skip_char in He;
         destruct (JSON.skip_char "-" "-" se) as [se1|] eqn:Hm;
         [apply length_skip_char in Hm
         |destruct (JSON.skip_char "+" "+" se) as [se1|] eqn:Hpl;
          [apply length_skip_char in Hpl|]];
         (match goal with
          | |- context [JSON.parse_digits ?x 0 0] =>
              destruct (JSON.parse_digits x 0 0) as [[e ecount] s3] eqn:Hexp
          end;
          apply length_parse_digits in Hexp; destruct (ecount =? 0); [done|])
        |]).
  all: intros [= _ <-]; try apply length_skip_char in Hneg; lia.
Qed.

Lemma length_skip_ws_cons (s : string) (c : ascii) (rest : string) :
  JSON.skip_ws s = String c rest -> (String.length rest < String.length s)%nat.
Proof.
  intros H. pose proof (length_skip_ws s) as Hl. rewrite H in Hl. cbn in Hl. lia.
Qed.

Lemma length_skip_ws_char (c1 c2 : ascii) (s r : string) :
  JSON.skip_char c1 c2 (JSON.skip_ws s) = Some r ->
  (String.length r < String.length s)%nat.
Proof.
  intros H. apply length_skip_char in H. pose proof (length_skip_ws s). lia.
Qed.

Lemma parse_fuel (f : nat) :
  (forall s, (2 * String.length s + 2 <= f)%nat ->
     (forall f', (2 * String.length s + 2 <= f')%nat ->
        JSON.parse_value f' s = JSON.parse_value f s) /\
     (forall v r, JSON.parse_value f s = Some (v, r) ->
        (String.length r < String.length s)%nat)) /\
  (forall s acc, (2 * String.length s + 3 <= f)%nat ->
     (forall f', (2 * String.length s + 3 <= f')%nat ->
        JSON.parse_elements f' s acc = JSON.parse_elements f s acc) /\
     (forall v r, JSON.parse_elements f s acc = Some (v, r) ->
        (String.length r < String.length s)%nat)) /\
  (forall s acc, (2 * String.length s + 3 <= f)%nat ->
     (forall f', (2 * String.length s + 3 <= f')%nat ->
        JSON.parse_members f' s acc = JSON.parse_members f s acc) /\
     (forall v r, JSON.parse_members f s acc = Some (v, r) ->
        (String.length r < String.length s)%nat)).
Proof.
  induction f as [|f (IHv & IHe & IHm)].
  { repeat split; intros; lia. }
  split; [|split].
  - (* a value *)
    intros s Hs.
    assert (Hrest : forall c rest, JSON.skip_ws s = String c rest ->
              (2 * String.length rest + 3 <= f)%nat).
    { intros c rest H. apply length_skip_ws_cons in H. lia. }
    split.
    + intros [|f'] Hf'; [lia|]. cbn [JSON.parse_value].
      destruct (JSON.skip_ws s) as [|c rest] eqn:Hsk; [done|].
      specialize (Hrest c rest eq_refl).
      apply length_skip_ws_cons in Hsk.
      destruct (Ascii.eqb c "{").
      { destruct (JSON.skip_char "}" "}" _); [done|].
        apply (IHm rest [] Hrest). lia. }
      destruct (Ascii.eqb c "[").
      { destruct (JSON.skip_char "]" "]" _); [done|].
        apply (IHe rest [] Hrest). lia. }
      done.
    + intros v r. cbn [JSON.parse_value].
      destruct (JSON.skip_ws s) as [|c rest] eqn:Hsk; [done|].
      specialize (Hrest c rest eq_refl).
      pose proof (length_skip_ws s) as Hl. rewrite Hsk in Hl.
      apply length_skip_ws_cons in Hsk.
      destruct (Ascii.eqb c "{").
      { destruct (JSON.skip_char "}" "}" _) eqn:Hc.
        - intros [= _ <-]. apply length_skip_ws_char in Hc. lia.
        - intros Hp. apply (IHm rest [] Hrest) in Hp. lia. }
      destruct (Ascii.eqb c "[").
      { destruct (JSON.skip_char "]" "]" _) eqn:Hc.
        - intros [= _ <-]. apply length_skip_ws_char in Hc. lia.
        - intros Hp. apply (IHe rest [] Hrest) in Hp. lia. }
      destruct (Ascii.eqb c "034").
      { destruct (JSON.parse_string rest) as [[t r']|] eqn:Hp; [|done].
        intros [= _ <-]. apply (length_parse_string _ _ _ _ (le_n _)) in Hp. lia. }
      destruct (Ascii.eqb c "t").
      { intros Hp. apply length_literal in Hp; [|done]. lia. }
      destruct (Ascii.eqb c "f").
      { intros Hp. apply length_literal in Hp; [|done]. lia. }
      destruct (Ascii.eqb c "n").
      { intros Hp. apply length_literal in Hp; [|done]. lia. }
      intros Hp. apply length_parse_number in Hp. lia.
  - (* the elements of an array *)
    intros s acc Hs.
    destruct (IHv s ltac:(lia)) as [Hfv Hlv].
    split.
    + intros [|f'] Hf'; [lia|]. cbn [JSON.parse_elements].
      rewrite (Hfv f') by lia.
      destruct (JSON.parse_value f s) as [[v rest]|] eqn:Hv; [|done].
      specialize (Hlv v _ eq_refl).
      destruct (JSON.skip_char "," "," _) as [rest'|] eqn:Hc; [|done].
      apply length_skip_ws_char in Hc.
      apply (IHe rest' (acc ++ [v])); lia.
    + intros v0 r. cbn [JSON.parse_elements].
      destruct (JSON.parse_value f s) as [[v rest]|] eqn:Hv; [|done].
      specialize (Hlv v _ eq_refl).
      destruct (JSON.skip_char "," "," _) as [rest'|] eqn:Hc.
      * apply length_skip_ws_char in Hc. intros Hp.
        apply (IHe rest' (acc ++ [v])) in Hp; lia.
      * destruct (JSON.skip_char "]" "]" _) as [rest'|] eqn:Hc'; [|done].
        apply length_skip_ws_char in Hc'. intros [= _ <-]. lia.
  - (* the members of an object *)
    intros s acc Hs. split.
    + intros [|f'] Hf'; [lia|]. cbn [JSON.parse_members].
      destruct (JSON.skip_char "034" "034" _) as [rest|] eqn:Hq; [|done].
      apply length_skip_ws_char in Hq.
      destruct (JSON.parse_string rest) as [[key rest1]|] eqn:Hk; [|done].
      apply (length_parse_string _ _ _ _ (le_n _)) in Hk.
      destruct (JSON.skip_char ":" ":" _) as [rest2|] eqn:Hc; [|done].
      apply length_skip_ws_char in Hc.
      destruct (IHv rest2 ltac:(lia)) as [Hfv Hlv].
      rewrite (Hfv f') by lia.
      destruct (JSON.parse_value f rest2) as [[v rest3]|] eqn:Hv; [|done].
      specialize (Hlv v _ eq_refl).
      destruct (JSON.skip_char "," "," _) as [rest4|] eqn:Hc4; [|done].
      apply length_skip_ws_char in Hc4.
      apply (IHm rest4 (acc ++ [(key, v)])); lia.
    + intros v0 r. cbn [JSON.parse_members].
      destruct (JSON.skip_char "034" "034" _) as [rest|] eqn:Hq; [|done].
      apply length_skip_ws_char in Hq.
      destruct (JSON.parse_string rest) as [[key rest1]|] eqn:Hk; [|done].
      apply (length_parse_string _ _ _ _ (le_n _)) in Hk.
      destruct (JSON.skip_char ":" ":" _) as [rest2|] eqn:Hc; [|done].
      apply length_skip_ws_char in Hc.
      destruct (IHv rest2 ltac:(lia)) as [Hfv Hlv].
      destruct (JSON.parse_value f rest2) as [[v rest3]|] eqn:Hv; [|done].
      specialize (Hlv v _ eq_refl).
      destruct (JSON.skip_char "," "," _) as [rest4|] eqn:Hc4.
      * apply length_skip_ws_char in Hc4. intros Hp.
        apply (IHm rest4 (acc ++ [(key, v)])) in Hp; lia.
      * destruct (JSON.skip_char "}" "}" _) as [rest4|] eqn:Hc'; [|done].
        apply length_skip_ws_char in Hc'. intros [= _ <-]. lia.
Qed.

(** More fuel than [JSON.parse] gives changes nothing. *)
Lemma parse_value_fuel (text : string) (fuel : nat) :
  (2 * String.length text + 2 <= fuel)%nat ->
  JSON.parse_value fuel text = JSON.parse_value (2 * String.length text + 2) text.
Proof.
  intros Hf.
  apply (proj1 (proj1 (parse_fuel (2 * String.length text + 2)) text (le_n _))).
  done.
Qed.

(** * The channel *)

Import Streaming.

(** The cases of the handler of messages of the appending variant, for
    goals that hold in each of them. *)
Ltac appended t d :=
  destruct (ToBoolean t); [|done];
  destruct (append_text t _); [|done];
  destruct (ToString (Get d "detected_lang")); [|done];
  by destruct (ToString (Get d "confidence")).

(** C3: when an audio block arrives in a session that has a socket, the
    handler returns without an exception; if the socket is open at that
    moment the encoded frame is transmitted on it, and otherwise the
    sockets are as before; nothing else of the session changes, so a
    frame that was not sent is kept nowhere to be sent later. *)
Theorem onaudioprocess_sends_iff_open (v : variant) (inputData : list spec_float)
    (st : App) (i : nat) (ws : WebSocket) :
  socketRef st = Some i -> sockets st !! i = Some ws ->
  exists st',
    onaudioprocess v inputData st = (Normal (), st') /\
    sockets st' =
      match readyState ws with
      | OPEN => <[i := transmitted (convertFloat32ToInt16 inputData) ws]> (sockets st)
      | _ => sockets st
      end /\
    same_but_sockets st st'.
Proof.
  intros Href Hws.
  destruct v; unfold onaudioprocess, encode, send, WebSocket_send, current;
    cbn [socketRef sockets]; rewrite Href, Hws;
    destruct (readyState ws) eqn:Hrs; cbn [socketRef sockets];
    eexists; (split; [reflexivity|]); (split; [|by repeat split]);
    cbn [sockets]; try reflexivity;
    unfold transmitted; by rewrite Hrs.
Qed.

Lemma onaudioprocess_sends_iff_open_witness :
  let st := run Append false [ClickStart Granted; Open 0%nat] initial in
  exists st',
    onaudioprocess Append [quarter] st = (Normal (), st') /\
    sockets st' =
      [transmitted (convertFloat32ToInt16 [quarter])
         {| readyState := OPEN; sent := []; audioContext := Some running;
            processor := Some true |}] /\
    same_but_sockets st st'.
Proof.
  exact (onaudioprocess_sends_iff_open Append [quarter]
           (run Append false [ClickStart Granted; Open 0%nat] initial) 0%nat
           {| readyState := OPEN; sent := []; audioContext := Some running;
              processor := Some true |} eq_refl eq_refl).
Defined.

(** * The aggregator *)

(** C4, as amended: on a payload that is not a JSON text the handler
    throws the [SyntaxError] of [JSON.parse] and nothing catches it; the
    state is exactly as before, so the transcript is unchanged and the
    session goes on as if the payload had not arrived. *)
Theorem onmessage_malformed (v : variant) (data : string) (st : App) :
  JSON.parse data = None ->
  onmessage v data st = (Throw "SyntaxError", st) /\
  forall strict i evs,
    run v strict (Message i data :: evs) st = run v strict evs st.
Proof.
  intros Hp. assert (Hm : onmessage v data st = (Throw "SyntaxError", st)).
  { unfold onmessage. by rewrite Hp. }
  split; [done|]. intros strict i evs. unfold run. cbn [fold_left handle].
  destruct (sockets st !! i) as [ws|]; [|done].
  destruct (readyState ws); try done. by rewrite Hm.
Qed.

Lemma onmessage_malformed_witness :
  onmessage Append "not json" initial = (Throw "SyntaxError", initial) /\
  forall strict i evs,
    run Append strict (Message i "not json" :: evs) initial
    = run Append strict evs initial.
Proof. exact (onmessage_malformed Append "not json" initial eq_refl). Defined.

(** C4 as stated fails: in an open session the handler, run on a payload
    that is not JSON, ends by throwing, and neither the status nor an
    alert reports it. *)
Lemma onmessage_malformed_throws :
  let st := run Append false [ClickStart Granted; Open 0%nat] initial in
  JSON.parse "not json" = None /\
  handle Append false (Message 0%nat "not json") st = (Throw "SyntaxError", st) /\
  handle Replace false (Message 0%nat "not json") st = (Throw "SyntaxError", st) /\
  status st = "Streaming to server..." /\ alerts st = [].
Proof. by vm_compute. Qed.

Lemma append_assoc (a b c : string) : (a +:+ b) +:+ c = a +:+ (b +:+ c).
Proof.
  induction a as [|x a IH]; [reflexivity|].
  change (String x ((a +:+ b) +:+ c) = String x (a +:+ (b +:+ c))).
  by rewrite IH.
Qed.

Lemma append_empty (a b : string) : a +:+ b = "" -> a = "".
Proof. by destruct a. Qed.

Lemma join_cons (sep s : string) (l : list string) :
  l <> [] -> join sep (s :: l) = s +:+ sep +:+ join sep l.
Proof. by destruct l. Qed.

Lemma join_snoc (sep : string) (l : list string) (t : string) :
  l <> [] -> join sep (l ++ [t]) = join sep l +:+ sep +:+ t.
Proof.
  induction l as [|s l IH]; [done|]. intros _.
  destruct l as [|s' l]; [done|].
  change ((s :: s' :: l) ++ [t]) with (s :: ((s' :: l) ++ [t])).
  rewrite join_cons by (by destruct l).
  rewrite IH, (join_cons sep s (s' :: l)) by done.
  by rewrite !append_assoc.
Qed.

Lemma join_empty (sep : string) (l : list string) :
  Forall (fun t => t <> "") l -> join sep l = "" -> l = [].
Proof.
  destruct l as [|s l]; [done|]. intros Hl Hj.
  apply Forall_cons in Hl as [Hs _]. destruct l as [|s' l].
  - done.
  - rewrite join_cons in Hj by done. by apply append_empty in Hj.
Qed.

Lemma nonempty_cons (t : string) (l : list string) :
  nonempty (t :: l) = if String.eqb t "" then nonempty l else t :: nonempty l.
Proof.
  unfold nonempty. rewrite filter_cons.
  destruct (String.eqb_spec t ""); case_decide; done.
Qed.

Lemma Forall_nonempty (l : list string) : Forall (fun t => t <> "") (nonempty l).
Proof. apply Forall_forall. intros t Ht. by apply list_elem_of_filter in Ht as [? _]. Qed.

(** The transcript after a message of the appending variant: that
    which the update function returns, whether or not the status line
    could be built. *)
Lemma onmessage_Append_transcript (data : string) (d text : value) (st : App) :
  JSON.parse data = Some d -> GetV d "text" = Normal text ->
  transcribedText (snd (onmessage Append data st))
  = (if ToBoolean text
     then match append_text text (transcribedText st) with
          | Normal appended => appended
          | Throw _ => transcribedText st
          end
     else transcribedText st).
Proof.
  intros Hp Hg. unfold onmessage. rewrite Hp, Hg.
  destruct (ToBoolean text); [|done].
  destruct (append_text text (transcribedText st)); [|done].
  destruct (ToString (Get d "detected_lang")); [|done].
  by destruct (ToString (Get d "confidence")).
Qed.

Lemma onmessage_Replace_transcript (data : string) (d : value) (t : string) (st : App) :
  JSON.parse data = Some d -> GetV d "transcript" = Normal (VString t) ->
  onmessage Replace data st =
  (Normal (),
   if String.eqb t "" then st else setTranscribedText (fun _ => VString t) st).
Proof.
  intros Hp Hg. unfold onmessage. rewrite Hp, Hg. cbn [ToBoolean].
  by destruct (String.eqb t "").
Qed.

Lemma append_text_join (l : list string) (t : string) :
  Forall (fun t => t <> "") l -> t <> "" ->
  append_text (VString t) (VString (join " " l))
  = Normal (VString (join " " (l ++ [t]))).
Proof.
  intros Hl Ht. unfold append_text. cbn [ToBoolean ToString].
  destruct (String.eqb_spec (join " " l) "") as [He|Hne]; cbn [negb].
  - by rewrite (join_empty " " l Hl He).
  - rewrite join_snoc; [done|]. by intros ->.
Qed.

Lemma aggregate_Append (payloads texts : list string) :
  Forall2 (carries "text") payloads texts ->
  forall (st : App) (l : list string),
    Forall (fun t => t <> "") l ->
    transcribedText st = VString (join " " l) ->
    transcribedText (aggregate Append payloads st)
    = VString (join " " (l ++ nonempty texts)).
Proof.
  unfold aggregate.
  induction 1 as [|data t payloads texts (d & Hp & Hg) _ IH]; intros st l Hl Hst.
  - by rewrite app_nil_r.
  - cbn [fold_left].
    pose proof (onmessage_Append_transcript data d (VString t) st Hp Hg) as Ht'.
    rewrite nonempty_cons. cbn [ToBoolean] in Ht'.
    destruct (String.eqb_spec t "") as [->|Ht]; cbn [negb] in Ht'.
    + apply IH; [done|]. by rewrite Ht'.
    + rewrite (IH _ (l ++ [t])).
      * by rewrite <- app_assoc.
      * apply Forall_app. split; [done|]. by apply Forall_singleton.
      * by rewrite Ht', Hst, append_text_join.
Qed.

Lemma aggregate_Replace (payloads texts : list string) :
  Forall2 (carries "transcript") payloads texts ->
  forall (st : App) (prev : string),
    transcribedText st = VString prev ->
    transcribedText (aggregate Replace payloads st)
    = VString (default prev (last (nonempty texts))).
Proof.
  unfold aggregate.
  induction 1 as [|data t payloads texts (d & Hp & Hg) _ IH]; intros st prev Hst.
  - done.
  - cbn [fold_left].
    rewrite (onmessage_Replace_transcript data d t st Hp Hg), nonempty_cons.
    cbn [snd]. destruct (String.eqb_spec t "") as [->|Ht]; [by apply IH|].
    rewrite (IH _ t) by done. rewrite last_cons.
    by destruct (last (nonempty texts)).
Qed.

(** C2, as amended: the handlers skip a message whose text is empty.
    Starting from the transcript [prev], after the messages were applied
    in order the appending variant holds the non-empty strings among
    [prev] and the texts joined by single spaces, and the replacing
    variant holds the last non-empty text, or [prev] if there is none. *)
Theorem aggregate_texts (payloads texts : list string) (st : App) (prev : string) :
  transcribedText st = VString prev ->
  (Forall2 (carries "text") payloads texts ->
   transcribedText (aggregate Append payloads st)
   = VString (join " " (nonempty (prev :: texts)))) /\
  (Forall2 (carries "transcript") payloads texts ->
   transcribedText (aggregate Replace payloads st)
   = VString (default prev (last (nonempty texts)))).
Proof.
  intros Hst. split; intros Hc.
  - rewrite nonempty_cons.
    destruct (String.eqb_spec prev "") as [->|Hne].
    + by apply (aggregate_Append payloads texts Hc st []).
    + apply (aggregate_Append payloads texts Hc st [prev]); [|done].
      by apply Forall_singleton.
  - by apply aggregate_Replace.
Qed.

Lemma carries_example (field data text : string) (d : value) :
  JSON.parse data = Some d -> GetV d field = Normal (VString text) ->
  carries field data text.
Proof. intros Hp Hg. by exists d. Qed.

Ltac carries_all :=
  repeat (apply List.Forall2_cons;
          [eapply carries_example; vm_compute; reflexivity|]);
  apply List.Forall2_nil.

Lemma aggregate_texts_witness :
  transcribedText
    (aggregate Append [(json "{'text':'hello'}"); (json "{'text':'world'}")] initial)
  = VString (join " " (nonempty [""; "hello"; "world"])) /\
  transcribedText
    (aggregate Replace [(json "{'transcript':'hello'}"); (json "{'transcript':'hello world'}")]
       initial)
  = VString (default "" (last (nonempty ["hello"; "hello world"]))).
Proof.
  split.
  - apply (proj1 (aggregate_texts
                    [(json "{'text':'hello'}"); (json "{'text':'world'}")]
                    ["hello"; "world"] initial "" eq_refl)).
    carries_all.
  - apply (proj2 (aggregate_texts
                    [(json "{'transcript':'hello'}"); (json "{'transcript':'hello world'}")]
                    ["hello"; "hello world"] initial "" eq_refl)).
    carries_all.
Defined.

(** C2 as stated fails on a message with an empty text: appended, the
    texts hello, empty, world give [hello world], with one space, where
    joining all three gives two; replaced, the texts hello, empty leave
    [hello], where the last text is empty. *)
Lemma aggregate_skips_empty_texts :
  Forall2 (carries "text")
    [(json "{'text':'hello'}"); (json "{'text':''}"); (json "{'text':'world'}")]
    ["hello"; ""; "world"] /\
  transcribedText
    (aggregate Append
       [(json "{'text':'hello'}"); (json "{'text':''}"); (json "{'text':'world'}")] initial)
  = VString "hello world" /\
  join " " ["hello"; ""; "world"] = "hello  world" /\
  Forall2 (carries "transcript")
    [(json "{'transcript':'hello'}"); (json "{'transcript':''}")] ["hello"; ""] /\
  transcribedText
    (aggregate Replace [(json "{'transcript':'hello'}"); (json "{'transcript':''}")] initial)
  = VString "hello" /\
  last ["hello"; ""] = Some "".
Proof.
  split; [carries_all|]. split; [vm_compute; reflexivity|].
  split; [reflexivity|]. split; [carries_all|].
  split; [vm_compute; reflexivity|reflexivity].
Qed.

Lemma status_onmessage_Replace (data : string) (st : App) :
  status (snd (onmessage Replace data st)) = status st.
Proof.
  unfold onmessage. destruct (JSON.parse data) as [d|]; [|done].
  destruct (GetV d "transcript") as [t|]; [|done].
  by destruct (ToBoolean t).
Qed.

Lemma ToString_primitive (v : value) :
  primitive v = true -> exists s, ToString v = Normal s.
Proof. destruct v; try done; by eexists. Qed.

Lemma ToString_TypeError : forall (v : value) (e : string),
  ToString v = Throw e -> e = "TypeError".
Proof.
  fix IH 1. intros [| | | | |elements|properties|] e; try done.
  - cbn [ToString].
    assert (He : forall e,
               in_turn (map (fun x => match x with
                                      | VUndefined | VNull => Normal ""
                                      | _ => ToString x
                                      end) elements) = Throw e ->
               e = "TypeError").
    { clear e. induction elements as [|x l IHl]; [done|]. intros e.
      cbn [map in_turn]. pose proof (IH x) as Hx.
      destruct x; try (destruct (in_turn _) eqn:El; [done|intros [= <-]; eauto]).
      all: match goal with
           | |- context [ToString ?x] =>
               destruct (ToString x) eqn:Ex; [|intros [= <-]; eauto]
           end.
      all: destruct (in_turn _) eqn:El; [done|intros [= <-]; eauto]. }
    destruct (in_turn _) eqn:E; [done|]. intros [= <-]. eauto.
  - cbn [ToString].
    destruct (own_property properties "toString") as [[]|]; by intros [= <-].
Qed.

Lemma detected_TypeError (lang confidence : value) (e : string) :
  detected lang confidence = Throw e -> e = "TypeError".
Proof.
  unfold detected. destruct (ToString lang) eqn:El.
  - destruct (ToString confidence) eqn:Ec; [done|].
    intros [= <-]. by apply (ToString_TypeError confidence).
  - intros [= <-]. by apply (ToString_TypeError lang).
Qed.

(** What the appending variant does with a message whose text is
    truthy, by what the update of the transcript and the template of the
    status line come to. *)
Lemma onmessage_Append_truthy (data : string) (d text : value) (st : App) :
  JSON.parse data = Some d -> GetV d "text" = Normal text ->
  ToBoolean text = true ->
  onmessage Append data st
  = match append_text text (transcribedText st) with
    | Throw e => (Throw e, st)
    | Normal appended =>
        match detected (Get d "detected_lang") (Get d "confidence") with
        | Throw e => (Throw e, setTranscribedText (fun _ => appended) st)
        | Normal line =>
            (Normal (), setStatus line (setTranscribedText (fun _ => appended) st))
        end
    end.
Proof.
  intros Hp Hg Ht. unfold onmessage, detected. rewrite Hp, Hg, Ht.
  destruct (append_text text (transcribedText st)); [|done].
  destruct (ToString (Get d "detected_lang")); [|done].
  by destruct (ToString (Get d "confidence")).
Qed.

(** C8, as amended: the appending variant shows the language and the
    confidence of a message on the status line, and only when the text of
    the message is truthy and the line can be built.  After a message
    with a truthy text the line is the one built from the two fields of
    that message, whatever it was before, if the update of the transcript
    returns and both fields can be converted to strings, as fields can
    that are absent, [null], booleans, numbers or strings; if a field
    cannot be converted, the handler throws a [TypeError] with the
    transcript updated and the line as it was.  A message with an empty
    text leaves the line as it is, and the replacing variant never reads
    the two fields. *)
Theorem onmessage_detected (data : string) (d text : value) (st : App) :
  JSON.parse data = Some d -> GetV d "text" = Normal text ->
  status (snd (onmessage Append data st))
  = (if ToBoolean text
     then match append_text text (transcribedText st),
                detected (Get d "detected_lang") (Get d "confidence") with
          | Normal _, Normal line => line
          | _, _ => status st
          end
     else status st) /\
  (primitive (Get d "detected_lang") = true ->
   primitive (Get d "confidence") = true ->
   exists line, detected (Get d "detected_lang") (Get d "confidence") = Normal line) /\
  (forall appended e,
     ToBoolean text = true ->
     append_text text (transcribedText st) = Normal appended ->
     detected (Get d "detected_lang") (Get d "confidence") = Throw e ->
     onmessage Append data st
     = (Throw "TypeError", setTranscribedText (fun _ => appended) st)) /\
  (forall payloads appended line,
     ToBoolean text = true ->
     append_text text (transcribedText (aggregate Append payloads st))
     = Normal appended ->
     detected (Get d "detected_lang") (Get d "confidence") = Normal line ->
     status (aggregate Append (payloads ++ [data]) st) = line) /\
  status (snd (onmessage Replace data st)) = status st.
Proof.
  intros Hp Hg.
  assert (Hs : forall st', status (snd (onmessage Append data st'))
                           = if ToBoolean text
                             then match append_text text (transcribedText st'),
                                        detected (Get d "detected_lang")
                                          (Get d "confidence") with
                                  | Normal _, Normal line => line
                                  | _, _ => status st'
                                  end
                             else status st').
  { intros st'. destruct (ToBoolean text) eqn:Ht.
    - rewrite (onmessage_Append_truthy data d text st' Hp Hg Ht).
      destruct (append_text text (transcribedText st')); [|done].
      by destruct (detected _ _).
    - unfold onmessage. by rewrite Hp, Hg, Ht. }
  split; [apply Hs|]. split; [|split; [|split; [|apply status_onmessage_Replace]]].
  - intros Hl Hc. unfold detected.
    destruct (ToString_primitive _ Hl) as [l ->].
    destruct (ToString_primitive _ Hc) as [c ->]. by eexists.
  - intros appended e Ht Ha He.
    rewrite (onmessage_Append_truthy data d text st Hp Hg Ht), Ha, He.
    by rewrite (detected_TypeError _ _ _ He).
  - intros payloads appended line Ht Ha Hl.
    unfold aggregate. rewrite fold_left_app. cbn [fold_left].
    fold (aggregate Append payloads st). by rewrite Hs, Ht, Ha, Hl.
Qed.

Lemma onmessage_detected_witness :
  status (snd (onmessage Append
                 (json "{'text':'hello','detected_lang':'en','confidence':0.93}")
                 initial))
  = "Detected language: en (confidence: 0.93)" /\
  onmessage Append (json "{'text':'hello','detected_lang':{'toString':1}}") initial
  = (Throw "TypeError", setTranscribedText (fun _ => VString "hello") initial).
Proof.
  split.
  - exact (proj1 (onmessage_detected
                    (json "{'text':'hello','detected_lang':'en','confidence':0.93}")
                    (VObject [("text", VString "hello");
                              ("detected_lang", VString "en");
                              ("confidence", VNumber (Number.of_decimal false 93 (-2)))])
                    (VString "hello") initial eq_refl eq_refl)).
  - exact (proj1 (proj2 (proj2 (onmessage_detected
                    (json "{'text':'hello','detected_lang':{'toString':1}}")
                    (VObject [("text", VString "hello");
                              ("detected_lang",
                               VObject [("toString", VNumber (Number.of_decimal false 1 0))])])
                    (VString "hello") initial eq_refl eq_refl)))
             (VString "hello") "TypeError" eq_refl eq_refl eq_refl).
Defined.

(** C8 as stated fails: in the appending variant a message with an empty
    text leaves the status line of the message before it, whatever
    language and confidence it carries; in the replacing variant no
    message changes the line. *)
Lemma onmessage_drops_metadata :
  status
    (aggregate Append
       [(json "{'text':'hi','detected_lang':'en','confidence':0.5}");
        (json "{'text':'','detected_lang':'fr','confidence':0.9}")] initial)
  = "Detected language: en (confidence: 0.5)" /\
  status
    (aggregate Replace
       [(json "{'transcript':'hi','detected_lang':'fr','confidence':0.9}")] initial)
  = "" /\
  transcribedText
    (aggregate Replace
       [(json "{'transcript':'hi','detected_lang':'fr','confidence':0.9}")] initial)
  = VString "hi".
Proof. split; [|split]; vm_compute; reflexivity. Qed.

(** * The capture session *)

Lemma alter_as_insert {A} (f : A -> A) (l : list A) (i : nat) (x : A) :
  l !! i = Some x -> alter f i l = <[i := f x]> l.
Proof.
  revert i. induction l as [|y l IH]; intros [|i] Hi; try done.
  - cbn in Hi. by injection Hi as ->.
  - cbn in *. f_equal. by apply IH.
Qed.

Lemma alter_out_of_range {A} (f : A -> A) (l : list A) (i : nat) :
  l !! i = None -> alter f i l = l.
Proof.
  revert i. induction l as [|y l IH]; intros [|i] Hi; try done.
  cbn in *. f_equal. by apply IH.
Qed.

Lemma update_update {A} (ref : option nat) (f g : A -> A) (heap : list A) :
  update ref g (update ref f heap) = update ref (g ∘ f) heap.
Proof. destruct ref as [i|]; [|done]. cbn [update]. by rewrite list_alter_alter_eq. Qed.

Lemma update_ext {A} (ref : option nat) (f g : A -> A) (heap : list A) :
  (forall x, f x = g x) -> update ref f heap = update ref g heap.
Proof.
  intros H. destruct ref as [i|]; [|done]. cbn [update].
  apply list_alter_ext; [|done]. intros x _. apply H.
Qed.

Lemma release_release (ws : WebSocket) : release (release ws) = release ws.
Proof.
  destruct ws as [rs s [ac|] [p|]]; destruct rs; reflexivity.
Qed.

Lemma MediaRecorder_stop_stop (r : MediaRecorder) :
  MediaRecorder_stop (MediaRecorder_stop r) = MediaRecorder_stop r.
Proof. destruct r as [[] ?]; reflexivity. Qed.

Lemma stopRecording_stopped (strict : bool) (st : App) :
  stopRecording strict st = (Normal (), stopped st).
Proof.
  destruct st as [rec text stat blob sref mref rref chunks socks strs recs al enc].
  unfold stopRecording, stopped, current.
  cbn [socketRef mediaStreamRef mediaRecorderRef sockets streams recorders
       set_sockets set_streams set_recorders setRecording setStatus
       recording transcribedText status audioBlob audioChunksRef alerts encoded].
  rewrite !update_update.
  assert (Hs : update sref
                 ((fun ws => if audioContext ws then audioContext_close ws else ws)
                  ∘ (fun ws => if processor ws then processor_disconnect ws else ws)
                  ∘ WebSocket_close) socks
               = update sref release socks) by (by apply update_ext).
  rewrite Hs. clear Hs.
  destruct rref as [i|]; [|done]. cbn [update].
  destruct (recs !! i) as [r|] eqn:Hr.
  - rewrite (alter_as_insert _ recs i r Hr). unfold MediaRecorder_stop_call.
    destruct r as [[] stopping_]; cbn; try done.
    by rewrite list_insert_id.
  - by rewrite alter_out_of_range.
Qed.

(** C5, as amended: [stopRecording] never throws, whatever the state of
    the session and whether or not the user agent throws on stopping an
    inactive recorder; on a session that was never started it changes
    nothing but the status line, which it sets to [Stopped streaming.] (in
    the variant that uploads, nothing at all); and a second call in a row
    leaves the state exactly as the first left it. *)
Theorem stopRecording_idle (strict : bool) (st : App) :
  (exists st', stopRecording strict st = (Normal (), st')) /\
  (never_started st ->
   stopRecording strict st = (Normal (), setStatus "Stopped streaming." st) /\
   Upload.stopRecording strict st = (Normal (), st)) /\
  stopRecording strict (snd (stopRecording strict st)) = stopRecording strict st.
Proof.
  split; [rewrite stopRecording_stopped; eauto|]. split.
  - intros (Hs & Hm & Hr & Hrec). rewrite stopRecording_stopped.
    unfold Upload.stopRecording.
    destruct st as [rec text stat blob sref mref rref chunks socks strs recs al enc].
    cbn in Hs, Hm, Hr, Hrec. subst. done.
  - rewrite !stopRecording_stopped. cbn [snd]. f_equal.
    unfold stopped. cbn [socketRef mediaStreamRef mediaRecorderRef sockets streams
      recorders recording transcribedText status audioBlob audioChunksRef alerts encoded].
    rewrite !update_update. f_equal.
    + apply update_ext. intros ws. apply release_release.
    + apply update_ext. intros r. apply MediaRecorder_stop_stop.
Qed.

Lemma stopRecording_idle_witness :
  stopRecording true initial = (Normal (), setStatus "Stopped streaming." initial) /\
  Upload.stopRecording true initial = (Normal (), initial).
Proof.
  apply (proj1 (proj2 (stopRecording_idle true initial))).
  by repeat split.
Defined.

(** C5 as stated fails: on the session that was never started
    [stopRecording] is not without effect, it replaces the empty status
    line. *)
Lemma stopRecording_sets_status :
  never_started initial /\
  status initial = "" /\
  status (snd (stopRecording false initial)) = "Stopped streaming." /\
  snd (stopRecording false initial) <> initial.
Proof. repeat split; discriminate. Qed.

(** In the variant that uploads, the call of [stop] is not guarded: on
    a user agent that throws on stopping an inactive recorder, a second
    [stopRecording] in a row throws; on one that does not, it sets the
    status line once more. *)
Lemma Upload_stopRecording_twice :
  let st := Upload.startRecording Granted initial in
  exists st1,
    Upload.stopRecording true st = (Normal (), st1) /\
    Upload.stopRecording true st1 = (Throw "InvalidStateError", st1) /\
    Upload.stopRecording false st1
    = (Normal (), setStatus "Processing audio..." st1).
Proof. eexists. by vm_compute. Qed.

(** ** No activity before the channel opens *)

Lemma recording_onmessage (v : variant) (data : string) (st : App) :
  recording (snd (onmessage v data st)) = recording st.
Proof.
  unfold onmessage. destruct (JSON.parse data) as [d|]; [|done].
  destruct v.
  - destruct (GetV d "text") as [t|]; [|done]. appended t d.
  - destruct (GetV d "transcript") as [t|]; [|done]. by destruct (ToBoolean t).
Qed.

Lemma recording_onaudioprocess (v : variant) (inputData : list spec_float) (st : App) :
  recording (snd (onaudioprocess v inputData st)) = recording st.
Proof.
  unfold onaudioprocess, encode, send, WebSocket_send, current.
  destruct v; cbn [socketRef sockets];
    destruct (socketRef st) as [i|]; try done;
    destruct (sockets st !! i) as [ws|]; try done;
    by destruct (readyState ws).
Qed.

(** The flag [recording] goes up in the handler of [open] only. *)
Lemma recording_raised (v : variant) (strict : bool) (ev : event) (st : App) :
  recording st = false ->
  recording (snd (handle v strict ev st)) = true ->
  exists i ws,
    ev = Open i /\ sockets st !! i = Some ws /\ readyState ws = CONNECTING.
Proof.
  intros Hf Ht. destruct ev as [m| |i|i data|i|i|i inputData|i data|i|text];
    cbn [handle] in Ht.
  - destruct m; cbn in Ht; congruence.
  - rewrite stopRecording_stopped in Ht. done.
  - destruct (sockets st !! i) as [ws|] eqn:Hws; [|cbn in Ht; congruence].
    destruct (readyState ws) eqn:Hrs; try (cbn in Ht; congruence).
    by exists i, ws.
  - destruct (sockets st !! i) as [ws|]; [|cbn in Ht; congruence].
    destruct (readyState ws); try (cbn in Ht; congruence).
    rewrite recording_onmessage in Ht. congruence.
  - destruct (sockets st !! i) as [ws|]; [|cbn in Ht; congruence].
    destruct (readyState ws), v; cbn in Ht; congruence.
  - destruct (sockets st !! i) as [ws|]; cbn in Ht; congruence.
  - destruct (sockets st !! i) as [ws|]; [|cbn in Ht; congruence].
    destruct (processor ws) as [[]|], (audioContext ws) as [[]|];
      try (cbn in Ht; congruence).
    rewrite recording_onaudioprocess in Ht. congruence.
  - destruct (recorders st !! i) as [r|]; [|cbn in Ht; congruence].
    unfold ondataavailable in Ht.
    destruct (state r), (stopping r), (0 <? Z.of_nat (length data));
      cbn in Ht; congruence.
  - destruct (recorders st !! i) as [r|]; [|cbn in Ht; congruence].
    destruct (stopping r); cbn in Ht; congruence.
  - cbn in Ht. congruence.
Qed.

Lemma run_snoc (v : variant) (strict : bool) (evs : list event) (ev : event) (st : App) :
  run v strict (evs ++ [ev]) st = snd (handle v strict ev (run v strict evs st)).
Proof. unfold run. by rewrite fold_left_app. Qed.

Lemma sockets_onmessage (v : variant) (data : string) (st : App) :
  sockets (snd (onmessage v data st)) = sockets st.
Proof.
  unfold onmessage. destruct (JSON.parse data) as [d|]; [|done].
  destruct v.
  - destruct (GetV d "text") as [t|]; [|done]. appended t d.
  - destruct (GetV d "transcript") as [t|]; [|done]. by destruct (ToBoolean t).
Qed.

Lemma quiet_onaudioprocess (v : variant) (inputData : list spec_float) (st : App) :
  Forall quiet (sockets st) ->
  Forall quiet (sockets (snd (onaudioprocess v inputData st))).
Proof.
  intros Hq. unfold onaudioprocess, encode, send, WebSocket_send, current.
  destruct v; cbn [socketRef sockets];
    destruct (socketRef st) as [i|]; try done;
    destruct (sockets st !! i) as [ws|]; try done;
    destruct (readyState ws); try done;
    cbn [snd set_sockets sockets]; by apply Forall_insert.
Qed.

Lemma quiet_handle (v : variant) (strict : bool) (ev : event) (st : App) :
  Forall quiet (sockets st) ->
  Forall quiet (sockets (snd (handle v strict ev st))).
Proof.
  intros Hq. destruct ev as [m| |i|i data|i|i|i inputData|i data|i|text];
    cbn [handle].
  - destruct m; cbn; try done. apply Forall_app. split; [done|].
    by apply Forall_singleton.
  - rewrite stopRecording_stopped. cbn [snd stopped sockets].
    destruct (socketRef st) as [i|]; [|done]. cbn [update].
    apply Forall_alter; [done|]. intros ws _ _.
    unfold quiet, release, WebSocket_close.
    by destruct ws as [[] s [ac|] [p|]].
  - destruct (sockets st !! i) as [ws|]; [|done].
    destruct (readyState ws); try done.
    cbn. by apply Forall_insert.
  - destruct (sockets st !! i) as [ws|]; [|done].
    destruct (readyState ws); try done. by rewrite sockets_onmessage.
  - destruct (sockets st !! i) as [ws|]; [|done].
    destruct (readyState ws), v; try done; cbn; by apply Forall_insert.
  - destruct (sockets st !! i) as [ws|]; [|done]. cbn. by apply Forall_insert.
  - destruct (sockets st !! i) as [ws|]; [|done].
    destruct (processor ws) as [[]|], (audioContext ws) as [[]|]; try done.
    by apply quiet_onaudioprocess.
  - destruct (recorders st !! i) as [r|]; [|done]. unfold ondataavailable.
    by destruct (state r), (stopping r), (0 <? Z.of_nat (length data)).
  - destruct (recorders st !! i) as [r|]; [|done]. by destruct (stopping r).
  - done.
Qed.

Lemma quiet_run (v : variant) (strict : bool) (evs : list event) :
  Forall quiet (sockets (run v strict evs initial)).
Proof.
  induction evs as [|ev evs IH] using rev_ind; [by constructor|].
  rewrite run_snoc. by apply quiet_handle.
Qed.






(** The flag can go up while the socket in the ref is still connecting:
    after two starts in a row the handler of [open] of the first socket
    raises it. *)
Lemma recording_before_current_open :
  let st := run Append false
              [ClickStart Granted; ClickStart Granted; Open 0%nat] initial in
  recording st = true /\ socketRef st = Some 1%nat /\
  readyState <$> sockets st = [OPEN; CONNECTING].
Proof. by vm_compute. Qed.

(** In the replacing variant a block is encoded only while the socket of
    the session is open. *)
Lemma encoded_Replace (strict : bool) (ev : event) (st : App) :
  encoded (snd (handle Replace strict ev st)) <> encoded st ->
  exists i ws,
    socketRef st = Some i /\ sockets st !! i = Some ws /\ readyState ws = OPEN.
Proof.
  intros Hne. destruct ev as [m| |i|i data|i|i|i inputData|i data|i|text];
    cbn [handle] in Hne.
  - by destruct m.
  - by rewrite stopRecording_stopped in Hne.
  - destruct (sockets st !! i) as [ws|]; [|done]. by destruct (readyState ws).
  - destruct (sockets st !! i) as [ws|]; [|done].
    destruct (readyState ws); try done. unfold onmessage in Hne.
    destruct (JSON.parse data) as [d|]; [|done].
    destruct (GetV d "transcript") as [t|]; [|done]. by destruct (ToBoolean t).
  - destruct (sockets st !! i) as [ws|]; [|done]. by destruct (readyState ws).
  - by destruct (sockets st !! i) as [ws|].
  - destruct (sockets st !! i) as [ws|]; [|done].
    destruct (processor ws) as [[]|], (audioContext ws) as [[]|]; try done.
    unfold onaudioprocess, current in Hne.
    destruct (socketRef st) as [j|]; [|done].
    destruct (sockets st !! j) as [ws'|] eqn:Hj; [|done].
    destruct (readyState ws') eqn:Hrs; try done. by exists j, ws'.
  - destruct (recorders st !! i) as [r|]; [|done]. unfold ondataavailable in Hne.
    by destruct (state r), (stopping r), (0 <? Z.of_nat (length data)).
  - destruct (recorders st !! i) as [r|]; [|done]. by destruct (stopping r).
  - done.
Qed.

(** C6, as amended: the flag [recording] goes up only in the handler of
    [open], run on a socket that was connecting, so a session is not
    active before a channel reported open; and a socket that is still
    connecting has sent no frame.  The replacing variant encodes a block
    only while the socket is open; the appending variant encodes every
    block, also before, and drops the frame. *)
Theorem active_only_after_open (v : variant) (strict : bool) (evs : list event) :
  (forall ev st,
     recording st = false -> recording (snd (handle v strict ev st)) = true ->
     exists i ws,
       ev = Open i /\ sockets st !! i = Some ws /\ readyState ws = CONNECTING) /\
  (recording (run v strict evs initial) = true -> exists i, Open i ∈ evs) /\
  (forall i ws,
     sockets (run v strict evs initial) !! i = Some ws ->
     readyState ws = CONNECTING -> sent ws = []) /\
  (forall ev st,
     encoded (snd (handle Replace strict ev st)) <> encoded st ->
     exists i ws,
       socketRef st = Some i /\ sockets st !! i = Some ws /\ readyState ws = OPEN).
Proof.
  split; [apply recording_raised|]. split; [|split; [|apply encoded_Replace]].
  - induction evs as [|ev evs IH] using rev_ind; [done|].
    rewrite run_snoc. intros Ht.
    destruct (recording (run v strict evs initial)) eqn:Hr.
    + destruct IH as [i Hi]; [done|]. exists i. apply elem_of_app. by left.
    + destruct (recording_raised v strict ev _ Hr Ht) as (i & ws & -> & _).
      exists i. apply elem_of_app. right. by apply list_elem_of_singleton.
  - intros i ws Hi. pose proof (quiet_run v strict evs) as Hq.
    rewrite Forall_forall in Hq. apply Hq. by apply list_elem_of_lookup_2 in Hi.
Qed.

Lemma active_only_after_open_witness :
  exists i, Open i ∈ [ClickStart Granted; Open 0%nat].
Proof.
  apply (proj1 (proj2 (active_only_after_open Append false
                         [ClickStart Granted; Open 0%nat]))).
  reflexivity.
Defined.

(** C6 as stated fails in the appending variant: a block that arrives
    while the socket is connecting is encoded, though the session is not
    active and nothing is sent. *)
Lemma encoded_before_open :
  let st := run Append false [ClickStart Granted; AudioProcess 0%nat [quarter]] initial in
  encoded st = [convertFloat32ToInt16 [quarter]] /\
  readyState <$> sockets st = [CONNECTING] /\
  sent <$> sockets st = [[]] /\
  recording st = false.
Proof. by vm_compute. Qed.

(** ** Which handlers throw *)

Lemma parse_value_defined (f : nat) :
  (forall s v r, JSON.parse_value f s = Some (v, r) -> defined v) /\
  (forall s acc v r, JSON.parse_elements f s acc = Some (v, r) -> defined v) /\
  (forall s acc v r, JSON.parse_members f s acc = Some (v, r) -> defined v).
Proof.
  induction f as [|f (IHv & IHe & IHm)]; [done|].
  split; [|split].
  - intros s v r. cbn [JSON.parse_value].
    destruct (JSON.skip_ws s) as [|c rest]; [done|].
    destruct (Ascii.eqb c "{").
    { destruct (JSON.skip_char "}" "}" _); [by intros [= <- _]|apply IHm]. }
    destruct (Ascii.eqb c "[").
    { destruct (JSON.skip_char "]" "]" _); [by intros [= <- _]|apply IHe]. }
    destruct (Ascii.eqb c "034").
    { destruct (JSON.parse_string rest) as [[t r']|]; [|done]. by intros [= <- _]. }
    unfold JSON.literal.
    destruct (Ascii.eqb c "t").
    { destruct (JSON.strip _ _); [|done]. by intros [= <- _]. }
    destruct (Ascii.eqb c "f").
    { destruct (JSON.strip _ _); [|done]. by intros [= <- _]. }
    destruct (Ascii.eqb c "n").
    { destruct (JSON.strip _ _); [|done]. by intros [= <- _]. }
    unfold JSON.parse_number.
    destruct (JSON.skip_char "-" "-" _);
      destruct (JSON.parse_digits _ 0 0) as [[int icount] s1];
      (destruct (_ || _); [done|]);
      (destruct (JSON.skip_char "." "." s1);
       [destruct (JSON.parse_digits _ int 0) as [[m fcount] r'];
        (destruct (fcount =? 0); [done|])|]);
      (destruct (JSON.skip_char "e" "E" _); [|by intros [= <- _]]);
      (destruct (JSON.skip_char "-" "-" _);
       [|destruct (JSON.skip_char "+" "+" _)]);
      destruct (JSON.parse_digits _ 0 0) as [[e ecount] r''];
      (destruct (ecount =? 0); [done|]); by intros [= <- _].
  - intros s acc v0 r. cbn [JSON.parse_elements].
    destruct (JSON.parse_value f s) as [[v rest]|]; [|done].
    destruct (JSON.skip_char "," "," _); [apply IHe|].
    destruct (JSON.skip_char "]" "]" _); [|done]. by intros [= <- _].
  - intros s acc v0 r. cbn [JSON.parse_members].
    destruct (JSON.skip_char "034" "034" _) as [rest|]; [|done].
    destruct (JSON.parse_string rest) as [[key rest1]|]; [|done].
    destruct (JSON.skip_char ":" ":" _) as [rest2|]; [|done].
    destruct (JSON.parse_value f rest2) as [[v rest3]|]; [|done].
    destruct (JSON.skip_char "," "," _); [apply IHm|].
    destruct (JSON.skip_char "}" "}" _); [|done]. by intros [= <- _].
Qed.

Lemma parse_defined (text : string) (d : value) :
  JSON.parse text = Some d -> defined d.
Proof.
  unfold JSON.parse.
  destruct (JSON.parse_value _ text) as [[v rest]|] eqn:Hv; [|done].
  destruct (JSON.skip_ws rest); [|done]. intros [= <-].
  by apply (proj1 (parse_value_defined _) _ _ _ Hv).
Qed.








(** ** What is transmitted *)


Lemma sent_insert (l : list WebSocket) (i : nat) (ws ws' : WebSocket) :
  l !! i = Some ws -> sent ws' = sent ws ->
  sent <$> <[i := ws']> l = sent <$> l.
Proof.
  intros Hi Hs. rewrite list_fmap_insert, Hs.
  apply list_insert_id. by rewrite list_lookup_fmap, Hi.
Qed.

Lemma sent_update (ref : option nat) (f : WebSocket -> WebSocket)
    (l : list WebSocket) :
  (forall ws, sent (f ws) = sent ws) ->
  sent <$> update ref f l = sent <$> l.
Proof.
  intros Hf. destruct ref as [i|]; [|done]. cbn [update].
  destruct (l !! i) as [ws|] eqn:Hi.
  - rewrite (alter_as_insert f l i ws Hi). by apply (sent_insert l i ws).
  - by rewrite alter_out_of_range.
Qed.

Lemma sent_release (ws : WebSocket) : sent (release ws) = sent ws.
Proof. by destruct ws as [[] s [ac|] [p|]]. Qed.

(** The frames of the sockets after one event: as before; or with a new
    socket that has sent nothing; or with the frame of the block added to
    the frames of the socket in the ref, which is open. *)
Lemma sent_handle (v : variant) (strict : bool) (ev : event) (st : App) :
  sent <$> sockets (snd (handle v strict ev st)) = sent <$> sockets st \/
  (ev = ClickStart Granted /\
   sent <$> sockets (snd (handle v strict ev st)) = (sent <$> sockets st) ++ [[]]) \/
  (exists i j ws inputData,
     ev = AudioProcess i inputData /\ socketRef st = Some j /\
     sockets st !! j = Some ws /\ readyState ws = OPEN /\
     sent <$> sockets (snd (handle v strict ev st))
     = <[j := sent ws ++ [convertFloat32ToInt16 inputData]]> (sent <$> sockets st)).
Proof.
  destruct ev as [m| |i|i data|i|i|i inputData|i data|i|text]; cbn [handle].
  - destruct m; [by left|by left|]. right. left. split; [done|].
    cbn. by rewrite fmap_app.
  - left. rewrite stopRecording_stopped. cbn [snd stopped sockets].
    apply sent_update, sent_release.
  - left. destruct (sockets st !! i) as [ws|] eqn:Hi; [|done].
    destruct (readyState ws); try done. cbn. by apply (sent_insert _ _ ws).
  - left. destruct (sockets st !! i) as [ws|]; [|done].
    destruct (readyState ws); try done. by rewrite sockets_onmessage.
  - left. destruct (sockets st !! i) as [ws|] eqn:Hi; [|done].
    destruct (readyState ws), v; try done; cbn; by apply (sent_insert _ _ ws).
  - left. destruct (sockets st !! i) as [ws|] eqn:Hi; [|done].
    cbn. by apply (sent_insert _ _ ws).
  - destruct (sockets st !! i) as [ws|]; [|by left].
    destruct (processor ws) as [[]|], (audioContext ws) as [[]|]; try (by left).
    unfold onaudioprocess, encode, send, WebSocket_send, current.
    destruct v; cbn [socketRef sockets];
      (destruct (socketRef st) as [j|] eqn:Hj; [|by left]);
      (destruct (sockets st !! j) as [ws'|] eqn:Hws'; [|by left]);
      (destruct (readyState ws') eqn:Hrs; try (by left));
      right; right; exists i, j, ws', inputData;
      repeat (split; [done|]); cbn; by rewrite list_fmap_insert.
  - left. destruct (recorders st !! i) as [r|]; [|done]. unfold ondataavailable.
    by destruct (state r), (stopping r), (0 <? Z.of_nat (length data)).
  - left. destruct (recorders st !! i) as [r|]; [|done]. by destruct (stopping r).
  - by left.
Qed.

Lemma blocks_snoc (evs : list event) (ev : event) :
  blocks (evs ++ [ev]) = blocks evs ++ blocks [ev].
Proof. unfold blocks. by rewrite omap_app. Qed.

(** X6: what a socket transmitted is, in order, part of what the
    processors delivered: in every session the frames sent on a socket
    are encodings of delivered blocks, each block at most once, in the
    order of delivery; nothing else is ever sent and no frame overtakes
    another. *)
Theorem frames_in_order (v : variant) (strict : bool) (evs : list event) :
  Forall (fun frames => sublist frames (convertFloat32ToInt16 <$> blocks evs))
    (sent <$> sockets (run v strict evs initial)).
Proof.
  induction evs as [|ev evs IH] using rev_ind; [by constructor|].
  rewrite run_snoc, blocks_snoc, fmap_app.
  set (st := run v strict evs initial) in *.
  assert (Hw : Forall (fun frames =>
                 sublist frames
                   ((convertFloat32ToInt16 <$> blocks evs)
                    ++ (convertFloat32ToInt16 <$> blocks [ev])))
                 (sent <$> sockets st)).
  { eapply Forall_impl; [exact IH|]. intros frames Hf. by apply sublist_inserts_r. }
  destruct (sent_handle v strict ev st)
    as [->|[[-> ->]|(i & j & ws & inputData & -> & Hj & Hws & Hrs & ->)]].
  - done.
  - apply Forall_app. split; [done|]. apply Forall_singleton, sublist_nil_l.
  - apply Forall_insert; [done|]. cbn.
    apply sublist_app; [|done].
    apply (Forall_lookup_1 _ _ j (sent ws) IH).
    by rewrite list_lookup_fmap, Hws.
Qed.

Lemma closing_ext (st st' : App) :
  socketRef st' = socketRef st -> sockets st' = sockets st ->
  closing st -> closing st'.
Proof. unfold closing. by intros -> ->. Qed.

Lemma closing_onaudioprocess (v : variant) (inputData : list spec_float) (st : App) :
  closing st ->
  socketRef (snd (onaudioprocess v inputData st)) = socketRef st /\
  sockets (snd (onaudioprocess v inputData st)) = sockets st.
Proof.
  intros Hc. unfold onaudioprocess, encode, send, WebSocket_send, current.
  destruct v; cbn [socketRef sockets];
    (destruct (socketRef st) as [j|] eqn:Hj; [|done]);
    (destruct (sockets st !! j) as [ws'|] eqn:Hws'; [|done]);
    destruct (Hc j ws' Hj Hws') as [Hrs|Hrs]; by rewrite Hrs.
Qed.

Lemma closing_handle (v : variant) (strict : bool) (ev : event) (st : App) :
  is_start ev = false -> closing st -> closing (snd (handle v strict ev st)).
Proof.
  intros Hev Hc.
  assert (Hins : forall i ws ws',
            sockets st !! i = Some ws ->
            (readyState ws = CLOSING \/ readyState ws = CLOSED ->
             readyState ws' = CLOSING \/ readyState ws' = CLOSED) ->
            closing (set_sockets (<[i := ws']> (sockets st)) st)).
  { intros i ws ws' Hi Hrs j w Hj. cbn in Hj |- *.
    destruct (decide (i = j)) as [->|Hne].
    - rewrite list_lookup_insert_eq by (by eapply lookup_lt_Some).
      intros [= <-]. apply Hrs. by apply (Hc j).
    - rewrite list_lookup_insert_ne by done. by apply Hc. }
  destruct ev as [m| |i|i data|i|i|i inputData|i data|i|text]; cbn [handle].
  - done.
  - rewrite stopRecording_stopped. intros j w. cbn [snd stopped socketRef sockets].
    intros Hj. rewrite Hj. cbn [update]. rewrite list_lookup_alter_eq.
    destruct (sockets st !! j) as [ws|]; [|done]. intros [= <-].
    destruct ws as [[] s [ac|] [p|]]; cbn; auto.
  - destruct (sockets st !! i) as [ws|] eqn:Hi; [|done].
    destruct (readyState ws) eqn:Hrs; try done.
    intros j w Hj Hw. apply (Hins i ws (set_readyState OPEN ws) Hi) with j; try done.
    intros [?|?]; congruence.
  - destruct (sockets st !! i) as [ws|]; [|done].
    destruct (readyState ws); try done.
    intros j w. unfold onmessage.
    destruct (JSON.parse data) as [d|]; [|apply Hc]. destruct v.
    + destruct (GetV d "text") as [t|]; [|apply Hc].
      destruct (ToBoolean t); [|apply Hc].
      destruct (append_text t _); [|apply Hc].
      destruct (ToString (Get d "detected_lang")); [|apply Hc].
      destruct (ToString (Get d "confidence")); apply Hc.
    + destruct (GetV d "transcript") as [t|]; [|apply Hc].
      destruct (ToBoolean t); apply Hc.
  - destruct (sockets st !! i) as [ws|] eqn:Hi; [|done].
    destruct (readyState ws), v; try done;
      intros j w Hj Hw;
      (apply (Hins i ws (set_readyState CLOSED ws) Hi) with j; [by right|done..]).
  - destruct (sockets st !! i) as [ws|] eqn:Hi; [|done].
    intros j w Hj Hw.
    apply (Hins i ws (set_readyState CLOSED ws) Hi) with j; [by right|done..].
  - destruct (sockets st !! i) as [ws|]; [|done].
    destruct (processor ws) as [[]|], (audioContext ws) as [[]|]; try done.
    destruct (closing_onaudioprocess v inputData st Hc) as [H1 H2].
    by apply (closing_ext st).
  - destruct (recorders st !! i) as [r|]; [|done]. unfold ondataavailable.
    by destruct (state r), (stopping r), (0 <? Z.of_nat (length data)).
  - destruct (recorders st !! i) as [r|]; [|done]. by destruct (stopping r).
  - done.
Qed.

Lemma closing_sent (v : variant) (strict : bool) (evs : list event) (st : App) :
  Forall (fun ev => is_start ev = false) evs -> closing st ->
  sent <$> sockets (run v strict evs st) = sent <$> sockets st.
Proof.
  intros Hevs. revert st.
  induction Hevs as [|ev evs Hev _ IH]; intros st Hc; [done|].
  change (run v strict (ev :: evs) st)
    with (run v strict evs (snd (handle v strict ev st))).
  rewrite IH by (by apply closing_handle).
  destruct (sent_handle v strict ev st)
    as [->|[[-> _]|(i & j & ws & inputData & -> & Hj & Hws & Hrs & _)]];
    try done.
  destruct (Hc j ws Hj Hws); congruence.
Qed.

Lemma closing_stopped (st : App) : closing (stopped st).
Proof.
  intros j w. cbn [stopped socketRef sockets]. intros Hj. rewrite Hj.
  cbn [update]. rewrite list_lookup_alter_eq.
  destruct (sockets st !! j) as [ws|]; [|done]. intros [= <-].
  destruct ws as [[] s [ac|] [p|]]; cbn; auto.
Qed.

(** X7: after [stopRecording], and until Start is clicked again,
    nothing is transmitted: whatever events follow (blocks from a
    processor that still runs, a late [open] of the socket, messages,
    errors), every socket has sent exactly what it had sent when
    [stopRecording] returned. *)
Theorem no_frame_after_stop (v : variant) (strict : bool) (evs : list event)
    (st : App) :
  Forall (fun ev => is_start ev = false) evs ->
  sent <$> sockets (run v strict (ClickStop :: evs) st)
  = sent <$> sockets st.
Proof.
  intros Hevs.
  change (run v strict (ClickStop :: evs) st)
    with (run v strict evs (snd (stopRecording strict st))).
  rewrite stopRecording_stopped. cbn [snd].
  rewrite closing_sent by (done || apply closing_stopped).
  cbn [stopped sockets]. apply sent_update, sent_release.
Qed.

Lemma no_frame_after_stop_witness :
  let st := run Append false
              [ClickStart Granted; Open 0%nat; AudioProcess 0%nat [quarter]] initial in
  sent <$> sockets (run Append false
                      [ClickStop; AudioProcess 0%nat [quarter]; Open 0%nat;
                       AudioProcess 0%nat [minus_three_halves]] st)
  = sent <$> sockets st.
Proof.
  apply (no_frame_after_stop Append false
           [AudioProcess 0%nat [quarter]; Open 0%nat;
            AudioProcess 0%nat [minus_three_halves]]).
  repeat constructor.
Defined.

(** ** What [stopRecording] releases, and what nothing else does *)

Lemma lookup_update_eq {A} (f : A -> A) (l : list A) (i : nat) :
  update (Some i) f l !! i = f <$> l !! i.
Proof. cbn [update]. apply list_lookup_alter_eq. Qed.

Lemma lookup_update_ne {A} (ref : option nat) (f : A -> A) (l : list A) (i : nat) :
  ref <> Some i -> update ref f l !! i = l !! i.
Proof.
  intros Hne. destruct ref as [j|]; [|done]. cbn [update].
  apply list_lookup_alter_ne. congruence.
Qed.

(** X8: [stopRecording] releases what the refs hold and nothing else.
    After it the flag [recording] is down; the socket in the ref is
    neither connecting nor open, its processor is not connected and its
    audio context is not running; the stream in the ref is stopped; the
    recorder in the ref is inactive.  Every other socket, stream and
    recorder is as it was. *)
Theorem stopRecording_releases (strict : bool) (st : App) :
  let st' := snd (stopRecording strict st) in
  recording st' = false /\
  (forall i ws,
     socketRef st = Some i -> sockets st' !! i = Some ws ->
     readyState ws <> CONNECTING /\ readyState ws <> OPEN /\
     processor ws <> Some true /\ audioContext ws <> Some running) /\
  (forall i s, mediaStreamRef st = Some i -> streams st' !! i = Some s -> s = false) /\
  (forall i r,
     mediaRecorderRef st = Some i -> recorders st' !! i = Some r ->
     state r = inactive) /\
  (forall i, socketRef st <> Some i -> sockets st' !! i = sockets st !! i) /\
  (forall i, mediaStreamRef st <> Some i -> streams st' !! i = streams st !! i) /\
  (forall i, mediaRecorderRef st <> Some i -> recorders st' !! i = recorders st !! i).
Proof.
  rewrite stopRecording_stopped. cbn [snd stopped recording sockets streams recorders].
  split; [done|]. split; [|split; [|split; [|split; [|split]]]].
  - intros i ws ->. rewrite lookup_update_eq.
    destruct (sockets st !! i) as [w|]; [|done]. intros [= <-].
    by destruct w as [[] s [[]|] [[]|]].
  - intros i s ->. rewrite lookup_update_eq.
    destruct (streams st !! i); [|done]. by intros [= <-].
  - intros i r ->. rewrite lookup_update_eq.
    destruct (recorders st !! i) as [w|]; [|done]. intros [= <-].
    by destruct w as [[] ?].
  - intros i Hi. by apply lookup_update_ne.
  - intros i Hi. by apply lookup_update_ne.
  - intros i Hi. by apply lookup_update_ne.
Qed.

Lemma stopRecording_releases_witness :
  let ws := {| readyState := CLOSING; sent := []; audioContext := Some closed;
               processor := Some false |} in
  readyState ws <> CONNECTING /\ readyState ws <> OPEN /\
  processor ws <> Some true /\ audioContext ws <> Some running.
Proof.
  exact (proj1 (proj2 (stopRecording_releases false
                         (run Append false [ClickStart Granted; Open 0%nat] initial)))
           0%nat _ eq_refl eq_refl).
Defined.

(** X9: a second start does not release the first: when Start is
    clicked twice in a row (the button stays until a socket opens) and
    then [stopRecording] runs, the socket, the stream and the recorder of
    the first start are still as the first start made them: the socket
    connecting with its processor connected and its context running, the
    stream live, the recorder recording. *)
Theorem second_start_leaks_first (v : variant) (strict : bool) (st : App) :
  let st' := run v strict [ClickStart Granted; ClickStart Granted; ClickStop] st in
  sockets st' !! length (sockets st)
  = Some {| readyState := CONNECTING; sent := []; audioContext := Some running;
            processor := Some true |} /\
  streams st' !! length (streams st) = Some true /\
  recorders st' !! length (recorders st)
  = Some {| state := recording_; stopping := false |}.
Proof.
  cbn [run fold_left handle]. rewrite stopRecording_stopped.
  cbn [snd stopped startRecording set_refs set_sockets set_streams set_recorders
       sockets streams recorders socketRef mediaStreamRef mediaRecorderRef].
  rewrite !lookup_update_ne by (rewrite !length_app; cbn; intros [=]; lia).
  rewrite <- !app_assoc.
  by rewrite !(lookup_app_r _ _ (length _)), !Nat.sub_diag by lia.
Qed.

Lemma fmap_insert_same {A B} (f : A -> B) (l : list A) (i : nat) (x y : A) :
  l !! i = Some x -> f y = f x -> f <$> <[i := y]> l = f <$> l.
Proof.
  intros Hi Hf. rewrite list_fmap_insert, Hf.
  apply list_insert_id. by rewrite list_lookup_fmap, Hi.
Qed.

Lemma onmessage_capture (v : variant) (data : string) (st : App) :
  streams (snd (onmessage v data st)) = streams st /\
  recorders (snd (onmessage v data st)) = recorders st.
Proof.
  unfold onmessage. destruct (JSON.parse data) as [d|]; [|done].
  destruct v.
  - destruct (GetV d "text") as [t|]; [|done]. appended t d.
  - destruct (GetV d "transcript") as [t|]; [|done]. by destruct (ToBoolean t).
Qed.

Lemma onaudioprocess_capture (v : variant) (inputData : list spec_float) (st : App) :
  streams (snd (onaudioprocess v inputData st)) = streams st /\
  recorders (snd (onaudioprocess v inputData st)) = recorders st /\
  graph <$> sockets (snd (onaudioprocess v inputData st)) = graph <$> sockets st.
Proof.
  unfold onaudioprocess, encode, send, WebSocket_send, current.
  destruct v; cbn [socketRef sockets];
    (destruct (socketRef st) as [j|]; [|done]);
    (destruct (sockets st !! j) as [ws|] eqn:Hws; [|done]);
    destruct (readyState ws); try done;
    cbn; repeat (split; [done|]); by apply (fmap_insert_same graph _ _ ws).
Qed.

(** The objects of the capture after an event other than a click on
    Stop: as before, or with the new objects of a start. *)
Lemma capture_handle (v : variant) (strict : bool) (ev : event) (st : App) :
  ev <> ClickStop ->
  (streams (snd (handle v strict ev st)) = streams st /\
   state <$> recorders (snd (handle v strict ev st)) = state <$> recorders st /\
   graph <$> sockets (snd (handle v strict ev st)) = graph <$> sockets st) \/
  (ev = ClickStart Granted /\
   streams (snd (handle v strict ev st)) = streams st ++ [true] /\
   state <$> recorders (snd (handle v strict ev st))
   = (state <$> recorders st) ++ [recording_] /\
   graph <$> sockets (snd (handle v strict ev st))
   = (graph <$> sockets st) ++ [(Some running, Some true)]).
Proof.
  intros Hev.
  destruct ev as [m| |i|i data|i|i|i inputData|i data|i|text]; cbn [handle];
    try done.
  - destruct m; [by left|by left|]. right. cbn. by rewrite !fmap_app.
  - left. destruct (sockets st !! i) as [ws|] eqn:Hi; [|done].
    destruct (readyState ws); try done. cbn. repeat (split; [done|]).
    by apply (fmap_insert_same graph _ _ ws).
  - left. destruct (sockets st !! i) as [ws|]; [|done].
    destruct (readyState ws); try done.
    destruct (onmessage_capture v data st) as [-> ->].
    by rewrite sockets_onmessage.
  - left. destruct (sockets st !! i) as [ws|] eqn:Hi; [|done].
    destruct (readyState ws), v; try done; cbn; repeat (split; [done|]);
      by apply (fmap_insert_same graph _ _ ws).
  - left. destruct (sockets st !! i) as [ws|] eqn:Hi; [|done].
    cbn. repeat (split; [done|]). by apply (fmap_insert_same graph _ _ ws).
  - left. destruct (sockets st !! i) as [ws|]; [|done].
    destruct (processor ws) as [[]|], (audioContext ws) as [[]|]; try done.
    destruct (onaudioprocess_capture v inputData st) as (-> & -> & ->). done.
  - left. destruct (recorders st !! i) as [r|]; [|done]. unfold ondataavailable.
    by destruct (state r), (stopping r), (0 <? Z.of_nat (length data)).
  - left. destruct (recorders st !! i) as [r|] eqn:Hi; [|done].
    destruct (stopping r); [|done]. cbn. repeat (split; [done|]).
    split; [|done]. by apply (fmap_insert_same state _ _ r).
  - by left.
Qed.

Lemma recording_kept (v : variant) (strict : bool) (ev : event) (st : App) :
  ev <> ClickStop -> is_open ev = false ->
  recording (snd (handle v strict ev st)) = recording st.
Proof.
  intros Hev Hop.
  destruct ev as [m| |i|i data|i|i|i inputData|i data|i|text]; cbn [handle];
    try done.
  - by destruct m.
  - destruct (sockets st !! i) as [ws|]; [|done].
    destruct (readyState ws); try done. apply recording_onmessage.
  - destruct (sockets st !! i) as [ws|]; [|done].
    by destruct (readyState ws), v.
  - by destruct (sockets st !! i) as [ws|].
  - destruct (sockets st !! i) as [ws|]; [|done].
    destruct (processor ws) as [[]|], (audioContext ws) as [[]|]; try done.
    apply recording_onaudioprocess.
  - destruct (recorders st !! i) as [r|]; [|done]. unfold ondataavailable.
    by destruct (state r), (stopping r), (0 <? Z.of_nat (length data)).
  - destruct (recorders st !! i) as [r|]; [|done]. by destruct (stopping r).
Qed.

Lemma recording_not_lowered (v : variant) (strict : bool) (ev : event) (st : App) :
  ev <> ClickStop -> recording st = true ->
  recording (snd (handle v strict ev st)) = true.
Proof.
  intros Hev Hr. destruct (is_open ev) eqn:Hop.
  - destruct ev as [m| |i|i data|i|i|i inputData|i data|i|text]; try done.
    cbn [handle]. destruct (sockets st !! i) as [ws|]; [|done].
    by destruct (readyState ws).
  - by rewrite recording_kept.
Qed.

(** X10: only [stopRecording] releases anything.  An event other than
    a click on Stop (an error or the close of the channel, a message, a
    block, a chunk, a second start) does not lower the flag [recording],
    stops no stream, makes no recorder inactive, disconnects no processor
    and closes no audio context: each of these lists is as before, with
    at most the objects of a new start added at its end. *)
Theorem only_stop_releases (v : variant) (strict : bool) (ev : event) (st : App) :
  ev <> ClickStop ->
  (recording st = true -> recording (snd (handle v strict ev st)) = true) /\
  streams st `prefix_of` streams (snd (handle v strict ev st)) /\
  (state <$> recorders st)
    `prefix_of` (state <$> recorders (snd (handle v strict ev st))) /\
  (graph <$> sockets st)
    `prefix_of` (graph <$> sockets (snd (handle v strict ev st))).
Proof.
  intros Hev. split; [by apply recording_not_lowered|].
  destruct (capture_handle v strict ev st Hev)
    as [(-> & -> & ->)|(_ & -> & -> & ->)]; [done|].
  repeat split; by apply prefix_app_r.
Qed.

Lemma only_stop_releases_witness :
  let st := run Append false [ClickStart Granted; Open 0%nat] initial in
  recording (snd (handle Append false (Error 0%nat) st)) = true /\
  streams st `prefix_of` streams (snd (handle Append false (Error 0%nat) st)) /\
  (state <$> recorders st)
    `prefix_of` (state <$> recorders (snd (handle Append false (Error 0%nat) st))) /\
  (graph <$> sockets st)
    `prefix_of` (graph <$> sockets (snd (handle Append false (Error 0%nat) st))).
Proof.
  intros st.
  destruct (only_stop_releases Append false (Error 0%nat) st ltac:(discriminate))
    as (H1 & H2). split; [by apply H1|exact H2].
Defined.

(** X11: until a socket opens, nothing the user can do releases the
    microphone.  The Stop button is rendered only while [recording] is
    true, and [recording] goes up only when a socket opens; so in a
    session in which no socket has opened yet (the server is down, say),
    whatever the user clicks and whatever else happens, the flag is
    still down, and every stream that a start obtained is live, every
    recorder still records, every processor is connected and every audio
    context runs. *)
Theorem no_open_no_release (v : variant) (strict : bool) (evs : list event) :
  feasible v strict evs initial ->
  Forall (fun ev => is_open ev = false) evs ->
  let st := run v strict evs initial in
  recording st = false /\
  Forall (fun live => live = true) (streams st) /\
  Forall (fun s => s = recording_) (state <$> recorders st) /\
  Forall (fun g => g = (Some running, Some true)) (graph <$> sockets st).
Proof.
  intros Hf Hop. cbn zeta.
  assert (H : forall st,
    feasible v strict evs st ->
    recording st = false /\
    Forall (fun live => live = true) (streams st) /\
    Forall (fun s => s = recording_) (state <$> recorders st) /\
    Forall (fun g => g = (Some running, Some true)) (graph <$> sockets st) ->
    recording (run v strict evs st) = false /\
    Forall (fun live => live = true) (streams (run v strict evs st)) /\
    Forall (fun s => s = recording_) (state <$> recorders (run v strict evs st)) /\
    Forall (fun g => g = (Some running, Some true))
      (graph <$> sockets (run v strict evs st))).
  { clear Hf. induction Hop as [|ev evs Hev _ IH]; intros st Hf HI; [done|].
    destruct Hf as [Hen Hf]. destruct HI as (Hr & Hs & Hrec & Hg).
    change (run v strict (ev :: evs) st)
      with (run v strict evs (snd (handle v strict ev st))).
    assert (Hns : ev <> ClickStop).
    { intros ->. cbn in Hen. congruence. }
    apply IH; [done|].
    split; [by rewrite recording_kept|].
    destruct (capture_handle v strict ev st Hns)
      as [(-> & -> & ->)|(_ & -> & -> & ->)]; [done|].
    repeat split; (apply Forall_app; split; [done|by apply Forall_singleton]). }
  apply H; [done|]. by repeat split.
Qed.

Lemma no_open_no_release_witness :
  let st := run Append false
              [ClickStart Granted; Error 0%nat; ClickStart Granted] initial in
  recording st = false /\
  Forall (fun live => live = true) (streams st) /\
  Forall (fun s => s = recording_) (state <$> recorders st) /\
  Forall (fun g => g = (Some running, Some true)) (graph <$> sockets st).
Proof.
  apply (no_open_no_release Append false
           [ClickStart Granted; Error 0%nat; ClickStart Granted]).
  - cbn. done.
  - repeat constructor.
Defined.

(** ** The recorded audio *)


(** While the recorder [r] is active or its [stop] event is queued, and
    nobody clicks, the recorders stay as they are and the chunks of the
    events are added to the chunks kept. *)
Lemma during_handle (v : variant) (strict : bool) (r : nat) (ev : event)
    (st : App) (rec : MediaRecorder) :
  during r ev = true -> recorders st !! r = Some rec ->
  state rec <> inactive \/ stopping rec = true ->
  recorders (snd (handle v strict ev st)) = recorders st /\
  concat (audioChunksRef (snd (handle v strict ev st)))
  = concat (audioChunksRef st) ++ concat (chunks [ev]).
Proof.
  intros Hev Hr Hrec.
  destruct ev as [m| |i|i data|i|i|i inputData|i data|i|text]; cbn [handle];
    try done; cbn [chunks omap]; rewrite ?app_nil_r.
  - destruct (sockets st !! i) as [ws|]; [|done]. by destruct (readyState ws).
  - destruct (sockets st !! i) as [ws|]; [|done].
    destruct (readyState ws); try done. unfold onmessage.
    destruct (JSON.parse data) as [d|]; [|done]. destruct v.
    + destruct (GetV d "text") as [t|]; [|done]. appended t d.
    + destruct (GetV d "transcript") as [t|]; [|done]. by destruct (ToBoolean t).
  - destruct (sockets st !! i) as [ws|]; [|done]. by destruct (readyState ws), v.
  - by destruct (sockets st !! i) as [ws|].
  - destruct (sockets st !! i) as [ws|]; [|done].
    destruct (processor ws) as [[]|], (audioContext ws) as [[]|]; try done.
    unfold onaudioprocess, encode, send, WebSocket_send, current.
    destruct v; cbn [socketRef sockets];
      (destruct (socketRef st) as [j|]; [|done]);
      (destruct (sockets st !! j) as [ws'|]; [|done]);
      by destruct (readyState ws').
  - cbn in Hev. apply Nat.eqb_eq in Hev as ->. rewrite Hr.
    unfold ondataavailable.
    assert (Hd : concat (audioChunksRef
                   (if 0 <? Z.of_nat (length data)
                    then set_refs (socketRef st) (mediaStreamRef st)
                           (mediaRecorderRef st) (audioChunksRef st ++ [data]) st
                    else st))
                 = concat (audioChunksRef st) ++ data ++ []).
    { destruct data as [|b data]; [by rewrite !app_nil_r|].
      change (0 <? Z.of_nat (length (b :: data))) with true.
      cbn [audioChunksRef set_refs]. rewrite concat_app. cbn [concat].
      by rewrite !app_nil_r. }
    destruct (state rec) eqn:Hs, (stopping rec) eqn:Hp; cbn [snd];
      try (split; [by destruct (0 <? _)|exact Hd]).
    destruct Hrec; congruence.
  - cbn. by rewrite ?app_nil_r.
Qed.


Lemma mediaRecorderRef_during (v : variant) (strict : bool) (r : nat)
    (evs : list event) (st : App) :
  Forall (fun ev => during r ev = true) evs ->
  mediaRecorderRef (run v strict evs st) = mediaRecorderRef st.
Proof.
  intros Hevs. revert st.
  induction Hevs as [|ev evs Hev _ IH]; intros st; [done|].
  change (run v strict (ev :: evs) st)
    with (run v strict evs (snd (handle v strict ev st))).
  rewrite IH.
  destruct ev as [m| |i|i data|i|i|i inputData|i data|i|text]; cbn [handle];
    try done.
  - destruct (sockets st !! i) as [ws|]; [|done]. by destruct (readyState ws).
  - destruct (sockets st !! i) as [ws|]; [|done].
    destruct (readyState ws); try done. unfold onmessage.
    destruct (JSON.parse data) as [d|]; [|done]. destruct v.
    + destruct (GetV d "text") as [t|]; [|done]. appended t d.
    + destruct (GetV d "transcript") as [t|]; [|done]. by destruct (ToBoolean t).
  - destruct (sockets st !! i) as [ws|]; [|done]. by destruct (readyState ws), v.
  - by destruct (sockets st !! i) as [ws|].
  - destruct (sockets st !! i) as [ws|]; [|done].
    destruct (processor ws) as [[]|], (audioContext ws) as [[]|]; try done.
    unfold onaudioprocess, encode, send, WebSocket_send, current.
    destruct v; cbn [socketRef sockets];
      (destruct (socketRef st) as [j|]; [|done]);
      (destruct (sockets st !! j) as [ws'|]; [|done]);
      by destruct (readyState ws').
  - destruct (recorders st !! i) as [rec|]; [|done]. unfold ondataavailable.
    by destruct (state rec), (stopping rec), (0 <? Z.of_nat (length data)).
Qed.



(** ** The transcript *)

(** X13: the transcript changes only by a message on an open socket or
    by the user's typing.  No click on Start or Stop, no opening, error or
    close of the channel, no block and no chunk touches it: a new
    recording does not clear the transcript of the one before, and in the
    appending edition its texts are added to it. *)
Theorem transcript_kept (v : variant) (strict : bool) (ev : event) (st : App) :
  transcribedText (snd (handle v strict ev st)) <> transcribedText st ->
  (exists i ws data,
     ev = Message i data /\ sockets st !! i = Some ws /\ readyState ws = OPEN) \/
  (exists text, ev = EditTranscript text).
Proof.
  intros Ht. destruct ev as [m| |i|i data|i|i|i inputData|i data|i|text];
    cbn [handle] in Ht.
  - by destruct m.
  - by rewrite stopRecording_stopped in Ht.
  - destruct (sockets st !! i) as [ws|]; [|done]. by destruct (readyState ws).
  - destruct (sockets st !! i) as [ws|] eqn:Hws; [|done].
    destruct (readyState ws) eqn:Hrs; try done. left. by exists i, ws, data.
  - destruct (sockets st !! i) as [ws|]; [|done]. by destruct (readyState ws), v.
  - by destruct (sockets st !! i) as [ws|].
  - destruct (sockets st !! i) as [ws|]; [|done].
    destruct (processor ws) as [[]|], (audioContext ws) as [[]|]; try done.
    exfalso. apply Ht.
    unfold onaudioprocess, encode, send, WebSocket_send, current.
    destruct v; cbn [socketRef sockets];
      (destruct (socketRef st) as [j|]; [|done]);
      (destruct (sockets st !! j) as [ws'|]; [|done]);
      by destruct (readyState ws').
  - destruct (recorders st !! i) as [r|]; [|done]. unfold ondataavailable in Ht.
    by destruct (state r), (stopping r), (0 <? Z.of_nat (length data)).
  - destruct (recorders st !! i) as [r|]; [|done]. by destruct (stopping r).
  - right. by exists text.
Qed.

Lemma transcript_kept_witness :
  (exists i ws data,
     Message 0%nat (json "{'text':'hello'}") = Message i data /\
     sockets (run Append false [ClickStart Granted; Open 0%nat] initial) !! i = Some ws /\
     readyState ws = OPEN) \/
  (exists text, Message 0%nat (json "{'text':'hello'}") = EditTranscript text).
Proof.
  apply (transcript_kept Append false (Message 0%nat (json "{'text':'hello'}"))
           (run Append false [ClickStart Granted; Open 0%nat] initial)).
  vm_compute. discriminate.
Defined.

(** * The waveform playback controller *)

Import Playback.

Lemma alter_last {A} (f : A -> A) (old : list A) (cur : A) :
  alter f (length old) (old ++ [cur]) = old ++ [f cur].
Proof.
  rewrite <- (Nat.add_0_r (length old)). by rewrite alter_app_r.
Qed.

Lemma stale_destroy (w : WaveSurfer) : stale (destroy w).
Proof. done. Qed.

(** After a render the instances are those from before, the last of
    them destroyed, and a new one, which is not destroyed and plays only
    if the render ran the third effect with [play] up. *)
Local Ltac fields :=
  cbn [audioBlob playing onFinish waveformRef wavesurfer cleanup_create
       cleanup_load instances urls blobs set_instances].

Lemma render_instances (blob : option nat) (play : bool) (st : Player) :
  one_live st ->
  exists old cur,
    instances st = old ++ [cur] /\
    exists cur',
      instances (render blob play st) = (old ++ [destroy cur]) ++ [cur'] /\
      wavesurfer (render blob play st) = Some (length (old ++ [destroy cur])) /\
      destroyed cur' = false /\
      (isPlaying cur' = true -> play = true /\ playing st = false) /\
      (blob <> audioBlob st -> blob <> None ->
       loaded cur' = Some (length (urls st)) /\
       urls (render blob play st) !! length (urls st) = (fun b => (b, true)) <$> blob) /\
      waveformRef (render blob play st) = true /\
      cleanup_create (render blob play st) = true /\
      audioBlob (render blob play st) = blob /\
      playing (render blob play st) = play /\
      blobs (render blob play st) = blobs st.
Proof.
  intros (Href & Hcl & old & cur & Hi & Hw & Hold & Hcur).
  exists old, cur. split; [done|].
  destruct st as [ab pl onf wref wsf cc cload insts us bs].
  cbn in Href, Hcl, Hi, Hw. subst wref cc insts wsf.
  unfold render. fields. unfold create_cleanup. fields. rewrite alter_last.
  assert (Hpl : negb (Bool.eqb play pl) = true -> play = negb pl).
  { by destruct play, pl. }
  destruct (bool_decide (blob = ab)) eqn:Hb; cbn [negb].
  - apply bool_decide_eq_true in Hb. subst blob.
    unfold create_effect. fields.
    destruct (negb (Bool.eqb play pl)) eqn:Hp.
    + unfold play_effect. fields. rewrite alter_last.
      eexists. split; [reflexivity|]. rewrite (Hpl eq_refl).
      destruct pl; repeat split; done.
    + eexists. split; [reflexivity|]. repeat split; done.
  - apply bool_decide_eq_false in Hb.
    assert (Hu : forall b : nat,
               (match cload with
                | Some fileUrl => alter (fun u : nat * bool => (u.1, false)) fileUrl us
                | None => us
                end ++ [(b, true)]) !! length us = Some (b, true)).
    { intros b. destruct cload as [fileUrl|].
      - rewrite <- (length_alter (fun u : nat * bool => (u.1, false)) us fileUrl).
        apply list_lookup_middle. done.
      - by apply list_lookup_middle. }
    assert (Hl : length match cload with
                        | Some fileUrl =>
                            alter (fun u : nat * bool => (u.1, false)) fileUrl us
                        | None => us
                        end = length us).
    { destruct cload; [apply length_alter|done]. }
    destruct blob as [b|].
    + destruct cload as [fileUrl|]; unfold load_cleanup, create_effect; fields;
        unfold load_effect; fields; rewrite alter_last;
        (destruct (negb (Bool.eqb play pl)) eqn:Hp;
         [unfold play_effect; fields; rewrite alter_last;
          eexists; (split; [reflexivity|]); rewrite (Hpl eq_refl);
          specialize (Hu b); specialize Hl; cbn in Hu, Hl;
          destruct pl; cbn; rewrite ?Hl; repeat split; done
         |eexists; (split; [reflexivity|]);
          specialize (Hu b); cbn in Hu, Hl;
          cbn; rewrite ?Hl; repeat split; done]).
    + destruct cload as [fileUrl|]; unfold load_cleanup, create_effect; fields;
        unfold load_effect; fields;
        (destruct (negb (Bool.eqb play pl)) eqn:Hp;
         [unfold play_effect; fields; rewrite alter_last;
          eexists; (split; [reflexivity|]); rewrite (Hpl eq_refl);
          destruct pl; cbn; repeat split; done
         |eexists; (split; [reflexivity|]); cbn; repeat split; done]).
Qed.

Lemma one_live_render (blob : option nat) (play : bool) (st : Player) :
  one_live st -> one_live (render blob play st).
Proof.
  intros Hst.
  destruct (render_instances blob play st Hst)
    as (old & cur & Hi & cur' & Hi' & Hw' & Hd' & _ & _ & Href & Hcl & _).
  split; [done|]. split; [done|]. exists (old ++ [destroy cur]), cur'.
  repeat split; try done.
  destruct Hst as (_ & _ & old0 & cur0 & Hi0 & _ & Hold & _).
  rewrite Hi in Hi0. apply app_inj_tail in Hi0 as [-> ->].
  apply Forall_app. split; [done|]. apply Forall_singleton, stale_destroy.
Qed.

(** The state in which [load_blob] renders. *)
Lemma load_blob_render (st : Player) :
  exists st0,
    load_blob st = render (Some (blobs st)) (playing st) st0 /\
    (one_live st -> one_live st0) /\
    instances st0 = instances st /\ audioBlob st0 = audioBlob st /\
    playing st0 = playing st /\ urls st0 = urls st /\ blobs st0 = S (blobs st).
Proof.
  eexists. split; [reflexivity|]. split; [|done].
  intros (? & ? & old & cur & ? & ? & ? & ?).
  split; [done|]. split; [done|]. by exists old, cur.
Qed.

Lemma one_live_load_blob (st : Player) : one_live st -> one_live (load_blob st).
Proof.
  intros Hst. destruct (load_blob_render st) as (st0 & -> & H0 & _).
  apply one_live_render. by apply H0.
Qed.

Lemma one_live_setPlaying (p : bool) (st : Player) :
  one_live st -> one_live (setPlaying p st).
Proof.
  intros Hst. unfold setPlaying. destruct (Bool.eqb p (playing st)); [done|].
  by apply one_live_render.
Qed.

Lemma one_live_handle (ev : event) (st : Player) :
  one_live st -> one_live (handle ev st).
Proof.
  intros Hst. destruct ev as [| |i|]; cbn [handle].
  - by apply one_live_load_blob.
  - unfold togglePlay. destruct (audioBlob st); [|done]. by apply one_live_setPlaying.
  - unfold finished. destruct (instances st !! i) as [w|] eqn:Hw; [|done].
    destruct (isPlaying w) eqn:Hp; [|done].
    assert (Hst' : one_live (set_instances (<[i := pause w]> (instances st)) st)).
    { destruct Hst as (Href & Hcl & old & cur & Hi & Hws & Hold & Hcur).
      split; [done|]. split; [done|]. rewrite Hi in Hw |- *.
      destruct (decide (i < length old)%nat) as [Hlt|Hge].
      - rewrite lookup_app_l in Hw by done.
        rewrite Forall_forall in Hold.
        apply list_elem_of_lookup_2, Hold in Hw as (_ & _ & Hw). congruence.
      - assert (i = length old) as ->.
        { apply lookup_lt_Some in Hw. rewrite length_app in Hw. cbn in Hw. lia. }
        rewrite list_lookup_middle in Hw by done. injection Hw as <-.
        exists old, (pause cur). cbn [set_instances instances wavesurfer].
        repeat split; try done.
        rewrite <- (Nat.add_0_r (length old)). by rewrite insert_app_r. }
    revert Hst'. generalize (set_instances (<[i := pause w]> (instances st)) st).
    induction (finish w) as [|h hs IH]; intros st' Hst'; [done|].
    cbn [fold_left]. apply IH. unfold finish_handler. by apply one_live_setPlaying.
  - by apply one_live_render.
Qed.

Lemma one_live_mounted : one_live mounted.
Proof.
  split; [done|]. split; [done|]. exists [], (pause (on_finish 0 create)).
  repeat split; done.
Qed.

Lemma one_live_run (evs : list event) : one_live (run evs mounted).
Proof.
  induction evs as [|ev evs IH] using rev_ind; [apply one_live_mounted|].
  unfold run. rewrite fold_left_app. by apply one_live_handle.
Qed.

Lemma load_blob_at_rest (st : Player) :
  one_live st -> playing (load_blob st) = playing st /\ at_rest (load_blob st).
Proof.
  intros Hst. destruct (load_blob_render st) as (st0 & -> & H0 & _ & _ & Hp & _).
  destruct (render_instances (Some (blobs st)) (playing st) st0 (H0 Hst))
    as (old & cur & Hi & cur' & Hi' & _ & _ & Hplay & _ & _ & _ & _ & Hpl & _).
  split; [done|]. intros i w Hw. rewrite Hi' in Hw.
  destruct (H0 Hst) as (_ & _ & old0 & cur0 & Hi0 & _ & Hold & _).
  rewrite Hi in Hi0. apply app_inj_tail in Hi0 as [-> ->].
  apply list_elem_of_lookup_2 in Hw.
  rewrite !elem_of_app, !list_elem_of_singleton in Hw.
  destruct Hw as [[Hw| ->]| ->].
  - rewrite Forall_forall in Hold. by apply Hold in Hw as (_ & _ & Hw).
  - done.
  - destruct (isPlaying cur') eqn:Hc; [|done].
    destruct (Hplay eq_refl) as [H1 H2]. congruence.
Qed.

Lemma loads_at_rest (n : nat) :
  one_live (run (replicate n Load) mounted) /\
  playing (run (replicate n Load) mounted) = false /\
  at_rest (run (replicate n Load) mounted).
Proof.
  induction n as [|n (Hl & Hp & Hr)].
  - split; [apply one_live_mounted|]. split; [done|].
    intros [|[|i]] w Hw; cbn in Hw; [injection Hw as <-| |]; done.
  - replace (replicate (S n) Load) with (replicate n Load ++ [Load])
      by (by rewrite <- replicate_S_end).
    unfold run in *. rewrite fold_left_app. cbn [fold_left handle].
    split; [by apply one_live_load_blob|].
    destruct (load_blob_at_rest _ Hl) as [H1 H2]. split; [congruence|done].
Qed.

Lemma stale_after_second_load (st0 : Player) (i : nat) (w : WaveSurfer)
    (u : nat) (valid : bool) :
  one_live st0 ->
  instances (load_blob (load_blob st0)) !! i = Some w ->
  loaded w = Some u ->
  urls (load_blob (load_blob st0)) !! u = Some (blobs st0, valid) ->
  stale w.
Proof.
  intros Hst Hw Hl Hu.
  pose proof (one_live_load_blob st0 Hst) as Hst1.
  destruct (load_blob_render st0) as (st0' & E0 & H0 & _ & _ & _ & _ & Hb0).
  destruct (render_instances (Some (blobs st0)) (playing st0) st0' (H0 Hst))
    as (_ & _ & _ & _ & _ & _ & _ & _ & _ & _ & _ & Hab1 & _ & Hbl1).
  rewrite <- E0 in Hab1, Hbl1. rewrite Hb0 in Hbl1.
  destruct (load_blob_render (load_blob st0))
    as (st1' & E1 & H1 & Hi1 & Hab1' & _ & Hu1 & _).
  destruct (render_instances (Some (blobs (load_blob st0)))
              (playing (load_blob st0)) st1' (H1 Hst1))
    as (old & cur & Hi & cur' & Hi' & _ & _ & _ & Hload & _).
  rewrite <- E1 in Hi', Hload. rewrite Hi' in Hw.
  destruct (H1 Hst1) as (_ & _ & old0 & cur0 & Hi0 & _ & Hold & _).
  rewrite Hi in Hi0. apply app_inj_tail in Hi0 as [-> ->].
  destruct (decide (i < length (old0 ++ [destroy cur0]))%nat) as [Hlt|Hge].
  - rewrite lookup_app_l in Hw by done.
    apply list_elem_of_lookup_2 in Hw.
    rewrite elem_of_app, list_elem_of_singleton in Hw. destruct Hw as [Hw| ->].
    + rewrite Forall_forall in Hold. by apply Hold.
    + apply stale_destroy.
  - assert (i = length (old0 ++ [destroy cur0])) as ->.
    { apply lookup_lt_Some in Hw. rewrite length_app in Hw. cbn in Hw. lia. }
    rewrite list_lookup_middle in Hw by done. injection Hw as <-.
    destruct Hload as [Hl' Hu']; [rewrite Hab1', Hab1, Hbl1; intros [=]; lia|done|].
    rewrite Hu1 in Hl', Hu'. rewrite Hl' in Hl. injection Hl as <-.
    rewrite Hu' in Hu. cbn in Hu. injection Hu as Hu _. rewrite Hbl1 in Hu. lia.
Qed.


(** ** Instances, handlers and object URLs in every session *)

Lemma revoke_last (revoked : list (nat * bool)) (b : nat) :
  alter (fun u : nat * bool => (u.1, false)) (length revoked) (revoked ++ [(b, true)])
  = revoked ++ [(b, false)].
Proof. exact (alter_last (fun u : nat * bool => (u.1, false)) revoked (b, true)). Qed.

(** A render with the blob and the flag of the state: the new instance
    has the handler of this render and nothing loaded; the URLs are
    untouched. *)
Lemma render_same_blob (play : bool) (st : Player) :
  one_live st ->
  exists cur,
    held (render (audioBlob st) play st) = Some cur /\
    finish cur = [onFinish (render (audioBlob st) play st)] /\
    loaded cur = None /\
    urls (render (audioBlob st) play st) = urls st /\
    cleanup_load (render (audioBlob st) play st) = cleanup_load st /\
    blobs (render (audioBlob st) play st) = blobs st /\
    audioBlob (render (audioBlob st) play st) = audioBlob st.
Proof.
  intros (Href & Hcl & old & cur & Hi & Hw & Hold & Hcur).
  destruct st as [ab pl onf wref wsf cc cload insts us bs].
  cbn in Href, Hcl, Hi, Hw. subst wref cc insts wsf.
  unfold render, held. fields. unfold create_cleanup. fields. rewrite alter_last.
  rewrite bool_decide_eq_true_2 by done. cbn [negb].
  unfold create_effect. fields.
  destruct (negb (Bool.eqb play pl)).
  - unfold play_effect. fields. rewrite alter_last. fields.
    rewrite list_lookup_middle by done.
    eexists. split; [reflexivity|]. by destruct play.
  - fields. rewrite list_lookup_middle by done.
    eexists. split; [reflexivity|]. done.
Qed.

(** A render with a new blob: the new instance has the handler of this
    render and the new URL loaded; the URL of the blob before is
    revoked. *)
Lemma render_new_blob (b : nat) (play : bool) (st : Player) :
  one_live st -> urls_revoked st -> audioBlob st <> Some b ->
  exists cur,
    held (render (Some b) play st) = Some cur /\
    finish cur = [onFinish (render (Some b) play st)] /\
    loaded cur = Some (length (urls st)) /\
    urls (render (Some b) play st)
    = ((fun u : nat * bool => (u.1, false)) <$> urls st) ++ [(b, true)] /\
    cleanup_load (render (Some b) play st) = Some (length (urls st)) /\
    blobs (render (Some b) play st) = blobs st /\
    audioBlob (render (Some b) play st) = Some b.
Proof.
  intros (Href & Hcl & old & cur & Hi & Hw & Hold & Hcur) Hu Hb.
  destruct st as [ab pl onf wref wsf cc cload insts us bs].
  cbn in Href, Hcl, Hi, Hw, Hb. subst wref cc insts wsf.
  unfold urls_revoked in Hu. cbn in Hu.
  unfold render, held. fields. unfold create_cleanup. fields. rewrite alter_last.
  rewrite bool_decide_eq_false_2 by congruence. cbn [negb].
  destruct ab as [b0|].
  - destruct Hu as (_ & revoked & -> & Hr & ->).
    assert (Hrev : (fun u : nat * bool => (u.1, false)) <$> revoked = revoked).
    { induction Hr as [|[x y] l Hy _ IH]; [done|].
      cbn in Hy. subst y. cbn. by f_equal. }
    unfold load_cleanup, create_effect; fields;
      unfold load_effect; fields. rewrite !alter_last, fmap_app, Hrev. cbn beta.
    destruct (negb (Bool.eqb play pl));
      [unfold play_effect; fields; rewrite alter_last; fields|fields];
      rewrite list_lookup_middle by done;
      (eexists; split; [reflexivity|]); rewrite ?length_app; by destruct play.
  - destruct Hu as [-> ->].
    unfold create_effect; fields; unfold load_effect; fields. rewrite alter_last.
    destruct (negb (Bool.eqb play pl));
      [unfold play_effect; fields; rewrite alter_last; fields|fields];
      rewrite list_lookup_middle by done;
      (eexists; split; [reflexivity|]); by destruct play.
Qed.

Lemma tidy_same_blob (play : bool) (st : Player) :
  one_live st -> urls_revoked st ->
  one_live (render (audioBlob st) play st) /\
  urls_revoked (render (audioBlob st) play st) /\
  subscribed (render (audioBlob st) play st).
Proof.
  intros Hl Hu. split; [by apply one_live_render|].
  destruct (render_same_blob play st Hl) as (cur & Hh & Hf & _ & Hus & Hc & Hb & Ha).
  split; [|by exists cur].
  unfold urls_revoked. by rewrite Ha, Hus, Hc, Hb.
Qed.

Lemma tidy_setPlaying (p : bool) (st : Player) :
  one_live st /\ urls_revoked st /\ subscribed st ->
  one_live (setPlaying p st) /\ urls_revoked (setPlaying p st) /\
  subscribed (setPlaying p st).
Proof.
  intros (Hl & Hu & Hs). unfold setPlaying.
  destruct (Bool.eqb p (playing st)); [done|]. by apply tidy_same_blob.
Qed.

Lemma load_blob_state (st : Player) :
  exists st0,
    load_blob st = render (Some (blobs st)) (playing st) st0 /\
    (one_live st -> one_live st0) /\
    audioBlob st0 = audioBlob st /\ urls st0 = urls st /\
    cleanup_load st0 = cleanup_load st /\ blobs st0 = S (blobs st).
Proof.
  eexists. split; [reflexivity|]. split; [|done].
  intros (? & ? & old & cur & ? & ? & ? & ?).
  split; [done|]. split; [done|]. by exists old, cur.
Qed.

Lemma tidy_load_blob (st : Player) :
  one_live st -> urls_revoked st ->
  one_live (load_blob st) /\ urls_revoked (load_blob st) /\ subscribed (load_blob st) /\
  exists cur,
    held (load_blob st) = Some cur /\ loaded cur = Some (length (urls st)) /\
    urls (load_blob st) !! length (urls st) = Some (blobs st, true) /\
    audioBlob (load_blob st) = Some (blobs st).
Proof.
  intros Hl Hu. split; [by apply one_live_load_blob|].
  destruct (load_blob_state st) as (st0 & -> & H0 & Hab & Hus & Hcl & Hbl).
  assert (Hu0 : urls_revoked st0).
  { unfold urls_revoked in *. rewrite Hab, Hus, Hcl, Hbl.
    destruct (audioBlob st) as [b|]; [|done].
    destruct Hu as [Hb Hr]. split; [lia|done]. }
  assert (Hne : audioBlob st0 <> Some (blobs st)).
  { rewrite Hab. unfold urls_revoked in Hu.
    destruct (audioBlob st) as [b|]; [|done]. intros [= ->]. lia. }
  destruct (render_new_blob (blobs st) (playing st) st0 (H0 Hl) Hu0 Hne)
    as (cur & Hh & Hf & Hld & Hus' & Hc & Hb & Ha).
  rewrite Hus in Hld, Hus', Hc.
  split; [|split; [by exists cur|]].
  - unfold urls_revoked. rewrite Ha, Hus', Hc, Hb, Hbl. split; [lia|].
    exists ((fun u : nat * bool => (u.1, false)) <$> urls st).
    split; [done|]. split; [|by rewrite length_fmap].
    apply Forall_fmap, Forall_true. done.
  - exists cur. split; [done|]. split; [done|]. split; [|done].
    rewrite Hus'. rewrite <- (length_fmap (fun u : nat * bool => (u.1, false))).
    by apply list_lookup_middle.
Qed.

Lemma tidy_pause (i : nat) (w : WaveSurfer) (st : Player) :
  instances st !! i = Some w -> isPlaying w = true ->
  one_live st /\ urls_revoked st /\ subscribed st ->
  one_live (set_instances (<[i := pause w]> (instances st)) st) /\
  urls_revoked (set_instances (<[i := pause w]> (instances st)) st) /\
  subscribed (set_instances (<[i := pause w]> (instances st)) st).
Proof.
  intros Hw Hp (Hl & Hu & cur0 & Hh & Hf).
  destruct Hl as (Href & Hcl & old & cur & Hi & Hws & Hold & Hcur).
  unfold held in Hh. rewrite Hws, Hi, list_lookup_middle in Hh by done.
  injection Hh as <-. rewrite Hi in Hw.
  assert (i = length old) as ->.
  { destruct (decide (i < length old)%nat) as [Hlt|Hge].
    - rewrite lookup_app_l in Hw by done. rewrite Forall_forall in Hold.
      apply list_elem_of_lookup_2, Hold in Hw as (_ & _ & Hw). congruence.
    - apply lookup_lt_Some in Hw. rewrite length_app in Hw. cbn in Hw. lia. }
  rewrite list_lookup_middle in Hw by done. injection Hw as <-.
  assert (Hins : <[length old := pause cur]> (instances st) = old ++ [pause cur]).
  { rewrite Hi, <- (Nat.add_0_r (length old)). by rewrite insert_app_r. }
  rewrite Hins. split; [|split; [done|]].
  - split; [done|]. split; [done|]. by exists old, (pause cur).
  - exists (pause cur). unfold held. cbn [set_instances wavesurfer instances onFinish].
    rewrite Hws, list_lookup_middle by done. done.
Qed.

Lemma tidy_handle (ev : event) (st : Player) :
  one_live st /\ urls_revoked st /\ subscribed st ->
  one_live (handle ev st) /\ urls_revoked (handle ev st) /\ subscribed (handle ev st).
Proof.
  intros (Hl & Hu & Hs). destruct ev as [| |i|]; cbn [handle].
  - destruct (tidy_load_blob st Hl Hu) as (? & ? & ? & _). done.
  - unfold togglePlay. destruct (audioBlob st); [|done]. by apply tidy_setPlaying.
  - unfold finished. destruct (instances st !! i) as [w|] eqn:Hw; [|done].
    destruct (isPlaying w) eqn:Hp; [|done].
    pose proof (tidy_pause i w st Hw Hp (conj Hl (conj Hu Hs))) as Hst'.
    revert Hst'. generalize (set_instances (<[i := pause w]> (instances st)) st).
    induction (finish w) as [|h hs IH]; intros st' Hst'; [done|].
    cbn [fold_left]. apply IH. unfold finish_handler. by apply tidy_setPlaying.
  - by apply tidy_same_blob.
Qed.

Lemma tidy_run (evs : list event) :
  one_live (run evs mounted) /\ urls_revoked (run evs mounted) /\
  subscribed (run evs mounted).
Proof.
  induction evs as [|ev evs IH] using rev_ind.
  - split; [apply one_live_mounted|]. split; [done|].
    by exists (pause (on_finish 0 create)).
  - unfold run in *. rewrite fold_left_app. by apply tidy_handle.
Qed.

(** ** Loads *)

Lemma held_one_live (st : Player) (cur : WaveSurfer) :
  one_live st -> held st = Some cur -> destroyed cur = false.
Proof.
  intros (_ & _ & old & cur0 & Hi & Hw & _ & Hd). unfold held.
  rewrite Hw, Hi, list_lookup_middle by done. by intros [= <-].
Qed.

(** C7, as amended: a load does not reset the playback state: it
    leaves the flag [playing] as it was.  After any number of loads and nothing else the
    flag is down and no instance plays; in every session, a load keeps
    the flag, up or down, while after it no instance plays and the ref
    holds a new instance, not destroyed, that has loaded a valid object
    URL of the new buffer.  And whatever happened before, once a buffer
    was loaded and a second one after it, an instance that holds an object
    URL of the first buffer was destroyed: it has no [finish] handler left
    and does not play, so the [onFinish] given for the first buffer cannot
    be called any more. *)
Theorem load_rebinds (n : nat) (evs : list event) :
  (playing (run (replicate n Load) mounted) = false /\
   at_rest (run (replicate n Load) mounted)) /\
  (playing (run (evs ++ [Load]) mounted) = playing (run evs mounted) /\
   at_rest (run (evs ++ [Load]) mounted) /\
   exists cur,
     held (run (evs ++ [Load]) mounted) = Some cur /\
     destroyed cur = false /\
     loaded cur = Some (length (urls (run evs mounted))) /\
     urls (run (evs ++ [Load]) mounted) !! length (urls (run evs mounted))
     = Some (blobs (run evs mounted), true)) /\
  (forall i w u valid,
     instances (run (evs ++ [Load; Load]) mounted) !! i = Some w ->
     loaded w = Some u ->
     urls (run (evs ++ [Load; Load]) mounted) !! u
     = Some (blobs (run evs mounted), valid) ->
     stale w /\
     finish_handlers i (run (evs ++ [Load; Load]) mounted) = [] /\
     finished i (run (evs ++ [Load; Load]) mounted)
     = run (evs ++ [Load; Load]) mounted).
Proof.
  split; [apply (loads_at_rest n)|]. split.
  - unfold run. rewrite fold_left_app. cbn [fold_left handle].
    fold (run evs mounted). destruct (tidy_run evs) as (Hl & Hu & _).
    destruct (load_blob_at_rest _ Hl) as [Hp Hr].
    destruct (tidy_load_blob _ Hl Hu) as (Hl' & _ & _ & cur & Hh & Hld & Hus & _).
    split; [done|]. split; [done|]. exists cur.
    split; [done|]. split; [by apply (held_one_live _ _ Hl')|done].
  - unfold run. rewrite fold_left_app. cbn [fold_left handle].
    fold (run evs mounted). intros i w u valid Hw Hl Hu.
    pose proof (stale_after_second_load _ i w u valid (one_live_run evs) Hw Hl Hu)
      as Hs.
    split; [done|]. destruct Hs as (_ & Hf & Hp).
    unfold finish_handlers, finished. by rewrite Hw, Hp.
Qed.

Lemma load_rebinds_witness :
  stale {| destroyed := true; loaded := Some 0%nat; isPlaying := false;
           finish := [] |} /\
  finish_handlers 1 (run [Load; Load] mounted) = [] /\
  finished 1 (run [Load; Load] mounted) = run [Load; Load] mounted.
Proof.
  exact (proj2 (proj2 (load_rebinds 0 [])) 1%nat
           {| destroyed := true; loaded := Some 0%nat; isPlaying := false;
              finish := [] |} 0%nat false eq_refl eq_refl eq_refl).
Defined.

(** C7 as stated fails when playback was switched on between two
    loads: the flag [playing] raised before a load is still up after it,
    though none of the instances plays. *)
Lemma playing_survives_load :
  playing (run [Load; TogglePlay; Load] mounted) = true /\
  isPlaying <$> instances (run [Load; TogglePlay; Load] mounted)
  = [false; false; false; false].
Proof. by vm_compute. Qed.


(** ** The instance in the ref *)

(** X14: in every session of the controller exactly one WaveSurfer
    instance is live: the container is attached, the ref holds the
    instance created last, which is not destroyed and calls one [finish]
    handler, that of the last render; every instance created before was
    destroyed, has no handler left and does not play. *)
Theorem one_instance_live (evs : list event) :
  one_live (run evs mounted) /\ subscribed (run evs mounted).
Proof. destruct (tidy_run evs) as (? & _ & ?). done. Qed.

(** X15: object URLs do not pile up: in every session of the
    controller, while no recording was handed over no URL exists; after
    that every URL made is revoked except the last one, which is valid
    and was made of the blob the controller shows. *)
Theorem object_urls_revoked (evs : list event) :
  urls_revoked (run evs mounted).
Proof. destruct (tidy_run evs) as (_ & ? & _). done. Qed.

(** X16: the audio is loaded into the instance of the render that
    brought the blob, and into no later one.  In every session, when a
    recording is handed over the instance in the ref has loaded the new,
    valid URL of that recording; but after a click on the play button, or
    after any other render of [App], the instance in the ref is a new one
    with nothing loaded: [onFinish] is a new function in every render, so
    the first effect destroys and recreates the instance, while the second
    effect, which loads, runs for a new blob only. *)
Theorem audio_gone_after_render (evs : list event) :
  (exists cur,
     held (handle Load (run evs mounted)) = Some cur /\
     loaded cur = Some (length (urls (run evs mounted))) /\
     urls (handle Load (run evs mounted)) !! length (urls (run evs mounted))
     = Some (blobs (run evs mounted), true) /\
     audioBlob (handle Load (run evs mounted)) = Some (blobs (run evs mounted))) /\
  (audioBlob (run evs mounted) <> None ->
   exists cur,
     held (handle TogglePlay (run evs mounted)) = Some cur /\ loaded cur = None) /\
  (exists cur,
     held (handle Rerender (run evs mounted)) = Some cur /\ loaded cur = None).
Proof.
  destruct (tidy_run evs) as (Hl & Hu & _). split; [|split].
  - cbn [handle]. by destruct (tidy_load_blob _ Hl Hu) as (_ & _ & _ & H).
  - intros Hb. cbn [handle]. unfold togglePlay, setPlaying.
    destruct (audioBlob (run evs mounted)) eqn:Ha; [|done]. rewrite <- Ha.
    rewrite (proj2 (Bool.eqb_false_iff _ _)) by (by destruct (playing _)).
    destruct (render_same_blob (negb (playing (run evs mounted))) _ Hl)
      as (cur & Hh & _ & Hld & _). by exists cur.
  - cbn [handle].
    destruct (render_same_blob (playing (run evs mounted)) _ Hl)
      as (cur & Hh & _ & Hld & _). by exists cur.
Qed.

Lemma audio_gone_after_render_witness :
  exists cur,
    held (handle TogglePlay (run [Load] mounted)) = Some cur /\ loaded cur = None.
Proof.
  apply (proj1 (proj2 (audio_gone_after_render [Load]))). discriminate.
Defined.

(** * The page: what is rendered, what is requested, what a reply does *)

Import Streaming.

Lemma trim_call_string (v : value) :
  (exists t, Text.trim_call v = Normal t) <-> is_string v = true.
Proof. destruct v; cbn; split; try done; eauto; by intros [? ?]. Qed.

Lemma trim_call_throws (v : value) :
  is_string v = false -> Text.trim_call v = Throw "TypeError".
Proof. by destruct v. Qed.

Lemma view_throws (e : edition) (p : Page.Page) :
  e <> Streamed Replace ->
  is_string (transcribedText (Page.app p)) = false \/
  is_string (Page.translatedText p) = false ->
  Page.view e p = Throw "TypeError".
Proof.
  intros He H.
  destruct e as [|[]]; [| |done]; unfold Page.view; destruct H as [H|H];
    rewrite (trim_call_throws _ H); try done;
    by destruct (transcribedText (Page.app p)).
Qed.

(** X17: the render of [App].  In the two editions of
    [frontend/src/App.js] it calls [trim] on the transcript and on the
    translation, so it returns exactly when both are strings and throws a
    [TypeError] otherwise.  A message can break it: in the appending
    edition a message whose [text] is truthy but not a string (a number,
    [true], an array, an object), received while the transcript is empty,
    becomes the transcript as it is, whether or not the handler goes on to
    throw; the next render throws.  The render of the third edition never
    returns: it names [Waveform], which its file does not bring into
    scope, and throws a [ReferenceError] there, before the two buttons. *)
Theorem view_needs_strings (e : edition) (p : Page.Page) :
  (e <> Streamed Replace ->
   ((exists w, Page.view e p = Normal w) <->
    is_string (transcribedText (Page.app p)) = true /\
    is_string (Page.translatedText p) = true) /\
   (is_string (transcribedText (Page.app p)) = false \/
    is_string (Page.translatedText p) = false ->
    Page.view e p = Throw "TypeError")) /\
  Page.view (Streamed Replace) p = Throw "ReferenceError" /\
  (forall Sm Tm strict i ws data d t,
     sockets (Page.app p) !! i = Some ws -> readyState ws = OPEN ->
     JSON.parse data = Some d -> GetV d "text" = Normal t ->
     ToBoolean t = true -> is_string t = false ->
     transcribedText (Page.app p) = VString "" ->
     transcribedText
       (Page.app (snd (Page.handle Sm Tm (Streamed Append) strict
                         (Page.Session (Message i data)) p))) = t /\
     Page.view (Streamed Append)
       (snd (Page.handle Sm Tm (Streamed Append) strict
               (Page.Session (Message i data)) p))
     = Throw "TypeError").
Proof.
  split; [|split; [done|]].
  - intros He. split; [|by apply view_throws]. split.
    + intros [w Hw].
      destruct (is_string (transcribedText (Page.app p))) eqn:H1;
        [|by rewrite view_throws in Hw by auto].
      destruct (is_string (Page.translatedText p)) eqn:H2;
        [done|by rewrite view_throws in Hw by auto].
    + intros [H1 H2]. unfold Page.view.
      apply trim_call_string in H1 as [t1 ->]. apply trim_call_string in H2 as [t2 ->].
      destruct e as [|[]]; by eauto.
  - intros Sm Tm strict i ws data d t Hws Hrs Hd Hg Ht Hs Hp.
    assert (Ha : transcribedText
                   (Page.app (snd (Page.handle Sm Tm (Streamed Append) strict
                                     (Page.Session (Message i data)) p))) = t).
    { cbn [Page.handle handle]. rewrite Hws, Hrs.
      rewrite (onmessage_Append_truthy data d t _ Hd Hg Ht), Hp.
      cbn [append_text ToBoolean String.eqb negb].
      by destruct (detected (Get d "detected_lang") (Get d "confidence")). }
    split; [done|]. apply view_throws; [done|]. left. by rewrite Ha.
Qed.

Lemma view_needs_strings_witness :
  transcribedText
    (Page.app
       (snd (Page.handle (fun _ => "") (fun _ _ => "") (Streamed Append) false
               (Page.Session (Message 0%nat (json "{'text':5}")))
               (Page.run (fun _ => "") (fun _ _ => "") (Streamed Append) false
                  [Page.Session (ClickStart Granted); Page.Session (Open 0%nat)]
                  Page.initial))))
  = VNumber (Number.of_Z 5) /\
  Page.view (Streamed Append)
    (snd (Page.handle (fun _ => "") (fun _ _ => "") (Streamed Append) false
            (Page.Session (Message 0%nat (json "{'text':5}")))
            (Page.run (fun _ => "") (fun _ _ => "") (Streamed Append) false
               [Page.Session (ClickStart Granted); Page.Session (Open 0%nat)]
               Page.initial)))
  = Throw "TypeError".
Proof.
  apply (proj2 (proj2 (view_needs_strings (Streamed Append)
                         (Page.run (fun _ => "") (fun _ _ => "") (Streamed Append) false
                            [Page.Session (ClickStart Granted);
                             Page.Session (Open 0%nat)] Page.initial)))
           (fun _ => "") (fun _ _ => "") false 0%nat
           {| readyState := OPEN; sent := []; audioContext := Some running;
              processor := Some true |}
           (json "{'text':5}")
           (VObject [("text", VNumber (Number.of_Z 5))])
           (VNumber (Number.of_Z 5))
           eq_refl eq_refl ltac:(vm_compute; reflexivity) eq_refl eq_refl eq_refl
           eq_refl).
Defined.

(** ** Replies *)

(** X18: what a reply does to the translation.  In every edition the
    translation changes only on a response whose body is JSON, and then
    to the member [translated] of the body, [undefined] if it has none.
    The first edition refuses a response that is not [ok]: the translation
    stays and the status line tells the status text.  The appending
    edition does not look at [ok]: the JSON body of a failed request
    replaces the translation all the same and the status line reads
    [Translation complete.]; when that body has no string [translated],
    the next render throws. *)
Theorem translated_by_reply (Sm : string -> string) (Tm : value -> string -> string)
    (e : edition) (r : Page.reply) (p : Page.Page) :
  (Page.translatedText (Page.translated Sm Tm e r p) <> Page.translatedText p ->
   exists ok statusText body d,
     r = Page.Response ok statusText body /\ (e = Recorded -> ok = true) /\
     JSON.parse body = Some d /\
     Page.translatedText (Page.translated Sm Tm e r p) = Get d "translated") /\
  (forall statusText body,
     r = Page.Response false statusText body -> e = Recorded ->
     Page.translated Sm Tm e r p
     = Page.setStatus ("Error: Translation failed: " +:+ statusText) p) /\
  (forall statusText body d,
     r = Page.Response false statusText body -> e = Streamed Append ->
     JSON.parse body = Some d -> d <> VNull ->
     Page.translated Sm Tm e r p
     = Page.setStatus "Translation complete."
         (Page.setTranslatedText (Get d "translated") p) /\
     (is_string (Get d "translated") = false ->
      Page.view e (Page.translated Sm Tm e r p) = Throw "TypeError")).
Proof.
  split; [|split].
  - destruct r as [m|ok statusText body]; [done|]. cbn [Page.translated].
    destruct (match e with Recorded => negb ok | Streamed _ => false end) eqn:Href;
      [done|].
    destruct (JSON.parse body) as [d|] eqn:Hd; [|done].
    destruct (GetV d "translated") as [t|] eqn:Hg; [|done].
    intros _. exists ok, statusText, body, d.
    split; [done|]. split; [by intros ->; destruct ok|]. split; [done|].
    unfold GetV in Hg. by destruct d; try discriminate; injection Hg as <-.
  - by intros statusText body -> ->.
  - intros statusText body d -> -> Hd Hn. cbn [Page.translated]. rewrite Hd.
    destruct (parse_defined body d Hd) as [Hu _].
    assert (Hg : GetV d "translated" = Normal (Get d "translated")) by (by destruct d).
    rewrite Hg. split; [done|]. intros Hs. apply view_throws; [done|by right].
Qed.

Lemma translated_by_reply_witness :
  Page.translated (fun _ => "") (fun _ _ => "") (Streamed Append)
    (Page.Response false "Not Found" (json "{'detail':'Not Found'}")) Page.initial
  = Page.setStatus "Translation complete."
      (Page.setTranslatedText VUndefined Page.initial) /\
  Page.view (Streamed Append)
    (Page.translated (fun _ => "") (fun _ _ => "") (Streamed Append)
       (Page.Response false "Not Found" (json "{'detail':'Not Found'}")) Page.initial)
  = Throw "TypeError".
Proof.
  destruct (proj2 (proj2 (translated_by_reply (fun _ => "") (fun _ _ => "")
                            (Streamed Append)
                            (Page.Response false "Not Found"
                               (json "{'detail':'Not Found'}")) Page.initial))
              "Not Found" (json "{'detail':'Not Found'}")
              (VObject [("detail", VString "Not Found")]) eq_refl eq_refl
              ltac:(vm_compute; reflexivity) ltac:(discriminate)) as [H1 H2].
  split; [exact H1|]. apply H2. reflexivity.
Defined.

(** X19: what the reply to an upload does to the transcript (first
    edition).  The transcript changes only on a response that is [ok] and
    whose body is JSON; it then becomes the member [text] of the body, or
    the empty string when that is missing or falsy, so a reply without
    text erases the transcript.  This happens before the status line is
    built: when the language of the body cannot be converted to a string
    (an object with a member [toString], or an array that holds one), or
    else when the body has no Number [confidence], the transcript is
    replaced all the same and the status line shows the error, of the
    conversion or of [toFixed]; otherwise the line shows the language and
    the confidence with two decimals.  A language that is absent, [null],
    a boolean, a number or a string can be converted. *)
Theorem transcribed_by_reply (Sm : string -> string) (Tm : value -> string -> string)
    (r : Page.reply) (p : Page.Page) :
  (transcribedText (Page.app (Page.transcribed Sm Tm r p))
   <> transcribedText (Page.app p) ->
   exists statusText body d, r = Page.Response true statusText body /\
                             JSON.parse body = Some d) /\
  (forall statusText body d,
     r = Page.Response true statusText body -> JSON.parse body = Some d ->
     d <> VNull ->
     transcribedText (Page.app (Page.transcribed Sm Tm r p))
     = (if ToBoolean (Get d "text") then Get d "text" else VString "") /\
     status (Page.app (Page.transcribed Sm Tm r p))
     = match ToString (Get d "detected_lang") with
       | Throw _ => "Error: " +:+ Tm (Get d "detected_lang") "toString"
       | Normal lang =>
           match Get d "confidence" with
           | VNumber x =>
               "Detected language: " +:+ lang
               +:+ " (confidence: " +:+ Page.toFixed 2 x +:+ ")"
           | c => "Error: " +:+ Tm c "toFixed"
           end
       end /\
     (primitive (Get d "detected_lang") = true ->
      exists lang, ToString (Get d "detected_lang") = Normal lang)).
Proof.
  split.
  - destruct r as [m|ok statusText body]; [done|]. cbn [Page.transcribed].
    destruct ok; [|done]. cbn [negb].
    destruct (JSON.parse body) as [d|] eqn:Hd; [|done].
    intros _. by exists statusText, body, d.
  - intros statusText body d -> Hd Hn. cbn [Page.transcribed negb]. rewrite Hd.
    destruct (parse_defined body d Hd) as [Hu _].
    assert (Hg : GetV d "text" = Normal (Get d "text")) by (by destruct d).
    rewrite Hg. split; [|split; [|apply ToString_primitive]].
    + destruct (ToString (Get d "detected_lang")); [|done].
      by destruct (Get d "confidence").
    + destruct (ToString (Get d "detected_lang")); [|done].
      by destruct (Get d "confidence").
Qed.

Lemma transcribed_by_reply_witness :
  (transcribedText
     (Page.app
        (Page.transcribed (fun _ => "") (fun _ _ => "no toFixed")
           (Page.Response true "OK" (json "{'detected_lang':'en'}"))
           (Page.setTranscribedText (VString "hello") Page.initial)))
   = VString "" /\
   status
     (Page.app
        (Page.transcribed (fun _ => "") (fun _ _ => "no toFixed")
           (Page.Response true "OK" (json "{'detected_lang':'en'}"))
           (Page.setTranscribedText (VString "hello") Page.initial)))
   = "Error: no toFixed") /\
  status
    (Page.app
       (Page.transcribed (fun _ => "") (fun _ name => "no " +:+ name)
          (Page.Response true "OK"
             (json "{'text':'a','detected_lang':{'toString':1},'confidence':0.5}"))
          Page.initial))
  = "Error: no toString".
Proof.
  split.
  - destruct (proj2 (transcribed_by_reply (fun _ => "") (fun _ _ => "no toFixed")
                       (Page.Response true "OK" (json "{'detected_lang':'en'}"))
                       (Page.setTranscribedText (VString "hello") Page.initial))
                "OK" (json "{'detected_lang':'en'}")
                (VObject [("detected_lang", VString "en")]) eq_refl
                ltac:(vm_compute; reflexivity) ltac:(discriminate))
      as (H1 & H2 & _).
    split; [exact H1|exact H2].
  - destruct (proj2 (transcribed_by_reply (fun _ => "") (fun _ name => "no " +:+ name)
                       (Page.Response true "OK"
                          (json "{'text':'a','detected_lang':{'toString':1},'confidence':0.5}"))
                       Page.initial)
                "OK"
                (json "{'text':'a','detected_lang':{'toString':1},'confidence':0.5}")
                (VObject [("text", VString "a");
                          ("detected_lang",
                           VObject [("toString", VNumber (Number.of_decimal false 1 0))]);
                          ("confidence", VNumber (Number.of_decimal false 5 (-1)))])
                eq_refl ltac:(vm_compute; reflexivity) ltac:(discriminate))
      as (_ & H2 & _).
    exact H2.
Defined.

(** ** Requests *)

Lemma page_run_snoc Sm Tm (e : edition) (strict : bool) (evs : list Page.event)
    (ev : Page.event) (p : Page.Page) :
  Page.run Sm Tm e strict (evs ++ [ev]) p
  = snd (Page.handle Sm Tm e strict ev (Page.run Sm Tm e strict evs p)).
Proof. unfold Page.run. by rewrite fold_left_app. Qed.

Lemma page_run_app Sm Tm (e : edition) (strict : bool) (evs1 evs2 : list Page.event)
    (p : Page.Page) :
  Page.run Sm Tm e strict (evs1 ++ evs2) p
  = Page.run Sm Tm e strict evs2 (Page.run Sm Tm e strict evs1 p).
Proof. unfold Page.run. by rewrite fold_left_app. Qed.

(** A reply changes no request, no language and no timer. *)
Lemma settled_frame Sm Tm (e : edition) (r : Page.reply) (p : Page.Page) :
  let same p' :=
    Page.requests p' = Page.requests p /\ Page.targetLang p' = Page.targetLang p /\
    Page.sourceLang p' = Page.sourceLang p /\ Page.timers p' = Page.timers p /\
    Page.captured p' = Page.captured p in
  same (Page.transcribed Sm Tm r p) /\ same (Page.translated Sm Tm e r p) /\
  same (Page.spoken e r p).
Proof.
  cbn zeta. split; [|split].
  - destruct r as [m|ok statusText body]; [done|]. cbn [Page.transcribed].
    destruct (negb ok); [done|]. destruct (JSON.parse body) as [d|]; [|done].
    destruct (GetV d "text") as [t|]; [|done].
    destruct (ToString (Get d "detected_lang")); [|done].
    by destruct (Page.toFixed_call (Get d "confidence")).
  - destruct r as [m|ok statusText body]; [done|]. cbn [Page.translated].
    destruct (match e with Recorded => negb ok | Streamed _ => false end); [done|].
    destruct (JSON.parse body) as [d|]; [|done].
    by destruct (GetV d "translated") as [t|].
  - destruct r as [m|ok statusText body]; [done|]. cbn [Page.spoken].
    by destruct (match e with Recorded => negb ok | Streamed _ => false end).
Qed.

(** The requests after one event: those before, or those and a new one
    that carries a text. *)
Lemma requests_handle Sm Tm (e : edition) (strict : bool) (ev : Page.event)
    (p : Page.Page) :
  fst <$> Page.requests (snd (Page.handle Sm Tm e strict ev p))
  = fst <$> Page.requests p \/
  exists q,
    fst <$> Page.requests (snd (Page.handle Sm Tm e strict ev p))
    = (fst <$> Page.requests p) ++ [q] /\
    has_text q /\
    (forall s, voice_of q = Some s ->
     exists v, voice (Page.targetLang p) = Normal v /\ ToString v = Normal s).
Proof.
  destruct ev as [ev|lang|lang| | |k r|k]; cbn [Page.handle].
  - destruct e as [|v].
    + unfold Page.record.
      destruct ev as [m| |i|i data|i|i|i inputData|i data|i|text]; try (by left).
      * destruct m; by left.
      * left. by destruct (Upload.stopRecording strict (Page.app p)).
      * left. by destruct (handle Append strict _ (Page.app p)).
      * destruct (recorders (Page.app p) !! i) as [rec|]; [|by left].
        destruct (Page.captured p !! i) as [lang|]; [|by left].
        destruct (stopping rec); [|by left].
        right. eexists. cbn. rewrite fmap_app. split; [reflexivity|].
        split; [by left|done].
    + left. by destruct (handle v strict ev (Page.app p)).
  - left. destruct e; [done|]. by destruct (bool_decide _).
  - left. destruct e; [done|]. by destruct (bool_decide _).
  - unfold Page.translateText.
    destruct (transcribedText (Page.app p)) as [| | | |s| | |] eqn:Ht;
      cbn [Text.trim_call]; try (by left).
    destruct (String.eqb_spec (Text.trim s) "") as [Hb|Hb]; [by left|].
    destruct e as [|[]]; [| |by left];
      (right; eexists; cbn -[voice Text.trim]; rewrite fmap_app;
       split; [reflexivity|]; split; [right; by exists s|done]).
  - unfold Page.playTTS.
    destruct (Page.translatedText p) as [| | | |s| | |] eqn:Ht;
      cbn [Text.trim_call]; try (by left).
    destruct (String.eqb_spec (Text.trim s) "") as [Hb|Hb];
      [by destruct e as [|[]]; left|].
    destruct (voice (Page.targetLang p)) as [w|] eqn:Hv; [|by left].
    cbn [ToString].
    destruct e as [|[]]; [| |by left];
      (destruct (ToString w) as [sw|] eqn:Hw; [|by left];
       right; eexists; cbn -[voice Text.trim ToString]; rewrite fmap_app;
       split; [reflexivity|]; split; [right; by exists s|];
       intros s' [= <-]; by exists w).
  - left. unfold Page.settle.
    destruct (Page.requests p !! k) as [[q []]|] eqn:Hk; try done.
    destruct (settled_frame Sm Tm e r
                (Page.set_requests (<[k := (q, false)]> (Page.requests p)) p))
      as ((H1 & _) & (H2 & _) & (H3 & _)).
    destruct (String.eqb (Page.url q) _); [|destruct (String.eqb (Page.url q) _)];
      cbn [snd]; rewrite ?H1, ?H2, ?H3; cbn;
      by apply (fmap_insert_same fst _ _ (q, true)).
  - left. destruct (Page.timers p !! k) as [[t []]|]; try done. by destruct t.
Qed.

(** X20: no request goes out without a text.  In every session of the
    page, in each of the editions, every request made for a translation
    or for speech carries under [text] a text that is not blank: the
    handlers return before [fetch] when [trim] leaves nothing. *)
Theorem requests_carry_text Sm Tm (e : edition) (strict : bool)
    (evs : list Page.event) :
  Forall has_text (fst <$> Page.requests (Page.run Sm Tm e strict evs Page.initial)).
Proof.
  induction evs as [|ev evs IH] using rev_ind; [by constructor|].
  rewrite page_run_snoc.
  destruct (requests_handle Sm Tm e strict ev (Page.run Sm Tm e strict evs Page.initial))
    as [->|(q & -> & Hq & _)]; [done|].
  apply Forall_app. split; [done|]. by apply Forall_singleton.
Qed.

Lemma targetLang_handle Sm Tm (v : variant) (strict : bool) (ev : Page.event)
    (p : Page.Page) :
  Page.targetLang p ∈ Page.languageOptions ->
  Page.targetLang (snd (Page.handle Sm Tm (Streamed v) strict ev p))
    ∈ Page.languageOptions.
Proof.
  intros Hp. destruct ev as [ev|lang|lang| | |k r|k]; cbn [Page.handle].
  - by destruct (handle v strict ev (Page.app p)).
  - by destruct (bool_decide _).
  - destruct (bool_decide _) eqn:Hl; [|done].
    by apply bool_decide_eq_true in Hl.
  - unfold Page.translateText.
    destruct (Text.trim_call _); [|done]. destruct (String.eqb _ _); [done|].
    destruct (ToString _); by destruct v.
  - unfold Page.playTTS.
    destruct (Text.trim_call _); [|done].
    destruct (String.eqb _ _); [by destruct v|].
    destruct (voice _) as [w|]; [|done]. destruct v; [|done].
    destruct (ToString (Page.translatedText p)); [|done].
    by destruct (ToString w).
  - unfold Page.settle.
    destruct (Page.requests p !! k) as [[q []]|] eqn:Hk; try done.
    destruct (settled_frame Sm Tm (Streamed v) r
                (Page.set_requests (<[k := (q, false)]> (Page.requests p)) p))
      as ((_ & H1 & _) & (_ & H2 & _) & (_ & H3 & _)).
    destruct (String.eqb (Page.url q) _); [|destruct (String.eqb (Page.url q) _)];
      cbn [snd]; by rewrite ?H1, ?H2, ?H3.
  - destruct (Page.timers p !! k) as [[t []]|]; try done. by destruct t.
Qed.

Lemma voice_of_option (lang : string) :
  lang ∈ Page.languageOptions ->
  voice lang = Normal (Get voiceMap lang) /\
  exists s, ToString (Get voiceMap lang) = Normal s /\
            s ∈ ["en-US-JennyNeural"; "hi-IN-SwaraNeural"; "zh-CN-XiaoxiaoNeural"].
Proof.
  unfold Page.languageOptions. rewrite !elem_of_cons, elem_of_nil.
  intros [->|[->|[->|[]]]]; (split; [reflexivity|]);
    (eexists; split; [reflexivity|]);
    [left|right; left|right; right; left]; reflexivity.
Qed.

(** X21: in the streaming editions the fallback voice is never needed.
    The target language starts as [hi] and changes only through a select
    whose options are [en], [hi] and [zh]; so in every session the target
    language has an entry in [voiceMap], and every request for speech
    carries under [voice] the voice of that entry. *)
Theorem target_language_is_mapped Sm Tm (v : variant) (strict : bool)
    (evs : list Page.event) :
  Page.targetLang (Page.run Sm Tm (Streamed v) strict evs Page.initial)
    ∈ Page.languageOptions /\
  Get voiceMap (Page.targetLang (Page.run Sm Tm (Streamed v) strict evs Page.initial))
    <> VUndefined /\
  Forall (fun q => forall s, voice_of q = Some s ->
            s ∈ ["en-US-JennyNeural"; "hi-IN-SwaraNeural"; "zh-CN-XiaoxiaoNeural"])
    (fst <$> Page.requests (Page.run Sm Tm (Streamed v) strict evs Page.initial)).
Proof.
  assert (H : Page.targetLang (Page.run Sm Tm (Streamed v) strict evs Page.initial)
                ∈ Page.languageOptions /\
              Forall (fun q => forall s, voice_of q = Some s ->
                        s ∈ ["en-US-JennyNeural"; "hi-IN-SwaraNeural";
                             "zh-CN-XiaoxiaoNeural"])
                (fst <$> Page.requests
                           (Page.run Sm Tm (Streamed v) strict evs Page.initial))).
  { induction evs as [|ev evs [IH1 IH2]] using rev_ind.
    - split; [|by constructor]. unfold Page.languageOptions. cbn.
      rewrite !elem_of_cons. auto.
    - rewrite page_run_snoc. split; [by apply targetLang_handle|].
      destruct (requests_handle Sm Tm (Streamed v) strict ev
                  (Page.run Sm Tm (Streamed v) strict evs Page.initial))
        as [->|(q & -> & _ & Hq)]; [done|].
      apply Forall_app. split; [done|]. apply Forall_singleton.
      intros s Hs. destruct (voice_of_option _ IH1) as (Hv & s' & Hs' & Hin).
      destruct (Hq s Hs) as (w & Hw & Hws).
      assert (w = Get voiceMap
                    (Page.targetLang
                       (Page.run Sm Tm (Streamed v) strict evs Page.initial)))
        as -> by congruence.
      assert (s = s') as -> by congruence.
      exact Hin. }
  destruct H as [H1 H2]. split; [done|]. split; [|done].
  revert H1. unfold Page.languageOptions. rewrite !elem_of_cons, elem_of_nil.
  by intros [->|[->|[->|[]]]].
Qed.

Lemma target_language_is_mapped_witness :
  Page.targetLang
    (Page.run (fun _ => "") (fun _ _ => "") (Streamed Append) false
       [Page.ChangeTarget "zh"; Page.ChangeTarget "fr";
        Page.Session (EditTranscript "hello"); Page.ClickTranslate;
        Page.Settle 0%nat (Page.Response true "OK" (json "{'translated':'ni hao'}"));
        Page.ClickPlay] Page.initial)
    ∈ Page.languageOptions /\
  "zh-CN-XiaoxiaoNeural"
    ∈ ["en-US-JennyNeural"; "hi-IN-SwaraNeural"; "zh-CN-XiaoxiaoNeural"].
Proof.
  destruct (target_language_is_mapped (fun _ => "") (fun _ _ => "") Append false
              [Page.ChangeTarget "zh"; Page.ChangeTarget "fr";
               Page.Session (EditTranscript "hello"); Page.ClickTranslate;
               Page.Settle 0%nat
                 (Page.Response true "OK" (json "{'translated':'ni hao'}"));
               Page.ClickPlay]) as (H1 & _ & H2).
  split; [exact H1|].
  apply (Forall_lookup_1 _ _ 1%nat
           {| Page.url := "http://localhost:8000/tts";
              Page.form := [("text", Page.Field "ni hao");
                            ("voice", Page.Field "zh-CN-XiaoxiaoNeural")] |} H2);
    vm_compute; reflexivity.
Defined.

(** ** The upload of a recording *)

Lemma page_chunks_cons (ev : Page.event) (evs : list Page.event) :
  concat (page_chunks (ev :: evs))
  = concat (page_chunks [ev]) ++ concat (page_chunks evs).
Proof.
  unfold page_chunks. cbn [omap].
  destruct ev as [[]| | | | | |]; cbn; by rewrite ?app_nil_r.
Qed.

(** While the recorder [r] of the first edition records, what happens on
    the page leaves the recorders, the ref and the captured languages as
    they are and adds the chunks that arrive to the chunks kept. *)
Lemma while_recording_handle Sm Tm (strict : bool) (r : nat) (ev : Page.event)
    (p : Page.Page) (rec : MediaRecorder) :
  while_recording r ev = true -> recorders (Page.app p) !! r = Some rec ->
  state rec <> inactive \/ stopping rec = true ->
  recorders (Page.app (snd (Page.handle Sm Tm Recorded strict ev p)))
  = recorders (Page.app p) /\
  mediaRecorderRef (Page.app (snd (Page.handle Sm Tm Recorded strict ev p)))
  = mediaRecorderRef (Page.app p) /\
  Page.captured (snd (Page.handle Sm Tm Recorded strict ev p)) = Page.captured p /\
  concat (audioChunksRef (Page.app (snd (Page.handle Sm Tm Recorded strict ev p))))
  = concat (audioChunksRef (Page.app p)) ++ concat (page_chunks [ev]).
Proof.
  intros Hev Hr Hrec.
  destruct ev as [ev|lang|lang| | |k rp|k]; try done; cbn [Page.handle].
  - destruct ev as [m| |i|i data|i|i|i inputData|i data|i|text]; try done.
    + cbn in Hev. apply Nat.eqb_eq in Hev as ->.
      destruct (during_handle Append strict r (DataAvailable r data)
                  (Page.app p) rec) as [H1 H2]; [by apply Nat.eqb_eq|done..|].
      pose proof (mediaRecorderRef_during Append strict r
                    [DataAvailable r data] (Page.app p)) as H3.
      unfold Page.record. cbn [run fold_left] in H3.
      destruct (handle Append strict (DataAvailable r data) (Page.app p)) as [c a].
      cbn [snd Page.app Page.set_app Page.captured] in *.
      repeat split; try done. apply H3. repeat constructor. by apply Nat.eqb_eq.
    + cbn. by rewrite app_nil_r.
  - cbn. by rewrite app_nil_r.
  - cbn. by rewrite app_nil_r.
  - unfold Page.translateText. cbn [page_chunks omap concat]. rewrite app_nil_r.
    destruct (Text.trim_call _); [|done]. destruct (String.eqb _ _); [done|].
    by destruct (ToString _).
  - unfold Page.playTTS. cbn [page_chunks omap concat]. rewrite app_nil_r.
    destruct (Text.trim_call _); [|done]. destruct (String.eqb _ _); [done|].
    destruct (voice _) as [w|]; [|done].
    destruct (ToString (Page.translatedText p)); [|done].
    by destruct (ToString w).
Qed.

Lemma while_recording_run Sm Tm (strict : bool) (r : nat) (rec : MediaRecorder)
    (evs : list Page.event) (p : Page.Page) :
  Forall (fun ev => while_recording r ev = true) evs ->
  recorders (Page.app p) !! r = Some rec ->
  state rec <> inactive \/ stopping rec = true ->
  recorders (Page.app (Page.run Sm Tm Recorded strict evs p)) = recorders (Page.app p) /\
  mediaRecorderRef (Page.app (Page.run Sm Tm Recorded strict evs p))
  = mediaRecorderRef (Page.app p) /\
  Page.captured (Page.run Sm Tm Recorded strict evs p) = Page.captured p /\
  concat (audioChunksRef (Page.app (Page.run Sm Tm Recorded strict evs p)))
  = concat (audioChunksRef (Page.app p)) ++ concat (page_chunks evs).
Proof.
  intros Hevs. revert p.
  induction Hevs as [|ev evs Hev _ IH]; intros p Hr Hrec.
  { by rewrite app_nil_r. }
  change (Page.run Sm Tm Recorded strict (ev :: evs) p)
    with (Page.run Sm Tm Recorded strict evs
            (snd (Page.handle Sm Tm Recorded strict ev p))).
  destruct (while_recording_handle Sm Tm strict r ev p rec Hev Hr Hrec)
    as (H1 & H2 & H3 & H4).
  destruct (IH (snd (Page.handle Sm Tm Recorded strict ev p)))
    as (H5 & H6 & H7 & H8); [by rewrite H1|done|].
  repeat split; try congruence.
  by rewrite H8, H4, (page_chunks_cons ev evs), app_assoc.
Qed.

(** X22: the upload of the first edition carries the whole recording
    and the language of the moment Start was clicked.  When Start is
    clicked, chunks arrive, Stop is clicked, the last chunks arrive and
    the recorder fires [stop], the request made last is the one for the
    transcription; its file holds the bytes of exactly these chunks, in
    order; and its [lang] is the source language as it was at the click on
    Start, whatever was typed into the field since: [handleRecordingStop]
    is the function of that render. *)
Theorem upload_carries_recording Sm Tm (strict : bool) (p : Page.Page)
    (evs1 evs2 : list Page.event) :
  length (Page.captured p) = length (recorders (Page.app p)) ->
  Forall (fun ev => while_recording (length (recorders (Page.app p))) ev = true) evs1 ->
  Forall (fun ev => while_recording (length (recorders (Page.app p))) ev = true) evs2 ->
  last (Page.requests
          (Page.run Sm Tm Recorded strict
             ([Page.Session (ClickStart Granted)] ++ evs1
              ++ [Page.Session ClickStop] ++ evs2
              ++ [Page.Session (Stop (length (recorders (Page.app p))))]) p))
  = Some ({| Page.url := "http://localhost:8000/transcribe";
             Page.form :=
               [("file", Page.File (concat (page_chunks (evs1 ++ evs2))) "recording.wav");
                ("lang", Page.Field (Page.sourceLang p))] |}, true).
Proof.
  intros Hal H1 H2. set (r := length (recorders (Page.app p))) in *.
  rewrite !page_run_app.
  set (p1 := Page.run Sm Tm Recorded strict [Page.Session (ClickStart Granted)] p).
  assert (Hr1 : recorders (Page.app p1) !! r
                = Some {| state := recording_; stopping := false |}).
  { cbn. by rewrite lookup_app_r, Nat.sub_diag by done. }
  assert (Href1 : mediaRecorderRef (Page.app p1) = Some r) by done.
  assert (Hc1 : audioChunksRef (Page.app p1) = []) by done.
  assert (Hcap1 : Page.captured p1 !! r = Some (Page.sourceLang p)).
  { cbn. by rewrite lookup_app_r, Hal, Nat.sub_diag by lia. }
  destruct (while_recording_run Sm Tm strict r _ evs1 p1 H1 Hr1 ltac:(by left))
    as (Hrec2 & Href2 & Hcap2 & Hch2).
  set (p2 := Page.run Sm Tm Recorded strict evs1 p1) in *.
  set (p3 := Page.run Sm Tm Recorded strict [Page.Session ClickStop] p2).
  assert (Hp3 : recorders (Page.app p3) !! r
                = Some {| state := inactive; stopping := true |} /\
                audioChunksRef (Page.app p3) = audioChunksRef (Page.app p2) /\
                Page.captured p3 = Page.captured p2).
  { unfold p3. cbn [Page.run fold_left Page.handle Page.record].
    unfold Upload.stopRecording, current. rewrite Href2, Href1, Hrec2, Hr1.
    cbn. rewrite list_lookup_insert_eq; [done|].
    by apply lookup_lt_Some in Hr1. }
  destruct Hp3 as (Hr3 & Hc3 & Hcap3).
  destruct (while_recording_run Sm Tm strict r _ evs2 p3 H2 Hr3 ltac:(by right))
    as (Hrec4 & _ & Hcap4 & Hch4).
  set (p4 := Page.run Sm Tm Recorded strict evs2 p3) in *.
  cbn [Page.run fold_left Page.handle Page.record].
  rewrite Hrec4, Hr3, Hcap4, Hcap3, Hcap2, Hcap1. cbn.
  rewrite last_snoc. do 4 f_equal.
  rewrite Hch4, Hc3, Hch2, Hc1. cbn [concat app].
  unfold page_chunks. by rewrite omap_app, concat_app.
Qed.

Lemma upload_carries_recording_witness :
  last (Page.requests
          (Page.run (fun _ => "") (fun _ _ => "") Recorded false
             ([Page.Session (ClickStart Granted)]
              ++ [Page.Session (DataAvailable 0%nat [1; 2]); Page.ChangeSource "fr"]
              ++ [Page.Session ClickStop]
              ++ [Page.Session (DataAvailable 0%nat [3])]
              ++ [Page.Session (Stop 0%nat)]) Page.initial))
  = Some ({| Page.url := "http://localhost:8000/transcribe";
             Page.form := [("file", Page.File [1; 2; 3] "recording.wav");
                           ("lang", Page.Field "en")] |}, true).
Proof.
  apply (upload_carries_recording (fun _ => "") (fun _ _ => "") false Page.initial
           [Page.Session (DataAvailable 0%nat [1; 2]); Page.ChangeSource "fr"]
           [Page.Session (DataAvailable 0%nat [3])]); [reflexivity|..];
    repeat constructor.
Defined.

(** * The demo translation *)

Lemma code_byte (n : Z) : 0 <= n < 256 -> Text.code (JSON.byte n) = n.
Proof.
  intros Hn. unfold Text.code, JSON.byte.
  rewrite N_ascii_embedding by lia. lia.
Qed.

Lemma byte_code (c : ascii) : JSON.byte (Text.code c) = c.
Proof.
  unfold Text.code, JSON.byte. by rewrite N2Z.id, ascii_N_embedding.
Qed.

Lemma code_range (c : ascii) : 0 <= Text.code c < 256.
Proof.
  unfold Text.code. pose proof (N_ascii_bounded c). lia.
Qed.

Lemma append_String (c : ascii) (s t : string) :
  String c s +:+ t = String c (s +:+ t).
Proof. reflexivity. Qed.

Lemma append_nil (t : string) : "" +:+ t = t.
Proof. reflexivity. Qed.

Lemma append_nil_r (s : string) : s +:+ "" = s.
Proof.
  induction s as [|c s IH]; [done|]. by rewrite append_String, IH.
Qed.

Local Ltac divide := Z.div_mod_to_equations; lia.

(** The bytes of one code unit are read back as that unit. *)
Lemma units_utf8 (u : Z) (t : string) :
  0 <= u < 65536 -> Text.units (JSON.utf8 u +:+ t) = u :: Text.units t.
Proof.
  intros Hu. unfold JSON.utf8.
  destruct (Z.ltb_spec u 128).
  { rewrite append_String, append_nil. cbn [Text.units].
    rewrite code_byte by lia. by destruct (Z.ltb_spec u 128); [|lia]. }
  destruct (Z.ltb_spec u 2048).
  { rewrite !append_String, append_nil. cbn [Text.units].
    rewrite !code_byte by divide.
    destruct (Z.ltb_spec (192 + u / 64) 128); [divide|].
    destruct (Z.ltb_spec (192 + u / 64) 224); [|divide].
    f_equal. divide. }
  destruct (Z.ltb_spec u 65536); [|lia].
  rewrite !append_String, append_nil. cbn [Text.units].
  rewrite !code_byte by divide.
  destruct (Z.ltb_spec (224 + u / 4096) 128); [divide|].
  destruct (Z.ltb_spec (224 + u / 4096) 224); [divide|].
  destruct (Z.ltb_spec (224 + u / 4096) 240); [|divide].
  f_equal. divide.
Qed.

(** The four bytes of a surrogate pair are read back as the pair. *)
Lemma units_utf8_pair (hi lo : Z) (t : string) :
  55296 <= hi < 56320 -> 56320 <= lo < 57344 ->
  Text.units (JSON.utf8 (65536 + (hi - 55296) * 1024 + (lo - 56320)) +:+ t)
  = hi :: lo :: Text.units t.
Proof.
  intros Hhi Hlo.
  assert (Hcp : exists cp, cp = 65536 + (hi - 55296) * 1024 + (lo - 56320))
    by eauto.
  destruct Hcp as [cp Hcp]. rewrite <- Hcp.
  unfold JSON.utf8.
  destruct (Z.ltb_spec cp 128); [lia|].
  destruct (Z.ltb_spec cp 2048); [lia|].
  destruct (Z.ltb_spec cp 65536); [lia|].
  rewrite !append_String, append_nil. cbn [Text.units].
  rewrite !code_byte by divide.
  destruct (Z.ltb_spec (240 + cp / 262144) 128); [divide|].
  destruct (Z.ltb_spec (240 + cp / 262144) 224); [divide|].
  destruct (Z.ltb_spec (240 + cp / 262144) 240); [divide|].
  replace ((240 + cp / 262144 - 240) * 262144 + (128 + cp / 4096 mod 64 - 128) * 4096
           + (128 + cp / 64 mod 64 - 128) * 64 + (128 + cp mod 64 - 128))
    with cp by divide.
  f_equal; [divide|]. f_equal. divide.
Qed.

Lemma units_of_units_bounded (n : nat) (l : list Z) :
  (length l <= n)%nat -> Forall (fun u => 0 <= u < 65536) l ->
  Text.units (Text.of_units l) = l.
Proof.
  revert l. induction n as [|n IH]; intros l Hn Hl.
  { destruct l; [done|cbn in Hn; lia]. }
  destruct l as [|u [|lo rest]]; [done| |].
  - apply Forall_cons in Hl as [Hu _]. cbn [Text.of_units].
    rewrite <- (append_nil_r (JSON.utf8 u)). by rewrite units_utf8.
  - apply Forall_cons in Hl as [Hu Hl]. pose proof Hl as Hl'.
    apply Forall_cons in Hl' as [Hlo Hrest]. cbn [length] in Hn.
    cbn [Text.of_units].
    destruct ((55296 <=? u) && (u <? 56320) && (56320 <=? lo) && (lo <? 57344))
      eqn:Hp.
    + rewrite units_utf8_pair by lia. do 2 f_equal. apply IH; [lia|done].
    + rewrite units_utf8 by done. f_equal.
      exact (IH (lo :: rest) ltac:(cbn [length]; lia) Hl).
Qed.

Lemma units_of_units (l : list Z) :
  Forall (fun u => 0 <= u < 65536) l -> Text.units (Text.of_units l) = l.
Proof. by apply (units_of_units_bounded (length l)). Qed.

Lemma fmap_rev {A B} (f : A -> B) (l : list A) : f <$> rev l = rev (f <$> l).
Proof.
  induction l as [|x l IH]; [done|]. cbn [rev fmap list_fmap].
  fold (fmap f l). by rewrite fmap_app, IH.
Qed.

Lemma concat_singletons (l : list Z) : concat ((fun u => [u]) <$> l) = l.
Proof. induction l as [|u l IH]; [done|]. cbn. by f_equal. Qed.

Lemma reversed_of_units (l : list Z) :
  Forall (fun u => 0 <= u < 65536) l ->
  Text.reversed (Text.of_units l) = Text.of_units (rev l).
Proof.
  intros Hl. unfold Text.reversed, Text.join_units, Text.split_units.
  rewrite units_of_units by done. f_equal.
  rewrite <- fmap_rev, <- list_fmap_compose.
  rewrite <- (concat_singletons (rev l)) at 2. f_equal.
  apply list_fmap_ext. intros i u Hu.
  apply (units_of_units [u]), Forall_singleton.
  apply list_elem_of_lookup_2, list_elem_of_In, in_rev, list_elem_of_In in Hu.
  rewrite Forall_forall in Hl. by apply Hl.
Qed.

Lemma units_ascii (s : string) :
  Forall (fun c => Text.code c < 128) (list_ascii_of_string s) ->
  Text.units s = Text.code <$> list_ascii_of_string s.
Proof.
  induction s as [|c s IH]; [done|]. cbn [list_ascii_of_string].
  intros [Hc Hs]%Forall_cons. cbn [Text.units fmap list_fmap].
  destruct (Z.ltb_spec (Text.code c) 128); [|lia]. f_equal. by apply IH.
Qed.

Lemma of_units_ascii (cs : list ascii) :
  Forall (fun c => Text.code c < 128) cs ->
  Text.of_units (Text.code <$> cs) = string_of_list_ascii cs.
Proof.
  induction 1 as [|c cs Hc Hcs IH]; [done|].
  assert (Hu : JSON.utf8 (Text.code c) = String c "").
  { unfold JSON.utf8. destruct (Z.ltb_spec (Text.code c) 128); [|lia].
    by rewrite byte_code. }
  cbn [fmap list_fmap Text.of_units]. fold (fmap Text.code cs).
  destruct cs as [|c' cs']; [by rewrite Hu|].
  cbn [fmap list_fmap] in *.
  destruct (Z.leb_spec 55296 (Text.code c)); [lia|]. cbn [andb].
  by rewrite IH, Hu.
Qed.

(** X23: the demo translation of the third edition turns the text
    around, code unit by code unit.  For every string, given by its
    UTF-16 code units, the translation is the string of the units in
    reverse order, so it has as many units as the text, and translating
    the translation gives the text back; a text of ASCII characters comes
    out as its characters in reverse order. *)
Theorem reversed_turns_around (l : list Z) (s : string) :
  (Forall (fun u => 0 <= u < 65536) l ->
   Text.units (Text.reversed (Text.of_units l)) = rev l /\
   Text.reversed (Text.reversed (Text.of_units l)) = Text.of_units l) /\
  (Forall (fun c => Text.code c < 128) (list_ascii_of_string s) ->
   Text.reversed s = string_of_list_ascii (rev (list_ascii_of_string s))).
Proof.
  split.
  - intros Hl. assert (Hr : Forall (fun u => 0 <= u < 65536) (rev l)).
    { by apply Forall_rev. }
    rewrite (reversed_of_units l Hl). split; [by apply units_of_units|].
    rewrite (reversed_of_units (rev l) Hr). by rewrite rev_involutive.
  - intros Hs.
    assert (Hu : Forall (fun u => 0 <= u < 65536) (Text.code <$> list_ascii_of_string s)).
    { apply Forall_fmap, Forall_true. intros c. pose proof (code_range c). cbn. lia. }
    rewrite <- (string_of_list_ascii_of_string s) at 1.
    rewrite <- of_units_ascii by done.
    rewrite reversed_of_units by done.
    rewrite <- fmap_rev. apply of_units_ascii. by apply Forall_rev.
Qed.

Lemma reversed_turns_around_witness :
  Text.units (Text.reversed (Text.of_units [104; 105; 55357; 56832])) = [56832; 55357; 105; 104] /\
  Text.reversed "hello world" = "dlrow olleh".
Proof.
  split.
  - apply (proj1 (reversed_turns_around [104; 105; 55357; 56832] "")).
    repeat constructor; lia.
  - apply (proj2 (reversed_turns_around [] "hello world")).
    repeat constructor.
Defined.

(** A pending timer stays pending until it fires. *)
Lemma timers_handle Sm Tm (e : edition) (strict : bool) (ev : Page.event)
    (p : Page.Page) (k : nat) (t : Page.timer) :
  ev <> Page.Fire k -> Page.timers p !! k = Some (t, true) ->
  Page.timers (snd (Page.handle Sm Tm e strict ev p)) !! k = Some (t, true).
Proof.
  intros Hev Hk. destruct ev as [ev|lang|lang| | |j r|j]; cbn [Page.handle].
  - destruct e as [|v].
    + unfold Page.record.
      destruct ev as [m| |i|i data|i|i|i inputData|i data|i|text]; try done.
      * by destruct m.
      * by destruct (Upload.stopRecording strict (Page.app p)).
      * by destruct (handle Append strict _ (Page.app p)).
      * destruct (recorders (Page.app p) !! i) as [rec|]; [|done].
        destruct (Page.captured p !! i) as [lang|]; [|done].
        by destruct (stopping rec).
    + by destruct (handle v strict ev (Page.app p)).
  - destruct e; [done|]. by destruct (bool_decide _).
  - destruct e; [done|]. by destruct (bool_decide _).
  - unfold Page.translateText.
    destruct (Text.trim_call _); [|done]. destruct (String.eqb _ _); [done|].
    destruct (ToString _); [|by destruct e as [|[]]].
    destruct e as [|[]]; try done. cbn. by apply lookup_app_l_Some.
  - unfold Page.playTTS.
    destruct (Text.trim_call _); [|done].
    destruct (String.eqb _ _); [by destruct e as [|[]]|].
    destruct (voice _) as [w|]; [|done].
    destruct e as [|[]]; [| |cbn; by apply lookup_app_l_Some];
      (destruct (ToString (Page.translatedText p)); [|done]);
      by destruct (ToString w).
  - unfold Page.settle.
    destruct (Page.requests p !! j) as [[q []]|] eqn:Hj; try done.
    destruct (settled_frame Sm Tm e r
                (Page.set_requests (<[j := (q, false)]> (Page.requests p)) p))
      as ((_ & _ & _ & H1 & _) & (_ & _ & _ & H2 & _) & (_ & _ & _ & H3 & _)).
    destruct (String.eqb (Page.url q) _); [|destruct (String.eqb (Page.url q) _)];
      cbn [snd]; by rewrite ?H1, ?H2, ?H3.
  - assert (j <> k) by congruence.
    destruct (Page.timers p !! j) as [[t' []]|]; try done.
    destruct t'; cbn; by rewrite list_lookup_insert_ne.
Qed.

(** X24: the third edition asks no server for a translation.  A click
    on Translate with a text that is not blank makes no request; it shows
    [Translating...] and leaves a timer.  When the timer fires, whatever
    was typed, received or clicked in between, the translation becomes the
    text of the moment of the click, turned around, and the status line
    reads [Translation complete.]. *)
Theorem demo_translation_of_click Sm Tm (strict : bool) (p : Page.Page)
    (s : string) (evs : list Page.event) :
  transcribedText (Page.app p) = VString s -> Text.trim s <> "" ->
  Forall (fun ev => ev <> Page.Fire (length (Page.timers p))) evs ->
  status (Page.app (snd (Page.handle Sm Tm (Streamed Replace) strict
                           Page.ClickTranslate p)))
  = "Translating..." /\
  Page.requests (snd (Page.handle Sm Tm (Streamed Replace) strict
                        Page.ClickTranslate p))
  = Page.requests p /\
  Page.translatedText
    (Page.run Sm Tm (Streamed Replace) strict
       (Page.ClickTranslate :: evs ++ [Page.Fire (length (Page.timers p))]) p)
  = VString (Text.reversed s) /\
  status
    (Page.app
       (Page.run Sm Tm (Streamed Replace) strict
          (Page.ClickTranslate :: evs ++ [Page.Fire (length (Page.timers p))]) p))
  = "Translation complete.".
Proof.
  intros Hs Hb Hevs.
  assert (H1 : snd (Page.handle Sm Tm (Streamed Replace) strict Page.ClickTranslate p)
               = Page.setTimeout (Page.Translation s)
                   (Page.setStatus "Translating..." p)).
  { cbn [Page.handle]. unfold Page.translateText. rewrite Hs. cbn [Text.trim_call].
    by destruct (String.eqb_spec (Text.trim s) ""). }
  rewrite H1. split; [done|]. split; [done|].
  change (Page.run Sm Tm (Streamed Replace) strict
            (Page.ClickTranslate :: evs ++ [Page.Fire (length (Page.timers p))]) p)
    with (Page.run Sm Tm (Streamed Replace) strict
            (evs ++ [Page.Fire (length (Page.timers p))])
            (snd (Page.handle Sm Tm (Streamed Replace) strict Page.ClickTranslate p))).
  rewrite H1, page_run_snoc.
  assert (Hk : Page.timers
                 (Page.run Sm Tm (Streamed Replace) strict evs
                    (Page.setTimeout (Page.Translation s)
                       (Page.setStatus "Translating..." p)))
               !! length (Page.timers p) = Some (Page.Translation s, true)).
  { assert (H0 : Page.timers (Page.setTimeout (Page.Translation s)
                                (Page.setStatus "Translating..." p))
                 !! length (Page.timers p) = Some (Page.Translation s, true)).
    { cbn. by apply list_lookup_middle. }
    revert H0. generalize (Page.setTimeout (Page.Translation s)
                             (Page.setStatus "Translating..." p)).
    induction Hevs as [|ev evs Hev _ IH]; intros p0 H0; [done|].
    apply IH. by apply timers_handle. }
  cbn [Page.handle]. rewrite Hk. done.
Qed.

Lemma demo_translation_of_click_witness :
  Page.translatedText
    (Page.run (fun _ => "") (fun _ _ => "") (Streamed Replace) false
       (Page.ClickTranslate
        :: [Page.Session (EditTranscript "bye")] ++ [Page.Fire 0%nat])
       (Page.setTranscribedText (VString "hello") Page.initial))
  = VString (Text.reversed "hello").
Proof.
  apply (demo_translation_of_click (fun _ => "") (fun _ _ => "") false
           (Page.setTranscribedText (VString "hello") Page.initial) "hello"
           [Page.Session (EditTranscript "bye")] eq_refl).
  - vm_compute. discriminate.
  - repeat constructor. discriminate.
Defined.
